(** * VoxFree: chunking engine and resilient export pipeline

    A shallow embedding of the audio-export subsystem of [VoxFreeApp]
    (class [VoxFreeApp], version 2.0.0): [chunkText], [fetchAudioWithRetry],
    [handleLongExport], [handleExport] and [downloadBlob], together with the
    few ECMAScript string primitives they call.

    JavaScript strings are sequences of UTF-16 code units; they are modelled
    as lists of integers.  Indices and sizes are integers ([Z]), as the
    source compares them with [-1]. *)

From Stdlib Require Import ZArith List Bool Lia String Ascii.
Import ListNotations.

Open Scope Z_scope.

(* ------------------------------------------------------------------ *)
(** ** ECMAScript strings *)
(* ------------------------------------------------------------------ *)

Module JS.

Definition codeUnit := Z.
Definition jsString := list codeUnit.

(** A literal of the source, written as a Rocq string of ASCII characters. *)
Definition lit (s : String.string) : jsString :=
  map (fun a => Z.of_N (N_of_ascii a)) (String.list_ascii_of_string s).

Definition length (s : jsString) : Z := Z.of_nat (List.length s).

(** WhiteSpace and LineTerminator code points, the ones [trim] strips. *)
Definition isWhiteSpace (c : codeUnit) : bool :=
  (c =? 9) || (c =? 10) || (c =? 11) || (c =? 12) || (c =? 13) ||
  (c =? 32) || (c =? 160) || (c =? 5760) ||
  ((8192 <=? c) && (c <=? 8202)) ||
  (c =? 8232) || (c =? 8233) || (c =? 8239) || (c =? 8287) ||
  (c =? 12288) || (c =? 65279).

Fixpoint trimStart (s : jsString) : jsString :=
  match s with
  | [] => []
  | c :: r => if isWhiteSpace c then trimStart r else s
  end.

Fixpoint trimEnd (s : jsString) : jsString :=
  match s with
  | [] => []
  | c :: r =>
      match trimEnd r with
      | [] => if isWhiteSpace c then [] else [c]
      | r' => c :: r'
      end
  end.

(** [String.prototype.trim]. *)
Definition trim (s : jsString) : jsString := trimEnd (trimStart s).

Definition clamp (x lo hi : Z) : Z := Z.min (Z.max x lo) hi.

(** [String.prototype.substring (start, end)]: both ends are clamped to
    [0 .. length] and swapped when out of order. *)
Definition substring (s : jsString) (start finish : Z) : jsString :=
  let len := length s in
  let intStart := clamp start 0 len in
  let intEnd := clamp finish 0 len in
  let from := Z.min intStart intEnd in
  let to := Z.max intStart intEnd in
  firstn (Z.to_nat (to - from)) (skipn (Z.to_nat from) s).

(** [substring (start)] with the end left undefined. *)
Definition substringFrom (s : jsString) (start : Z) : jsString :=
  substring s start (length s).

(** [a === b] on strings. *)
Fixpoint strictEq (a b : jsString) : bool :=
  match a, b with
  | [], [] => true
  | x :: a', y :: b' => (x =? y) && strictEq a' b'
  | _, _ => false
  end.

(** Does [search] occur in [s] at index [i]? *)
Definition occursAt (s search : jsString) (i : nat) : bool :=
  strictEq (firstn (List.length search) (skipn i s)) search.

(** The largest index [j <= i] at which [search] occurs, or [-1]. *)
Fixpoint lastIndexUpTo (s search : jsString) (i : nat) : Z :=
  if occursAt s search i then Z.of_nat i
  else match i with
       | O => -1
       | S i' => lastIndexUpTo s search i'
       end.

(** [String.prototype.lastIndexOf (searchString, position)]: the search
    starts at [min (max position 0) length] and runs backwards. *)
Definition lastIndexOf (s search : jsString) (position : Z) : Z :=
  let start := Z.min (Z.max position 0) (length s) in
  lastIndexUpTo s search (Z.to_nat start).

(** *** [encodeURIComponent] *)

(** The unreserved set: letters, digits and [- _ . ! ~ * ' ( )]. *)
Definition isUnreserved (c : codeUnit) : bool :=
  ((65 <=? c) && (c <=? 90)) || ((97 <=? c) && (c <=? 122)) ||
  ((48 <=? c) && (c <=? 57)) ||
  (c =? 45) || (c =? 95) || (c =? 46) || (c =? 33) || (c =? 126) ||
  (c =? 42) || (c =? 39) || (c =? 40) || (c =? 41).

Definition isLeadSurrogate (c : codeUnit) : bool := (55296 <=? c) && (c <=? 56319).
Definition isTrailSurrogate (c : codeUnit) : bool := (56320 <=? c) && (c <=? 57343).

Definition hexDigit (n : Z) : codeUnit := if n <? 10 then 48 + n else 55 + n.

(** ["%XX"] for one octet. *)
Definition percent (octet : Z) : jsString :=
  [37; hexDigit (octet / 16); hexDigit (octet mod 16)].

(** The UTF-8 octets of a code point. *)
Definition utf8 (cp : Z) : list Z :=
  if cp <? 128 then [cp]
  else if cp <? 2048 then [192 + cp / 64; 128 + cp mod 64]
  else if cp <? 65536 then
    [224 + cp / 4096; 128 + (cp / 64) mod 64; 128 + cp mod 64]
  else
    [240 + cp / 262144; 128 + (cp / 4096) mod 64;
     128 + (cp / 64) mod 64; 128 + cp mod 64].

Definition escape (cp : Z) : jsString := flat_map percent (utf8 cp).

(** [encodeURIComponent (s)]; [None] stands for the [URIError] thrown at
    an unpaired surrogate. *)
Fixpoint encodeURIComponent (s : jsString) : option jsString :=
  match s with
  | [] => Some []
  | c :: r =>
      if isUnreserved c then option_map (cons c) (encodeURIComponent r)
      else if isLeadSurrogate c then
        match r with
        | d :: r' =>
            if isTrailSurrogate d then
              option_map
                (app (escape ((c - 55296) * 1024 + (d - 56320) + 65536)))
                (encodeURIComponent r')
            else None
        | [] => None
        end
      else if isTrailSurrogate c then None
      else option_map (app (escape c)) (encodeURIComponent r)
  end.

(** [s.split('-')[0]]: the part before the first hyphen. *)
Fixpoint beforeHyphen (s : jsString) : jsString :=
  match s with
  | [] => []
  | c :: r => if c =? 45 then [] else c :: beforeHyphen r
  end.

End JS.

Import JS.

(* ------------------------------------------------------------------ *)
(** ** Chunking engine: [chunkText] *)
(* ------------------------------------------------------------------ *)

Module Chunker.

Definition FULL_STOP : codeUnit := 46.
Definition EXCLAMATION : codeUnit := 33.
Definition QUESTION : codeUnit := 63.
Definition SPACE : codeUnit := 32.
Definition LINE_FEED : codeUnit := 10.

(** [const sentenceEnders = ['. ', '! ', '? ', '.\n', '!\n', '?\n']]. *)
Definition sentenceEnders : list jsString :=
  [ [FULL_STOP; SPACE]; [EXCLAMATION; SPACE]; [QUESTION; SPACE];
    [FULL_STOP; LINE_FEED]; [EXCLAMATION; LINE_FEED]; [QUESTION; LINE_FEED] ].

(** One turn of [for (const ender of sentenceEnders)]. *)
Definition enderStep (remaining : jsString) (maxSize : Z)
           (cutIndex : Z) (ender : jsString) : Z :=
  let idx := lastIndexOf remaining ender maxSize in
  if cutIndex <? idx then idx + length ender else cutIndex.

(** The value of [cutIndex] after the loop over the sentence enders. *)
Definition sentenceCut (remaining : jsString) (maxSize : Z) : Z :=
  fold_left (enderStep remaining maxSize) sentenceEnders (-1).

(** The value of [cutIndex] after the word-boundary fallback. *)
Definition boundaryCut (remaining : jsString) (maxSize : Z) : Z :=
  let cutIndex := sentenceCut remaining maxSize in
  if cutIndex =? -1 then lastIndexOf remaining [SPACE] maxSize else cutIndex.

(** The final [cutIndex], after the forced cut. *)
Definition cutIndexOf (remaining : jsString) (maxSize : Z) : Z :=
  let cutIndex := boundaryCut remaining maxSize in
  if (cutIndex =? -1) || (cutIndex =? 0) then maxSize else cutIndex.

(** What one pass through the body of [while (remaining.length > 0)] does:
    it leaves the loop, with or without pushing a last chunk, or it pushes
    a chunk and goes on with a new [remaining]. *)
Inductive Iteration :=
| Exit                                             (* loop test fails *)
| PushBreak (chunk : jsString)                     (* push; break *)
| PushContinue (chunk : jsString) (remaining : jsString).

Definition iteration (remaining : jsString) (maxSize : Z) : Iteration :=
  if negb (0 <? length remaining) then Exit
  else if length remaining <=? maxSize then PushBreak remaining
  else
    let cutIndex := cutIndexOf remaining maxSize in
    PushContinue (trim (substring remaining 0 cutIndex))
                 (trim (substringFrom remaining cutIndex)).

(** The [while] loop, bounded by [fuel] iterations; [None] when the bound
    is reached before the loop ends. *)
Fixpoint chunkLoop (fuel : nat) (maxSize : Z)
         (chunks : list jsString) (remaining : jsString)
  : option (list jsString) :=
  match fuel with
  | O => None
  | S fuel' =>
      match iteration remaining maxSize with
      | Exit => Some chunks
      | PushBreak chunk => Some (chunks ++ [chunk])
      | PushContinue chunk remaining' =>
          chunkLoop fuel' maxSize (chunks ++ [chunk]) remaining'
      end
  end.

(** [chunkText (text, maxSize)]. *)
Definition chunkText (fuel : nat) (text : jsString) (maxSize : Z)
  : option (list jsString) :=
  chunkLoop fuel maxSize [] (trim text).

(** *** Vocabulary of the properties of the chunks *)

(** A string of white space only. *)
Definition blank (w : jsString) : Prop :=
  Forall (fun c => isWhiteSpace c = true) w.

(** The first code unit, when there is one, is not white space. *)
Definition headOk (s : jsString) : Prop :=
  match s with
  | [] => True
  | c :: _ => isWhiteSpace c = false
  end.

(** A string that [trim] leaves alone at both ends. *)
Definition Trimmed (s : jsString) : Prop :=
  trimStart s = s /\ trimEnd s = s.

(** The chunks put back in order, with [gaps] between neighbours. *)
Fixpoint weave (chunks gaps : list jsString) : jsString :=
  match chunks with
  | [] => []
  | c :: cs =>
      match gaps with
      | [] => c ++ weave cs []
      | g :: gs => c ++ g ++ weave cs gs
      end
  end.

(** A sentence ender of the source starts at index [i]. *)
Definition enderAt (remaining : jsString) (i : Z) : Prop :=
  0 <= i /\
  exists ender, In ender sentenceEnders /\
                occursAt remaining ender (Z.to_nat i) = true.

(** The code unit at index [i] is U+0020. *)
Definition spaceAt (remaining : jsString) (i : Z) : Prop :=
  0 <= i /\ nth_error remaining (Z.to_nat i) = Some SPACE.

(** The fallback as the specification words it: the nearest white space
    at or before an offset, [-1] when there is none. *)
Fixpoint whitespaceUpTo (s : jsString) (i : nat) : Z :=
  if match nth_error s i with
     | Some c => isWhiteSpace c
     | None => false
     end
  then Z.of_nat i
  else match i with
       | O => -1
       | S i' => whitespaceUpTo s i'
       end.

Definition nearestWhitespace (remaining : jsString) (maxSize : Z) : Z :=
  whitespaceUpTo remaining
                 (Z.to_nat (Z.min (Z.max maxSize 0) (length remaining))).

End Chunker.

Import Chunker.

(* ------------------------------------------------------------------ *)
(** ** Resilient export pipeline *)
(* ------------------------------------------------------------------ *)

Module VoxFreeApp.

(** [static CONFIG]. *)
Record Config := {
  MAX_TEXT_LENGTH : Z;
  CHUNK_SIZE : Z;
  DEBOUNCE_DELAY : Z;
  RETRY_ATTEMPTS : Z;
  RETRY_DELAY : Z;
  PROXY_URLS : list jsString;
  TTS_BASE_URL : jsString;
  STORAGE_KEY : jsString
}.

Definition CONFIG : Config := {|
  MAX_TEXT_LENGTH := 5000;
  CHUNK_SIZE := 200;
  DEBOUNCE_DELAY := 300;
  RETRY_ATTEMPTS := 2;
  RETRY_DELAY := 1000;
  PROXY_URLS :=
    [ lit "https://api.allorigins.win/raw?url=";
      lit "https://corsproxy.io/?";
      lit "https://api.codetabs.com/v1/proxy?quest=" ];
  TTS_BASE_URL := lit "https://translate.google.com/translate_tts";
  STORAGE_KEY := lit "voxfree_preferences"
|}.

(** An audio blob is its bytes; [blob.size] is their number and
    [new Blob (blobs)] their concatenation. *)
Definition Blob := list Z.
Definition size (b : Blob) : Z := Z.of_nat (List.length b).
Definition newBlob (blobs : list Blob) : Blob := List.concat blobs.

(** What the page offers the export: the text area and the [data-lang]
    attribute of the selected voice option, when there is one. *)
Record UI := {
  textInput_value : jsString;
  selected_data_lang : option jsString
}.

(** *** The transport *)

(** How [response.blob ()] ends. *)
Inductive BodyRead :=
| BodyFailed (message : jsString)
| BodyBlob (blob : Blob).

Record Response := {
  status : Z;
  statusText : jsString;
  body : BodyRead
}.

(** How the promise of [fetch] would settle if left alone. *)
Inductive Settlement :=
| NetworkError (message : jsString)
| Responds (response : Response).

(** A reply of the network to one request: the time in milliseconds [fetch]
    takes to settle, and how it settles. *)
Record Reply := { elapsed : Z; settlement : Settlement }.

(** The timer of [setTimeout (() => controller.abort (), 10000)]. *)
Definition TIMEOUT_MS : Z := 10000.

(** [response.ok]. *)
Definition ok (response : Response) : bool :=
  (200 <=? status response) && (status response <=? 299).

(** *** Values thrown *)

Inductive Error :=
| AbortError                                   (* the abort signal fired *)
| TypeError (message : jsString)               (* [fetch] rejected *)
| HttpError (status : Z) (statusText : jsString)
                                (* [`HTTP ${status}: ${statusText}`] *)
| EmptyAudio                    (* ['Empty audio file received'] *)
| BodyError (message : jsString)               (* [blob ()] rejected *)
| URIError                      (* [encodeURIComponent]: malformed string *)
| FailedToGenerate              (* ['Failed to generate audio'] *)
| FailedChunk (number : Z).     (* [`Failed to process chunk ${i + 1}`] *)

(** [error.name === 'AbortError' ? 'Request timeout' : error.message]. *)
Inductive ErrorMsg :=
| RequestTimeout
| MessageOf (e : Error).

Definition errorMsg (error : Error) : ErrorMsg :=
  match error with
  | AbortError => RequestTimeout
  | e => MessageOf e
  end.

(** *** Observable effects *)

(** The literal and template texts of the source. *)
Inductive Message :=
| AttemptingDownload (proxyNumber total : Z)
    (* [`Attempting download with proxy ${proxyIndex + 1}/${length}`] *)
| DownloadSuccessful (proxyNumber : Z)
    (* [`Download successful with proxy ${proxyIndex + 1}`] *)
| FetchAttemptFailed (attempt proxyNumber : Z) (msg : ErrorMsg)
    (* [`Fetch attempt ${attempt} with proxy ${proxyIndex + 1} failed: ${errorMsg}`] *)
| RetryingAllProxies (attempt total : Z)
    (* [`Retrying all proxies (attempt ${attempt + 1}/${RETRY_ATTEMPTS})`] *)
| AllProxyAttemptsFailed
    (* ['All proxy attempts failed, using direct fallback'] *)
| UnableToDownload
    (* ['Unable to download automatically due to network restrictions. ...'] *)
| ProcessingLongText            (* ['Processing long text...'] *)
| ProcessingChunk (number total : Z)
    (* [`Processing chunk ${i + 1}/${totalChunks}...`] *)
| DownloadComplete              (* ['Download Complete'] *)
| LongExportFailed (e : Error)  (* ["Long export failed:", error] *)
| ExportFailed (e : Error)      (* ["Export failed:", error] *)
| ErrorStatus                   (* ['Error'] *)
| FailedLongText
    (* ['Failed to process long text. Try shorter text or check your connection.'] *)
| PreparingDownload             (* ['Preparing download...'] *)
| DownloadFailed
    (* ['Download failed. Please try again or use shorter text.'] *)
| EnterValidText                (* ['Please enter valid text to download.'] *)
| TextTooLong (limit : Z).
    (* [`Text exceeds maximum length of ${MAX_TEXT_LENGTH} characters.`] *)

Inductive Event :=
| ConsoleLog (m : Message)
| ConsoleWarn (m : Message)
| ConsoleError (m : Message)
| FetchRequest (url : jsString)           (* [fetch (proxyUrl, ...)] *)
| Delay (ms : Z)                          (* [await this.delay (ms)] *)
| WindowOpen (url : jsString)             (* [window.open (url, '_blank', ...)] *)
| StatusUpdate (text : Message) (isActive : bool)
| Notification (message : Message)        (* [showNotification (message, 'error')] *)
| FileSave (blob : Blob) (ext : jsString). (* the click on the download link *)

(** *** Computations: a world, a trace of events, and a completion *)

Inductive Completion (A : Type) :=
| Returned (a : A)
| Thrown (e : Error)
| Unfinished.             (* the recursion bound of the model was reached *)
Arguments Returned {A} a.
Arguments Thrown {A} e.
Arguments Unfinished {A}.

Record Run (World A : Type) := {
  completion : Completion A;
  events : list Event;
  after : World
}.
Arguments completion {World A} r.
Arguments events {World A} r.
Arguments after {World A} r.

Definition M (World A : Type) := World -> Run World A.

Definition ret {World A} (a : A) : M World A :=
  fun w => {| completion := Returned a; events := []; after := w |}.

Definition throw {World A} (e : Error) : M World A :=
  fun w => {| completion := Thrown e; events := []; after := w |}.

Definition unfinished {World A} : M World A :=
  fun w => {| completion := Unfinished; events := []; after := w |}.

Definition emit {World} (e : Event) : M World unit :=
  fun w => {| completion := Returned tt; events := [e]; after := w |}.

Definition bind {World A B} (m : M World A) (f : A -> M World B) : M World B :=
  fun w =>
    let r := m w in
    match completion r with
    | Returned a =>
        let r' := f a (after r) in
        {| completion := completion r';
           events := events r ++ events r';
           after := after r' |}
    | Thrown e =>
        {| completion := Thrown e; events := events r; after := after r |}
    | Unfinished =>
        {| completion := Unfinished; events := events r; after := after r |}
    end.

(** [try { m } catch (error) { handler error }]. *)
Definition tryCatch {World A} (m : M World A) (handler : Error -> M World A)
  : M World A :=
  fun w =>
    let r := m w in
    match completion r with
    | Thrown e =>
        let r' := handler e (after r) in
        {| completion := completion r';
           events := events r ++ events r';
           after := after r' |}
    | _ => r
    end.

Declare Scope js_scope.
Delimit Scope js_scope with js.
Notation "x <- m ;; k" := (bind m (fun x => k))
  (at level 61, m at next level, right associativity) : js_scope.
Notation "m ;; k" := (bind m (fun _ => k))
  (at level 61, right associativity) : js_scope.

(** *** Projections of a trace *)

(** The URLs fetched, in order. *)
Fixpoint requests (evs : list Event) : list jsString :=
  match evs with
  | [] => []
  | FetchRequest url :: r => url :: requests r
  | _ :: r => requests r
  end.

(** The URLs opened in a new tab. *)
Fixpoint opened (evs : list Event) : list jsString :=
  match evs with
  | [] => []
  | WindowOpen url :: r => url :: opened r
  | _ :: r => opened r
  end.

(** The files saved. *)
Fixpoint saved (evs : list Event) : list (Blob * jsString) :=
  match evs with
  | [] => []
  | FileSave blob ext :: r => (blob, ext) :: saved r
  | _ :: r => saved r
  end.

(** The notifications shown to the user. *)
Fixpoint notified (evs : list Event) : list Message :=
  match evs with
  | [] => []
  | Notification m :: r => m :: notified r
  | _ :: r => notified r
  end.

(** The ladders given up: one entry per
    ['All proxy attempts failed, using direct fallback']. *)
Fixpoint exhausted (evs : list Event) : nat :=
  match evs with
  | [] => 0
  | ConsoleWarn AllProxyAttemptsFailed :: r => S (exhausted r)
  | _ :: r => exhausted r
  end.

(** The errors that reached the [catch] block of an export. *)
Fixpoint caught (evs : list Event) : list Error :=
  match evs with
  | [] => []
  | ConsoleError (LongExportFailed e) :: r => e :: caught r
  | ConsoleError (ExportFailed e) :: r => e :: caught r
  | _ :: r => caught r
  end.

(** Events that save, open, notify, catch and give up nothing. *)
Definition silent (evs : list Event) : Prop :=
  saved evs = [] /\ caught evs = [] /\ exhausted evs = 0%nat /\
  opened evs = [] /\ notified evs = [].

Section Pipeline.

Context {World : Type}.

(** The network: a request changes the world and gets a reply. *)
Variable transport : World -> jsString -> Reply * World.
Variable cfg : Config.
Variable ui : UI.

Local Open Scope js_scope.

Definition updateStatus (text : Message) (isActive : bool) : M World unit :=
  emit (StatusUpdate text isActive).

(** [showError (message)]; every message of the source is a non-blank
    string, so the notification is always shown. *)
Definition showError (message : Message) : M World unit :=
  emit (ConsoleError message) ;;
  updateStatus ErrorStatus false ;;
  emit (Notification message).

Definition delay (ms : Z) : M World unit := emit (Delay ms).

(** [downloadBlob (blob, ext)]: the link is created and clicked; the DOM calls
    are taken not to throw. *)
Definition downloadBlob (blob : Blob) (ext : jsString) : M World unit :=
  emit (FileSave blob ext).

Definition orThrow {A} (e : Error) (o : option A) : M World A :=
  match o with
  | Some a => ret a
  | None => throw e
  end.

(** [`${TTS_BASE_URL}?ie=UTF-8&tl=${encodeURIComponent(lang)}&client=tw-ob&q=${encodeURIComponent(text)}`]. *)
Definition targetUrl (text lang : jsString) : option jsString :=
  match encodeURIComponent lang with
  | None => None
  | Some l =>
      match encodeURIComponent text with
      | None => None
      | Some q =>
          Some (TTS_BASE_URL cfg ++ lit "?ie=UTF-8&tl=" ++ l
                  ++ lit "&client=tw-ob&q=" ++ q)
      end
  end.

(** [PROXY_URLS[proxyIndex]] inside a template literal. *)
Definition proxyAt (proxyIndex : Z) : jsString :=
  if proxyIndex <? 0 then lit "undefined"
  else nth (Z.to_nat proxyIndex) (PROXY_URLS cfg) (lit "undefined").

(** [`${currentProxy}${encodeURIComponent(googleUrl)}`]. *)
Definition proxiedUrl (proxyIndex : Z) (googleUrl : jsString)
  : option jsString :=
  option_map (app (proxyAt proxyIndex)) (encodeURIComponent googleUrl).

(** [await fetch (proxyUrl, { ..., signal })] under the abort timer. *)
Definition fetch (url : jsString) : M World Response :=
  fun w =>
    let (reply, w') := transport w url in
    {| completion :=
         if TIMEOUT_MS <=? elapsed reply then Thrown AbortError
         else match settlement reply with
              | NetworkError message => Thrown (TypeError message)
              | Responds response => Returned response
              end;
       events := [FetchRequest url];
       after := w' |}.

(** [await response.blob ()], for a body read that settles: it fulfils with
    a blob or rejects. A body that never ends is not among the replies of
    this model: its runs are those in which every body read settles. *)
Definition blobOf (response : Response) : M World Blob :=
  match body response with
  | BodyFailed message => throw (BodyError message)
  | BodyBlob blob => ret blob
  end.

(** [PROXY_URLS.length]. *)
Definition proxyCount : Z := Z.of_nat (List.length (PROXY_URLS cfg)).

(** The [try] block of [fetchAudioWithRetry]. *)
Definition attemptFetch (text lang : jsString) (proxyIndex : Z)
  : M World (option Blob) :=
  googleUrl <- orThrow URIError (targetUrl text lang) ;;
  proxyUrl <- orThrow URIError (proxiedUrl proxyIndex googleUrl) ;;
  emit (ConsoleLog (AttemptingDownload (proxyIndex + 1) proxyCount)) ;;
  response <- fetch proxyUrl ;;
  if negb (ok response)
  then throw (HttpError (status response) (statusText response))
  else
    blob <- blobOf response ;;
    if size blob =? 0 then throw EmptyAudio
    else
      emit (ConsoleLog (DownloadSuccessful (proxyIndex + 1))) ;;
      ret (Some blob).

(** The end of the [catch] block: the direct fallback. *)
Definition directFallback (text lang : jsString) : M World (option Blob) :=
  emit (ConsoleWarn AllProxyAttemptsFailed) ;;
  googleUrl <- orThrow URIError (targetUrl text lang) ;;
  emit (WindowOpen googleUrl) ;;
  showError UnableToDownload ;;
  ret None.

(** [fetchAudioWithRetry (text, lang, attempt, proxyIndex)]; [fuel]
    bounds the depth of the recursion. *)
Fixpoint fetchAudioWithRetry (fuel : nat) (text lang : jsString)
         (attempt proxyIndex : Z) : M World (option Blob) :=
  match fuel with
  | O => unfinished
  | S fuel' =>
      tryCatch (attemptFetch text lang proxyIndex)
        (fun error =>
           emit (ConsoleWarn
                   (FetchAttemptFailed attempt (proxyIndex + 1)
                                       (errorMsg error))) ;;
           let nextProxyIndex := proxyIndex + 1 in
           if nextProxyIndex <? proxyCount
           then fetchAudioWithRetry fuel' text lang attempt nextProxyIndex
           else if attempt <? RETRY_ATTEMPTS cfg
           then
             emit (ConsoleLog (RetryingAllProxies (attempt + 1)
                                                  (RETRY_ATTEMPTS cfg))) ;;
             delay (RETRY_DELAY cfg) ;;
             fetchAudioWithRetry fuel' text lang (attempt + 1) 0
           else directFallback text lang)
  end.

(** [getSelectedLanguage ()]:
    [selectedOption?.getAttribute('data-lang') || 'en-US']. *)
Definition getSelectedLanguage : jsString :=
  match selected_data_lang ui with
  | Some (c :: r) => c :: r
  | _ => lit "en-US"
  end.

(** The body of [for (let i = 0; i < totalChunks; i++)], on the chunks
    from index [i] on. *)
Fixpoint forEachChunk (fuel : nat) (shortLang : jsString) (totalChunks : Z)
         (i : Z) (chunks : list jsString) (blobs : list Blob)
  : M World (list Blob) :=
  match chunks with
  | [] => ret blobs
  | chunk :: rest =>
      match trim chunk with
      | [] => forEachChunk fuel shortLang totalChunks (i + 1) rest blobs
      | _ =>
          updateStatus (ProcessingChunk (i + 1) totalChunks) true ;;
          blob <- fetchAudioWithRetry fuel chunk shortLang 1 0 ;;
          match blob with
          | Some b =>
              (if i <? totalChunks - 1 then delay 500 else ret tt) ;;
              forEachChunk fuel shortLang totalChunks (i + 1) rest
                        (blobs ++ [b])
          | None => throw (FailedChunk (i + 1))
          end
      end
  end.

(** [handleLongExport (text, format)]; [fuel] bounds the loop of [chunkText]
    and the recursion of every [fetchAudioWithRetry]. *)
Definition handleLongExport (fuel : nat) (text format : jsString)
  : M World unit :=
  updateStatus ProcessingLongText true ;;
  tryCatch
    (match chunkText fuel text (CHUNK_SIZE cfg) with
     | None => unfinished
     | Some chunks =>
         let lang := getSelectedLanguage in
         let shortLang := beforeHyphen lang in
         let totalChunks := Z.of_nat (List.length chunks) in
         blobs <- forEachChunk fuel shortLang totalChunks 0 chunks [] ;;
         let finalBlob := newBlob blobs in
         downloadBlob finalBlob format ;;
         updateStatus DownloadComplete false
     end)
    (fun error =>
       emit (ConsoleError (LongExportFailed error)) ;;
       updateStatus ErrorStatus false ;;
       showError FailedLongText).

(** [validateInput ()]. *)
Definition validateInput : M World bool :=
  let text := trim (textInput_value ui) in
  let len := length text in
  if len =? 0 then ret false
  else if MAX_TEXT_LENGTH cfg <? len
  then showError (TextTooLong (MAX_TEXT_LENGTH cfg)) ;; ret false
  else ret true.

(** [handleExport (format)]. *)
Definition handleExport (fuel : nat) (format : jsString) : M World unit :=
  valid <- validateInput ;;
  if negb valid then showError EnterValidText
  else
    let text := trim (textInput_value ui) in
    if CHUNK_SIZE cfg <? length text
    then handleLongExport fuel text format
    else
      updateStatus PreparingDownload true ;;
      tryCatch
        (let lang := getSelectedLanguage in
         let shortLang := beforeHyphen lang in
         audioBlob <- fetchAudioWithRetry fuel text shortLang 1 0 ;;
         match audioBlob with
         | Some b =>
             downloadBlob b format ;;
             updateStatus DownloadComplete false
         | None => throw FailedToGenerate
         end)
        (fun error =>
           emit (ConsoleError (ExportFailed error)) ;;
           updateStatus ErrorStatus false ;;
           showError DownloadFailed).

(** *** Vocabulary of the properties of the pipeline *)

(** A run with events put in front. *)
Definition prepend {A} (evs : list Event) (r : Run World A) : Run World A :=
  {| completion := completion r; events := evs ++ events r; after := after r |}.

(** What the [catch] block does after its warning. *)
Definition afterFailure (fuel : nat) (text lang : jsString)
           (attempt proxyIndex : Z) : M World (option Blob) :=
  fun w =>
    if proxyIndex + 1 <? proxyCount
    then fetchAudioWithRetry fuel text lang attempt (proxyIndex + 1) w
    else if attempt <? RETRY_ATTEMPTS cfg
    then prepend [ConsoleLog (RetryingAllProxies (attempt + 1)
                                                 (RETRY_ATTEMPTS cfg));
                  Delay (RETRY_DELAY cfg)]
                 (fetchAudioWithRetry fuel text lang (attempt + 1) 0 w)
    else directFallback text lang w.

(** How one reply ends one attempt: with the error the [try] block throws,
    or with the blob it returns. *)
Definition outcomeOf (reply : Reply) : Error + Blob :=
  if TIMEOUT_MS <=? elapsed reply then inl AbortError
  else match settlement reply with
       | NetworkError message => inl (TypeError message)
       | Responds response =>
           if negb (ok response)
           then inl (HttpError (status response) (statusText response))
           else match body response with
                | BodyFailed message => inl (BodyError message)
                | BodyBlob blob =>
                    if size blob =? 0 then inl EmptyAudio else inr blob
                end
       end.

(** Both URLs of a request can be built: [encodeURIComponent] accepts the
    text, the language and the target URL. *)
Definition Requestable (text lang : jsString) : Prop :=
  exists googleUrl encoded,
    targetUrl text lang = Some googleUrl /\
    encodeURIComponent googleUrl = Some encoded.

(** The same, as a test. *)
Definition requestable (text lang : jsString) : bool :=
  match targetUrl text lang with
  | Some googleUrl =>
      match encodeURIComponent googleUrl with
      | Some _ => true
      | None => false
      end
  | None => false
  end.

(** The events of the direct fallback that opens [googleUrl]. *)
Definition fallbackEvents (googleUrl : jsString) : list Event :=
  [ ConsoleWarn AllProxyAttemptsFailed; WindowOpen googleUrl;
    ConsoleError UnableToDownload; StatusUpdate ErrorStatus false;
    Notification UnableToDownload ].

(** What every run of [fetchAudioWithRetry] looks like, by the way it
    ends. *)
Definition fetchShape (text lang : jsString) (run : Run World (option Blob))
  : Prop :=
  saved (events run) = [] /\ caught (events run) = [] /\
  match completion run with
  | Returned (Some blob) =>
      exhausted (events run) = 0%nat /\ opened (events run) = [] /\
      notified (events run) = [] /\ size blob <> 0
  | Returned None =>
      exists googleUrl pre,
        targetUrl text lang = Some googleUrl /\
        events run = pre ++ fallbackEvents googleUrl /\
        exhausted pre = 0%nat /\ opened pre = [] /\ notified pre = []
  | Thrown e =>
      e = URIError /\ targetUrl text lang = None /\
      opened (events run) = [] /\ notified (events run) = []
  | Unfinished =>
      exhausted (events run) = 0%nat /\ opened (events run) = [] /\
      notified (events run) = []
  end.

(** The number of requests of a run. *)
Definition attempts {A} (run : Run World A) : Z :=
  Z.of_nat (List.length (requests (events run))).

(** The rungs of the ladder that are left at [(attempt, proxyIndex)]. *)
Definition rungsLeft (attempt proxyIndex : Z) : Z :=
  (RETRY_ATTEMPTS cfg - attempt) * proxyCount + (proxyCount - proxyIndex).

(** The chunks fetched one after the other, each from the world its
    predecessor left, every one with a blob; [made] lists the requests of
    each chunk. *)
Inductive Sequential (fuel : nat) (lang : jsString)
  : World -> list jsString -> list Blob -> list (list jsString) -> World
    -> Prop :=
| Sequential_nil (w : World) : Sequential fuel lang w [] [] [] w
| Sequential_cons (w : World) (chunk : jsString) (rest : list jsString)
                  (blob : Blob) (blobs : list Blob)
                  (made : list (list jsString)) (w' : World) :
    completion (fetchAudioWithRetry fuel chunk lang 1 0 w)
    = Returned (Some blob) ->
    Sequential fuel lang (after (fetchAudioWithRetry fuel chunk lang 1 0 w))
               rest blobs made w' ->
    Sequential fuel lang w (chunk :: rest) (blob :: blobs)
               (requests (events (fetchAudioWithRetry fuel chunk lang 1 0 w))
                  :: made)
               w'.

(** The loop of [handleLongExport] stopped at a chunk whose ladder was
    exhausted: the chunks before it were all fetched, the requests made are
    theirs and its own, and the trace ends with its direct fallback. *)
Definition StoppedAt (fuel : nat) (lang : jsString) (i : Z) (w : World)
           (chunks : list jsString) (run : Run World (list Blob))
           (done : list jsString) (chunk : jsString) (rest : list jsString)
  : Prop :=
  chunks = done ++ chunk :: rest /\
  completion run = Thrown (FailedChunk (i + Z.of_nat (List.length done) + 1)) /\
  exists blobs made w1 googleUrl pre,
    Sequential fuel lang w done blobs made w1 /\
    completion (fetchAudioWithRetry fuel chunk lang 1 0 w1) = Returned None /\
    requests (events run)
    = List.concat made
      ++ requests (events (fetchAudioWithRetry fuel chunk lang 1 0 w1)) /\
    targetUrl chunk lang = Some googleUrl /\
    events run = pre ++ fallbackEvents googleUrl /\
    exhausted pre = 0%nat /\ opened pre = [] /\ notified pre = [].

(** What every run of the loop of [handleLongExport] looks like, by the way
    it ends. *)
Definition loopShape (fuel : nat) (lang : jsString) (i : Z) (w : World)
           (chunks : list jsString) (blobs : list Blob)
           (run : Run World (list Blob)) : Prop :=
  saved (events run) = [] /\ caught (events run) = [] /\
  match completion run with
  | Returned all =>
      exhausted (events run) = 0%nat /\ opened (events run) = [] /\
      notified (events run) = [] /\
      exists fetched made,
        all = blobs ++ fetched /\
        Sequential fuel lang w chunks fetched made (after run) /\
        requests (events run) = List.concat made
  | Thrown e =>
      (exists done chunk rest, StoppedAt fuel lang i w chunks run done chunk rest)
      \/ (e = URIError /\ opened (events run) = [] /\
          notified (events run) = [] /\
          exists chunk, In chunk chunks /\ targetUrl chunk lang = None)
  | Unfinished =>
      exhausted (events run) = 0%nat /\ opened (events run) = [] /\
      notified (events run) = []
  end.

(** The chunks of an export: those of [chunkText] for a long text, the text
    itself otherwise. *)
Definition exportChunks (fuel : nat) (text : jsString)
  : option (list jsString) :=
  if CHUNK_SIZE cfg <? length text
  then chunkText fuel text (CHUNK_SIZE cfg)
  else Some [text].

(** [const shortLang = lang.split('-')[0]]. *)
Definition shortLang : jsString := beforeHyphen getSelectedLanguage.

(** The events of the [catch] block of [handleLongExport]. *)
Definition longFailureEvents (error : Error) : list Event :=
  [ ConsoleError (LongExportFailed error); StatusUpdate ErrorStatus false;
    ConsoleError FailedLongText; StatusUpdate ErrorStatus false;
    Notification FailedLongText ].

(** The events of the [catch] block of [handleExport]. *)
Definition failureEvents (error : Error) : list Event :=
  [ ConsoleError (ExportFailed error); StatusUpdate ErrorStatus false;
    ConsoleError DownloadFailed; StatusUpdate ErrorStatus false;
    Notification DownloadFailed ].

End Pipeline.

End VoxFreeApp.

(* ------------------------------------------------------------------ *)
(** ** Concrete networks and inputs *)
(* ------------------------------------------------------------------ *)

Module Scenario.

Import VoxFreeApp.

Definition reply503 : Reply :=
  {| elapsed := 120;
     settlement := Responds {| status := 503;
                               statusText := lit "Service Unavailable";
                               body := BodyBlob [] |} |}.

Definition reply200 (blob : Blob) : Reply :=
  {| elapsed := 120;
     settlement := Responds {| status := 200; statusText := lit "OK";
                               body := BodyBlob blob |} |}.

(** A network whose world is the number of requests seen so far. It answers
    503 to the requests numbered in [bad] and, to request number [n], 200
    with the one-byte body [n + 1] otherwise. *)
Definition flaky (bad : list nat) : nat -> jsString -> Reply * nat :=
  fun n _ =>
    (if existsb (Nat.eqb n) bad then reply503 else reply200 [Z.of_nat n + 1],
     S n).

(** A network that answers 503 to everything. *)
Definition always503 : nat -> jsString -> Reply * nat :=
  fun n _ => (reply503, S n).

Definition sentence : jsString :=
  lit "The quick brown fox jumps over the lazy dog. ".

(** Ten sentences, 450 code units. *)
Definition story : jsString := List.concat (repeat sentence 10).

(** The first [n] sentences, trimmed. *)
Definition paragraph (n : nat) : jsString :=
  trim (List.concat (repeat sentence n)).

Definition page : UI :=
  {| textInput_value := story; selected_data_lang := Some (lit "en-US") |}.

(** Two hundred letters, a full stop, a space and one more letter. *)
Definition longSentence : jsString := repeat 97 200 ++ lit ". b".

(** Two lines; the only white space before offset 6 is the line feed. *)
Definition twoLines : jsString := lit "aaaa" ++ [LINE_FEED] ++ lit "bbbb cccc".

Definition twoSentences : jsString := lit "Hi there. Bye now".

(** An exclamation mark and a space right after a full stop and a space. *)
Definition adjacentEnders : jsString := lit "ab. ! cdefgh".

(** A well-formed text without white space: 200 times [x], 199 times [a],
    U+1F600 (the surrogate pair D83D DE00) and 10 times [b]. The second
    forced cut of [chunkText], at 200, falls between the two halves of the
    pair. *)
Definition splitPair : jsString :=
  repeat 120 200 ++ repeat 97 199 ++ [55357; 56832] ++ repeat 98 10.

(** The chunk that ends with the first half of the pair. *)
Definition loneLead : jsString := repeat 97 199 ++ [55357].

Definition splitPage : UI :=
  {| textInput_value := splitPair; selected_data_lang := Some (lit "en-US") |}.

End Scenario.

Import Scenario.

(* ------------------------------------------------------------------ *)
(** ** The rest of the page: voices, counters, statuses *)
(* ------------------------------------------------------------------ *)

Module Page.

Import VoxFreeApp.

(** [String.prototype.includes (search)]. *)
Definition includes (s search : jsString) : bool :=
  existsb (occursAt s search) (seq 0 (S (List.length s))).

(** A voice of [speechSynthesis.getVoices ()]; [voice_ref] stands for the
    identity of the object, which [indexOf] compares. *)
Record Voice := {
  voice_ref : nat;
  voice_name : jsString;
  voice_lang : jsString;
  voice_default : bool
}.

(** An [option] element as [populateVoices] builds it in the fragment;
    [None] is an attribute that was not set. [option_selected_set] says
    that the code ran [option.selected = true] on the element. Which option
    the single-choice [select] shows as selected once the fragment is
    appended is settled by the browser (the last option so marked, or the
    first option when none is) and is not part of this record. *)
Record OptionElement := {
  option_textContent : jsString;
  option_value : option Z;
  option_selected_set : bool;
  option_data_lang : option jsString;
  option_data_name : option jsString
}.

(** [array.indexOf (voice)], from index [i] on. *)
Fixpoint indexFrom (voices : list Voice) (voice : Voice) (i : Z) : Z :=
  match voices with
  | [] => -1
  | v :: rest =>
      if Nat.eqb (voice_ref v) (voice_ref voice) then i
      else indexFrom rest voice (i + 1)
  end.

Definition indexOf (voices : list Voice) (voice : Voice) : Z :=
  indexFrom voices voice 0.

Section Voices.

(** [String.prototype.toLowerCase] and [sanitizeText] are left open. *)
Variable toLowerCase : jsString -> jsString.
Variable sanitizeText : jsString -> jsString.

(** [this.ui.voiceSearch?.value.toLowerCase().trim() || '']. *)
Definition searchTerm (voiceSearch : option jsString) : jsString :=
  match voiceSearch with
  | Some value => trim (toLowerCase value)
  | None => []
  end.

(** The test of [this.voices.filter (voice => ...)]. *)
Definition matches (term : jsString) (voice : Voice) : bool :=
  match term with
  | [] => true
  | _ => includes (toLowerCase (voice_name voice)) term
         || includes (toLowerCase (voice_lang voice)) term
  end.

(** The option made for one voice in [filteredVoices.forEach]. *)
Definition optionOf (voices : list Voice) (voice : Voice) : OptionElement :=
  let displayName :=
    sanitizeText (voice_name voice ++ lit " (" ++ voice_lang voice ++ lit ")") in
  {| option_textContent :=
       if voice_default voice then displayName ++ lit " -- DEFAULT"
       else displayName;
     option_value := Some (indexOf voices voice);
     option_selected_set := voice_default voice;
     option_data_lang := Some (voice_lang voice);
     option_data_name := Some (voice_name voice) |}.

(** The option shown when no voice is listed. *)
Definition placeholder (voices : list Voice) : OptionElement :=
  {| option_textContent :=
       match voices with
       | [] => lit "Loading voices..."
       | _ => lit "No voices match your search"
       end;
     option_value := None;
     option_selected_set := false;
     option_data_lang := None;
     option_data_name := None |}.

(** [populateVoices ()]: the options put in the voice dropdown, from the
    voices of the engine and the value of the search box. *)
Definition populateVoices (voices : list Voice) (voiceSearch : option jsString)
  : list OptionElement :=
  let term := searchTerm voiceSearch in
  let filteredVoices := filter (matches term) voices in
  map (optionOf voices) filteredVoices
  ++ match filteredVoices with
     | [] => [placeholder voices]
     | _ => []
     end.

End Voices.

(** What [updateCharCount ()] shows: the two numbers of
    [`${length} / ${maxLength} chars`] and whether the counter is red. *)
Record CharCount := {
  count_length : Z;
  count_max : Z;
  count_red : bool
}.

Definition updateCharCount (cfg : Config) (ui : UI) : CharCount :=
  let len := length (textInput_value ui) in
  let maxLength := MAX_TEXT_LENGTH cfg in
  {| count_length := len; count_max := maxLength;
     count_red := maxLength <? len |}.

(** The last status a trace leaves on the page. *)
Fixpoint lastStatus (evs : list Event) : option (Message * bool) :=
  match evs with
  | [] => None
  | e :: rest =>
      match lastStatus rest with
      | Some s => Some s
      | None =>
          match e with
          | StatusUpdate text isActive => Some (text, isActive)
          | _ => None
          end
      end
  end.

(** The progress a trace shows: the pairs [(i + 1, totalChunks)] of its
    ['Processing chunk'] statuses, in order. *)
Definition progress (evs : list Event) : list (Z * Z) :=
  flat_map (fun e => match e with
                     | StatusUpdate (ProcessingChunk number total) _ =>
                         [(number, total)]
                     | _ => []
                     end) evs.

(** Code units: the sixteen-bit range, the surrogates, and what
    [encodeURIComponent] writes. *)
Definition is16bit (c : codeUnit) : bool := (0 <=? c) && (c <? 65536).

Definition isSurrogate (c : codeUnit) : bool :=
  isLeadSurrogate c || isTrailSurrogate c.

Definition PERCENT : codeUnit := 37.

Definition isUriSafe (c : codeUnit) : bool := isUnreserved c || (c =? PERCENT).

(** The proxied URLs of a whole ladder, in the order of the proxy list,
    once per retry pass. *)
Definition ladderUrls (cfg : Config) (encoded : jsString) : list jsString :=
  List.concat (repeat (map (fun proxy => proxy ++ encoded) (PROXY_URLS cfg))
                      (Z.to_nat (RETRY_ATTEMPTS cfg))).

(** A voice list of three, and lower-casing of ASCII letters. *)
Definition asciiLower (s : jsString) : jsString :=
  map (fun c => if (65 <=? c) && (c <=? 90) then c + 32 else c) s.

Definition threeVoices : list Voice :=
  [ {| voice_ref := 0; voice_name := lit "Alice"; voice_lang := lit "en-US";
       voice_default := true |};
    {| voice_ref := 1; voice_name := lit "Amelie"; voice_lang := lit "fr-CA";
       voice_default := false |};
    {| voice_ref := 2; voice_name := lit "Anna"; voice_lang := lit "de-DE";
       voice_default := false |} ].

End Page.

Import Page.

(** Case analysis on the integer tests of a goal, innermost tests first. *)
Ltac no_test t :=
  lazymatch t with
  | context [if _ then _ else _] => fail
  | _ => idtac
  end.

Ltac case_eqb :=
  match goal with
  | |- context [?a =? ?b] =>
      no_test a; no_test b;
      destruct (Z.eqb_spec a b); cbn [orb andb negb]; cbv iota
  | |- context [?a <? ?b] =>
      no_test a; no_test b;
      destruct (Z.ltb_spec a b); cbn [orb andb negb]; cbv iota
  | |- context [?a <=? ?b] =>
      no_test a; no_test b;
      destruct (Z.leb_spec a b); cbn [orb andb negb]; cbv iota
  end.

(** Settle every integer test of the goal that the context decides. *)
Ltac settle_tests :=
  repeat match goal with
    | |- context [?a <=? ?b] =>
        first [ rewrite (proj2 (Z.leb_le a b)) by lia
              | rewrite (proj2 (Z.leb_gt a b)) by lia ]
    | |- context [?a <? ?b] =>
        first [ rewrite (proj2 (Z.ltb_lt a b)) by lia
              | rewrite (proj2 (Z.ltb_ge a b)) by lia ]
    | |- context [?a =? ?b] =>
        first [ rewrite (proj2 (Z.eqb_eq a b)) by lia
              | rewrite (proj2 (Z.eqb_neq a b)) by lia ]
    end.

(* ------------------------------------------------------------------ *)
(** ** Facts about the string primitives *)
(* ------------------------------------------------------------------ *)

Section StringFacts.

Lemma length_nonneg (s : jsString) : 0 <= length s.
Proof. unfold length. lia. Qed.

Lemma strictEq_true (a b : jsString) : strictEq a b = true <-> a = b.
Proof.
  revert b. induction a as [|x a IH]; intros [|y b]; simpl;
    try (split; [discriminate | discriminate]); try tauto.
  rewrite andb_true_iff, Z.eqb_eq, IH. split.
  - intros [-> ->]. reflexivity.
  - intros H. inversion H. auto.
Qed.

Lemma trimStart_split (s : jsString) :
  exists w, blank w /\ s = w ++ trimStart s.
Proof.
  induction s as [|c r IH]; simpl.
  - exists []. split; [constructor | reflexivity].
  - destruct (isWhiteSpace c) eqn:Hc.
    + destruct IH as (w & Hw & Hr). exists (c :: w). split.
      * constructor; assumption.
      * simpl. congruence.
    + exists []. split; [constructor | reflexivity].
Qed.

Lemma trimEnd_split (s : jsString) :
  exists w, blank w /\ s = trimEnd s ++ w.
Proof.
  induction s as [|c r IH]; simpl.
  - exists []. split; [constructor | reflexivity].
  - destruct IH as (w & Hw & Hr).
    destruct (trimEnd r) as [|z r'] eqn:Hr'.
    + simpl in Hr. subst w. destruct (isWhiteSpace c) eqn:Hc.
      * exists (c :: r). split; [constructor; assumption | reflexivity].
      * exists r. split; [assumption | reflexivity].
    + exists w. split; [assumption|]. simpl. simpl in Hr. congruence.
Qed.

Lemma trimStart_length (s : jsString) :
  (List.length (trimStart s) <= List.length s)%nat.
Proof.
  destruct (trimStart_split s) as (w & _ & H).
  rewrite H at 2. rewrite length_app. lia.
Qed.

Lemma trimEnd_length (s : jsString) :
  (List.length (trimEnd s) <= List.length s)%nat.
Proof.
  destruct (trimEnd_split s) as (w & _ & H).
  rewrite H at 2. rewrite length_app. lia.
Qed.

Lemma trim_length (s : jsString) :
  (List.length (trim s) <= List.length s)%nat.
Proof.
  unfold trim. pose proof (trimEnd_length (trimStart s)).
  pose proof (trimStart_length s). lia.
Qed.

Lemma headOk_trimStart (s : jsString) : headOk (trimStart s).
Proof.
  induction s as [|c r IH]; simpl; [exact I|].
  destruct (isWhiteSpace c) eqn:Hc; [assumption | simpl; assumption].
Qed.

Lemma trimStart_fixed (s : jsString) : headOk s -> trimStart s = s.
Proof. destruct s as [|c r]; simpl; [reflexivity|]. intros ->. reflexivity. Qed.

Lemma fixed_headOk (s : jsString) : trimStart s = s -> headOk s.
Proof. intros <-. apply headOk_trimStart. Qed.

Lemma headOk_trimEnd (s : jsString) : headOk s -> headOk (trimEnd s).
Proof.
  destruct s as [|c r]; simpl; [trivial|]. intros Hc.
  destruct (trimEnd r); [rewrite Hc|]; simpl; assumption.
Qed.

Lemma trimEnd_nonempty (c : codeUnit) (r : jsString) :
  isWhiteSpace c = false -> trimEnd (c :: r) <> [].
Proof.
  simpl. intros Hc. destruct (trimEnd r); [rewrite Hc|]; discriminate.
Qed.

Lemma trimEnd_idem (s : jsString) : trimEnd (trimEnd s) = trimEnd s.
Proof.
  induction s as [|c r IH]; simpl; [reflexivity|].
  destruct (trimEnd r) as [|z r'] eqn:Hr.
  - destruct (isWhiteSpace c) eqn:Hc; simpl; [reflexivity|].
    rewrite Hc. reflexivity.
  - change (trimEnd (c :: z :: r')) with
      (match trimEnd (z :: r') with
       | [] => if isWhiteSpace c then [] else [c]
       | r'' => c :: r''
       end).
    rewrite IH. reflexivity.
Qed.

Lemma trimEnd_blank (w : jsString) : blank w -> trimEnd w = [].
Proof.
  induction 1 as [|c r Hc _ IH]; simpl; [reflexivity|].
  rewrite IH, Hc. reflexivity.
Qed.

Lemma trimEnd_app (a b : jsString) :
  trimEnd (a ++ b) =
  match trimEnd b with
  | [] => trimEnd a
  | _ => a ++ trimEnd b
  end.
Proof.
  induction a as [|c a IH]; simpl.
  - destruct (trimEnd b); reflexivity.
  - rewrite IH. destruct (trimEnd b) as [|z b'] eqn:Hb; [reflexivity|].
    destruct (a ++ z :: b') eqn:Hab; [|reflexivity].
    destruct a; discriminate.
Qed.

(** A non-empty suffix of a string without trailing white space has none
    either. *)
Lemma trimEnd_suffix (a b : jsString) :
  trimEnd (a ++ b) = a ++ b -> b <> [] -> trimEnd b = b.
Proof.
  intros H Hb. rewrite trimEnd_app in H.
  destruct (trimEnd b) as [|z b'] eqn:Hz.
  - exfalso. pose proof (trimEnd_length a) as Hl.
    rewrite H, length_app in Hl. destruct b; [congruence | simpl in Hl; lia].
  - apply app_inv_head in H. assumption.
Qed.

Lemma trim_Trimmed (s : jsString) : Trimmed (trim s).
Proof.
  unfold Trimmed, trim. split.
  - apply trimStart_fixed, headOk_trimEnd, headOk_trimStart.
  - apply trimEnd_idem.
Qed.

Lemma Trimmed_trim (s : jsString) : Trimmed s -> trim s = s.
Proof. intros [H1 H2]. unfold trim. rewrite H1. exact H2. Qed.

Lemma clamp_0 (x len : Z) : 0 <= x -> 0 <= len -> clamp x 0 len = Z.min x len.
Proof. intros. unfold clamp. lia. Qed.

Lemma substring_prefix (s : jsString) (cut : Z) :
  0 <= cut ->
  substring s 0 cut = firstn (Z.to_nat (Z.min cut (length s))) s.
Proof.
  intros Hc. unfold substring. pose proof (length_nonneg s).
  rewrite !clamp_0 by lia.
  replace (Z.min (Z.min 0 (length s)) (Z.min cut (length s))) with 0 by lia.
  replace (Z.max (Z.min 0 (length s)) (Z.min cut (length s)) - 0)
    with (Z.min cut (length s)) by lia.
  reflexivity.
Qed.

Lemma substringFrom_suffix (s : jsString) (cut : Z) :
  0 <= cut ->
  substringFrom s cut = skipn (Z.to_nat (Z.min cut (length s))) s.
Proof.
  intros Hc. unfold substringFrom, substring. pose proof (length_nonneg s).
  rewrite !clamp_0 by lia.
  replace (Z.min (Z.min cut (length s)) (Z.min (length s) (length s)))
    with (Z.min cut (length s)) by lia.
  replace (Z.max (Z.min cut (length s)) (Z.min (length s) (length s)))
    with (length s) by lia.
  apply firstn_all2. rewrite length_skipn. unfold length. lia.
Qed.

(** Cutting at a non-negative index loses nothing. *)
Lemma substring_split (s : jsString) (cut : Z) :
  0 <= cut -> substring s 0 cut ++ substringFrom s cut = s.
Proof.
  intros Hc. rewrite substring_prefix, substringFrom_suffix by assumption.
  apply firstn_skipn.
Qed.

Lemma occursAt_pair (s : jsString) (a b : codeUnit) (i : nat) :
  occursAt s [a; b] i = true <->
  nth_error s i = Some a /\ nth_error s (S i) = Some b.
Proof.
  unfold occursAt. rewrite strictEq_true. simpl List.length.
  revert s. induction i as [|i IH]; intros s.
  - destruct s as [|x [|y s]]; simpl; split;
      try (intros [H1 H2]; congruence); try discriminate; try congruence.
    intros H; inversion H; auto.
  - destruct s as [|x s]; [simpl; split; [discriminate | intros [H _]; discriminate]|].
    rewrite skipn_cons. simpl nth_error. apply IH.
Qed.

Lemma occursAt_single (s : jsString) (a : codeUnit) (i : nat) :
  occursAt s [a] i = true <-> nth_error s i = Some a.
Proof.
  unfold occursAt. rewrite strictEq_true. simpl List.length.
  revert s. induction i as [|i IH]; intros s.
  - destruct s as [|x s]; simpl; split; try discriminate; congruence.
  - destruct s as [|x s]; [simpl; split; discriminate|].
    rewrite skipn_cons. simpl nth_error. apply IH.
Qed.

Lemma occursAt_inside (s search : jsString) (i : nat) :
  search <> [] -> occursAt s search i = true -> (i < List.length s)%nat.
Proof.
  intros Hne H. unfold occursAt in H. rewrite strictEq_true in H.
  destruct (Nat.lt_ge_cases i (List.length s)) as [|Hge]; [assumption|].
  rewrite skipn_all2 in H by assumption. rewrite firstn_nil in H. congruence.
Qed.

Lemma lastIndexUpTo_found (s search : jsString) (i : nat) :
  lastIndexUpTo s search i = -1 \/
  (0 <= lastIndexUpTo s search i <= Z.of_nat i /\
   occursAt s search (Z.to_nat (lastIndexUpTo s search i)) = true).
Proof.
  induction i as [|i IH]; cbn [lastIndexUpTo].
  - destruct (occursAt s search 0) eqn:H; [right | left; reflexivity].
    split; [lia | assumption].
  - destruct (occursAt s search (S i)) eqn:H.
    + right. split; [lia|]. rewrite Nat2Z.id. assumption.
    + destruct IH as [IH | [IH1 IH2]]; [left; assumption | right].
      split; [lia | assumption].
Qed.

Lemma lastIndexUpTo_last (s search : jsString) (i j : nat) :
  (j <= i)%nat -> occursAt s search j = true ->
  Z.of_nat j <= lastIndexUpTo s search i.
Proof.
  induction i as [|i IH]; intros Hj H; cbn [lastIndexUpTo].
  - assert (j = 0%nat) by lia. subst j. rewrite H. lia.
  - destruct (occursAt s search (S i)) eqn:Hi; [lia|].
    apply IH; [|assumption].
    destruct (Nat.eq_dec j (S i)); [subst; congruence | lia].
Qed.

(** [lastIndexOf] returns [-1] or the index of an occurrence that is not
    after [position]. *)
Lemma lastIndexOf_found (s search : jsString) (position : Z) :
  0 <= position ->
  lastIndexOf s search position = -1 \/
  (0 <= lastIndexOf s search position <= position /\
   occursAt s search (Z.to_nat (lastIndexOf s search position)) = true).
Proof.
  intros Hp. unfold lastIndexOf. pose proof (length_nonneg s).
  destruct (lastIndexUpTo_found s search
              (Z.to_nat (Z.min (Z.max position 0) (length s))))
    as [H1 | [H1 H2]]; [left; assumption | right].
  split; [lia | assumption].
Qed.

(** No occurrence at or before [position] comes after that index. *)
Lemma lastIndexOf_last (s search : jsString) (position : Z) (j : nat) :
  search <> [] -> Z.of_nat j <= position ->
  occursAt s search j = true ->
  Z.of_nat j <= lastIndexOf s search position.
Proof.
  intros Hne Hj H. unfold lastIndexOf.
  apply lastIndexUpTo_last; [|assumption].
  pose proof (occursAt_inside s search j Hne H). unfold length. lia.
Qed.

Lemma lastIndexOf_lower (s search : jsString) (position : Z) :
  -1 <= lastIndexOf s search position.
Proof.
  unfold lastIndexOf.
  destruct (lastIndexUpTo_found s search
              (Z.to_nat (Z.min (Z.max position 0) (length s))))
    as [H1 | [H1 H2]]; lia.
Qed.

End StringFacts.

(* ------------------------------------------------------------------ *)
(** ** Facts about the chunking engine *)
(* ------------------------------------------------------------------ *)

Section ChunkerFacts.

Lemma ender_length (e : jsString) : In e sentenceEnders -> length e = 2.
Proof.
  unfold sentenceEnders. simpl.
  intros [<-|[<-|[<-|[<-|[<-|[<-|[]]]]]]]; reflexivity.
Qed.

(** An ender is a mark followed by a space or a line feed. *)
Lemma ender_shape (e : jsString) :
  In e sentenceEnders ->
  exists mark gap, e = [mark; gap] /\ isWhiteSpace mark = false /\
                   isWhiteSpace gap = true.
Proof.
  unfold sentenceEnders. simpl.
  intros [<-|[<-|[<-|[<-|[<-|[<-|[]]]]]]];
    eexists; eexists; (split; [reflexivity | split; reflexivity]).
Qed.

(** The loop over the enders only moves [cutIndex] forward, ends at or
    after every index it found, and ends just after one of them unless it
    changed nothing. *)
Lemma fold_enderStep (remaining : jsString) (maxSize : Z)
      (enders : list jsString) (c0 : Z) :
  (forall e, In e enders -> 0 <= length e) ->
  let final := fold_left (enderStep remaining maxSize) enders c0 in
  c0 <= final /\
  (forall e, In e enders -> lastIndexOf remaining e maxSize <= final) /\
  (final = c0 \/
   exists e, In e enders /\ c0 < lastIndexOf remaining e maxSize /\
             final = lastIndexOf remaining e maxSize + length e).
Proof.
  revert c0. induction enders as [|e l IH]; intros c0 Hlen; simpl.
  - split; [lia|]. split; [intros e []|]. left. reflexivity.
  - assert (Hl : forall e', In e' l -> 0 <= length e')
      by (intros; apply Hlen; right; assumption).
    assert (He : 0 <= length e) by (apply Hlen; left; reflexivity).
    destruct (IH (enderStep remaining maxSize c0 e) Hl) as (H1 & H2 & H3).
    assert (Hstep : c0 <= enderStep remaining maxSize c0 e /\
                    lastIndexOf remaining e maxSize
                    <= enderStep remaining maxSize c0 e /\
                    (enderStep remaining maxSize c0 e = c0 \/
                     (c0 < lastIndexOf remaining e maxSize /\
                      enderStep remaining maxSize c0 e
                      = lastIndexOf remaining e maxSize + length e))).
    { unfold enderStep.
      destruct (Z.ltb_spec c0 (lastIndexOf remaining e maxSize)); lia. }
    destruct Hstep as (S1 & S2 & S3).
    split; [lia|]. split.
    + intros e' [<-|Hin]; [lia | apply H2; assumption].
    + destruct H3 as [H3 | (e' & Hin & Hlt & Heq)].
      * destruct S3 as [S3 | [S3 S4]].
        -- left. congruence.
        -- right. exists e. split; [left; reflexivity|].
           split; [assumption | congruence].
      * right. exists e'. split; [right; assumption|].
        split; [lia | assumption].
Qed.

Lemma sentenceCut_cases (remaining : jsString) (maxSize : Z) :
  sentenceCut remaining maxSize = -1 \/
  exists e, In e sentenceEnders /\
            0 <= lastIndexOf remaining e maxSize /\
            sentenceCut remaining maxSize
            = lastIndexOf remaining e maxSize + 2.
Proof.
  destruct (fold_enderStep remaining maxSize sentenceEnders (-1))
    as (_ & _ & [H | (e & Hin & Hlt & Heq)]).
  - intros e He. rewrite (ender_length e He). lia.
  - left. exact H.
  - right. exists e. split; [assumption|]. split; [lia|].
    rewrite <- (ender_length e Hin). exact Heq.
Qed.

Lemma sentenceCut_upper (remaining : jsString) (maxSize : Z) (e : jsString) :
  In e sentenceEnders ->
  lastIndexOf remaining e maxSize <= sentenceCut remaining maxSize.
Proof.
  destruct (fold_enderStep remaining maxSize sentenceEnders (-1))
    as (_ & H & _).
  - intros e' He. rewrite (ender_length e' He). lia.
  - apply H.
Qed.

(** With a positive bound the cut is never at the start. *)
Lemma cutIndexOf_positive (remaining : jsString) (maxSize : Z) :
  1 <= maxSize -> 1 <= cutIndexOf remaining maxSize.
Proof.
  intros Hm. unfold cutIndexOf, boundaryCut.
  pose proof (lastIndexOf_lower remaining [SPACE] maxSize).
  destruct (sentenceCut_cases remaining maxSize) as [H0 | (e & _ & H0 & H1)];
    repeat case_eqb; lia.
Qed.

(** The shape of a pass that goes on. *)
Lemma iteration_continue (remaining : jsString) (maxSize : Z)
      (chunk remaining' : jsString) :
  iteration remaining maxSize = PushContinue chunk remaining' ->
  remaining <> [] /\ maxSize < length remaining /\
  chunk = trim (substring remaining 0 (cutIndexOf remaining maxSize)) /\
  remaining' = trim (substringFrom remaining (cutIndexOf remaining maxSize)).
Proof.
  unfold iteration.
  destruct (Z.ltb_spec 0 (length remaining)) as [Hpos|]; simpl;
    [|discriminate].
  destruct (Z.leb_spec (length remaining) maxSize) as [|Hgt]; [discriminate|].
  intros H. inversion H. repeat split; try lia.
  intros ->. unfold length in Hpos. simpl in Hpos. lia.
Qed.

(** Every pass that goes on removes at least one code unit. *)
Lemma iteration_shrinks (remaining : jsString) (maxSize : Z)
      (chunk remaining' : jsString) :
  1 <= maxSize ->
  iteration remaining maxSize = PushContinue chunk remaining' ->
  (List.length remaining' < List.length remaining)%nat.
Proof.
  intros Hm H. apply iteration_continue in H.
  destruct H as (Hne & Hlen & _ & ->).
  pose proof (cutIndexOf_positive remaining maxSize Hm) as Hcut.
  rewrite substringFrom_suffix by lia.
  pose proof (trim_length
                (skipn (Z.to_nat (Z.min (cutIndexOf remaining maxSize)
                                        (length remaining))) remaining)) as Ht.
  rewrite length_skipn in Ht. unfold length in *. lia.
Qed.

(** A pass that goes on splits a trimmed remainder into the chunk, a gap of
    white space, and the trimmed new remainder. *)
Lemma iteration_splits (remaining : jsString) (maxSize : Z)
      (chunk remaining' : jsString) :
  1 <= maxSize -> Trimmed remaining ->
  iteration remaining maxSize = PushContinue chunk remaining' ->
  exists gap,
    blank gap /\ remaining = chunk ++ gap ++ remaining' /\
    Trimmed remaining' /\ Trimmed chunk /\ chunk <> [] /\
    (remaining' = [] -> gap = []).
Proof.
  intros Hm [Hs He] H. apply iteration_continue in H.
  destruct H as (Hne & Hlen & Hc & Hr).
  pose proof (cutIndexOf_positive remaining maxSize Hm) as Hcut.
  set (cut := cutIndexOf remaining maxSize) in *.
  pose proof (substring_split remaining cut ltac:(lia)) as Hsplit.
  remember (substring remaining 0 cut) as a eqn:Da.
  remember (substringFrom remaining cut) as b eqn:Db.
  assert (Ha : a <> []).
  { rewrite Da. rewrite substring_prefix by lia.
    destruct remaining as [|c r]; [congruence|].
    unfold length. simpl List.length.
    destruct (Z.to_nat (Z.min cut (Z.of_nat (S (List.length r))))) eqn:E;
      [lia | simpl; discriminate]. }
  assert (Hha : headOk a).
  { apply fixed_headOk in Hs. destruct a as [|x a']; [congruence|].
    rewrite <- Hsplit in Hs. simpl in Hs. exact Hs. }
  assert (Hchunk : chunk = trimEnd a).
  { rewrite Hc. unfold trim. rewrite (trimStart_fixed a Hha). reflexivity. }
  destruct (trimEnd_split a) as (w1 & Hw1 & Ea).
  destruct (trimStart_split b) as (w2 & Hw2 & Eb).
  assert (Hb' : trimEnd (trimStart b) = trimStart b).
  { destruct (trimStart b) as [|y b'] eqn:Etb; [reflexivity|].
    apply (trimEnd_suffix (a ++ w2) (y :: b')); [|discriminate].
    rewrite <- app_assoc, <- Eb, Hsplit. exact He. }
  assert (Hr' : remaining' = trimStart b).
  { rewrite Hr. unfold trim. exact Hb'. }
  exists (w1 ++ w2). split; [apply Forall_app; split; assumption|].
  split.
  { rewrite Hchunk, Hr', <- !app_assoc.
    rewrite (app_assoc (trimEnd a) w1), <- Ea.
    rewrite <- Eb. symmetry. exact Hsplit. }
  split; [rewrite Hr; apply trim_Trimmed|].
  split; [rewrite Hc; apply trim_Trimmed|].
  split.
  { rewrite Hchunk. destruct a as [|x a']; [congruence|].
    apply trimEnd_nonempty. exact Hha. }
  intros Hnil. rewrite Hr' in Hnil. rewrite Hnil, app_nil_r in Eb.
  assert (Hw2nil : w2 = []).
  { destruct w2 as [|y w2']; [reflexivity|]. exfalso.
    assert (Hfix : trimEnd (y :: w2') = y :: w2').
    { apply (trimEnd_suffix a); [|discriminate].
      rewrite <- Eb, Hsplit. exact He. }
    rewrite (trimEnd_blank _ Hw2) in Hfix. discriminate. }
  rewrite Hw2nil in Eb |- *. simpl in Eb.
  rewrite Eb, app_nil_r in Hsplit.
  rewrite app_nil_r.
  assert (Hfix : trimEnd a = a) by (rewrite Hsplit; exact He).
  rewrite Hfix in Ea.
  rewrite <- (app_nil_r a) in Ea at 1. apply app_inv_head in Ea. congruence.
Qed.

(** The chunks already pushed are only carried along. *)
Lemma chunkLoop_accumulates (fuel : nat) (maxSize : Z)
      (chunks : list jsString) (remaining : jsString) :
  chunkLoop fuel maxSize chunks remaining =
  option_map (app chunks) (chunkLoop fuel maxSize [] remaining).
Proof.
  revert chunks remaining. induction fuel as [|fuel IH]; intros chunks r;
    simpl; [reflexivity|].
  destruct (iteration r maxSize) as [|chunk|chunk r'].
  - simpl. rewrite app_nil_r. reflexivity.
  - reflexivity.
  - rewrite IH. rewrite (IH [chunk]).
    destruct (chunkLoop fuel maxSize [] r'); simpl; [|reflexivity].
    rewrite <- app_assoc. reflexivity.
Qed.

(** The loop ends within as many passes as the remainder has code units,
    plus one. *)
Lemma chunkLoop_terminates (fuel : nat) (maxSize : Z)
      (chunks : list jsString) (remaining : jsString) :
  1 <= maxSize -> (List.length remaining < fuel)%nat ->
  exists result, chunkLoop fuel maxSize chunks remaining = Some result.
Proof.
  intros Hm. revert chunks remaining.
  induction fuel as [|fuel IH]; intros chunks r Hf; [lia|]. simpl.
  destruct (iteration r maxSize) as [|chunk|chunk r'] eqn:Hit.
  - eexists. reflexivity.
  - eexists. reflexivity.
  - apply IH. pose proof (iteration_shrinks r maxSize chunk r' Hm Hit). lia.
Qed.

(** More fuel does not change a result. *)
Lemma chunkLoop_more_fuel (fuel fuel' : nat) (maxSize : Z)
      (chunks : list jsString) (remaining : jsString)
      (result : list jsString) :
  (fuel <= fuel')%nat ->
  chunkLoop fuel maxSize chunks remaining = Some result ->
  chunkLoop fuel' maxSize chunks remaining = Some result.
Proof.
  revert fuel' chunks remaining.
  induction fuel as [|fuel IH]; intros fuel' chunks r Hle; [discriminate|].
  destruct fuel' as [|fuel']; [lia|]. simpl.
  destruct (iteration r maxSize); try trivial.
  apply IH. lia.
Qed.

(** What the loop returns from a trimmed remainder: chunks that weave back
    into it, each of them trimmed and not empty. *)
Lemma chunkLoop_weaves (fuel : nat) (maxSize : Z) (remaining : jsString)
      (result : list jsString) :
  1 <= maxSize -> Trimmed remaining ->
  chunkLoop fuel maxSize [] remaining = Some result ->
  (exists gaps,
      List.length gaps = pred (List.length result) /\
      Forall blank gaps /\ weave result gaps = remaining) /\
  Forall (fun chunk => Trimmed chunk /\ chunk <> []) result.
Proof.
  intros Hm. revert remaining result.
  induction fuel as [|fuel IH]; intros r result Ht; [discriminate|]. simpl.
  destruct (iteration r maxSize) as [|chunk|chunk r'] eqn:Hit.
  - intros H. inversion H. subst result. unfold iteration in Hit.
    destruct (Z.ltb_spec 0 (length r)); simpl in Hit.
    + destruct (length r <=? maxSize); discriminate.
    + destruct r; [|unfold length in *; simpl in *; lia].
      split; [|constructor]. exists []. repeat split. constructor.
  - intros H. inversion H. subst result. unfold iteration in Hit.
    destruct (Z.ltb_spec 0 (length r)) as [Hpos|]; simpl in Hit;
      [|discriminate].
    destruct (length r <=? maxSize); [|discriminate].
    inversion Hit. subst chunk. split.
    + exists []. repeat split; [constructor|]. simpl. apply app_nil_r.
    + constructor; [|constructor]. split; [assumption|].
      intros ->. unfold length in Hpos. simpl in Hpos. lia.
  - rewrite chunkLoop_accumulates.
    destruct (chunkLoop fuel maxSize [] r') as [rest|] eqn:Hrest;
      [|discriminate].
    simpl. intros H. inversion H. subst result. clear H.
    destruct (iteration_splits r maxSize chunk r' Hm Ht Hit)
      as (gap & Hgap & Hr & Ht' & Htc & Hne & Hlast).
    destruct (IH r' rest Ht' Hrest) as ((gaps & Hlen & Hblank & Hw) & Hall).
    split; [|constructor; [split; assumption | assumption]].
    destruct rest as [|c2 rest'].
    + exists []. repeat split; [constructor|]. simpl in *.
      subst r'. rewrite (Hlast eq_refl) in Hr. rewrite Hr.
      rewrite !app_nil_r. reflexivity.
    + exists (gap :: gaps). split; [simpl in *; lia|].
      split; [constructor; assumption|].
      change (weave (chunk :: c2 :: rest') (gap :: gaps))
        with (chunk ++ gap ++ weave (c2 :: rest') gaps).
      rewrite Hw. symmetry. exact Hr.
Qed.

End ChunkerFacts.

(* ------------------------------------------------------------------ *)
(** ** Properties of [chunkText] *)
(* ------------------------------------------------------------------ *)

Section ChunkerProperties.

Lemma chunkText_weaves (fuel : nat) (text : jsString) (maxSize : Z)
      (chunks : list jsString) :
  1 <= maxSize -> chunkText fuel text maxSize = Some chunks ->
  (exists gaps,
      List.length gaps = pred (List.length chunks) /\
      Forall blank gaps /\ weave chunks gaps = trim text) /\
  Forall (fun chunk => Trimmed chunk /\ chunk <> []) chunks.
Proof.
  intros Hm H. apply (chunkLoop_weaves fuel maxSize); try assumption.
  apply trim_Trimmed.
Qed.

Lemma chunkText_total (fuel : nat) (text : jsString) (maxSize : Z) :
  1 <= maxSize -> (List.length text < fuel)%nat ->
  exists chunks, chunkText fuel text maxSize = Some chunks.
Proof.
  intros Hm Hf. apply chunkLoop_terminates; [assumption|].
  pose proof (trim_length text). lia.
Qed.

(** C1. For every text and every bound N > 0 the chunks of
    [chunkText (T, N)], taken in order with a gap of white space between
    neighbours, are exactly the trimmed text: nothing but white space at a
    chunk boundary is dropped, and nothing is duplicated or reordered. *)
Theorem chunkText_reassembles (text : jsString) (maxSize : Z) (fuel : nat) :
  0 < maxSize -> (List.length text < fuel)%nat ->
  exists chunks gaps,
    chunkText fuel text maxSize = Some chunks /\
    List.length gaps = pred (List.length chunks) /\
    Forall blank gaps /\
    weave chunks gaps = trim text.
Proof.
  intros Hm Hf.
  destruct (chunkText_total fuel text maxSize ltac:(lia) Hf) as (chunks & H).
  destruct (chunkText_weaves fuel text maxSize chunks ltac:(lia) H)
    as ((gaps & H1 & H2 & H3) & _).
  exists chunks, gaps. auto.
Qed.

(** C9. For every text and every bound of at least one, each pass of the
    loop ends it (on an empty remainder, or by pushing the whole
    remainder) or leaves a strictly shorter remainder; hence [chunkText]
    returns, within one pass more than the text has code units, and the
    list it returns does not depend on the bound given to the model. *)
Theorem chunkText_terminates (text : jsString) (maxSize : Z) :
  1 <= maxSize ->
  (forall remaining,
      match iteration remaining maxSize with
      | Exit => remaining = []
      | PushBreak chunk => chunk = remaining
      | PushContinue _ remaining' =>
          (List.length remaining' < List.length remaining)%nat
      end) /\
  exists chunks,
    forall fuel, (List.length text < fuel)%nat ->
                 chunkText fuel text maxSize = Some chunks.
Proof.
  intros Hm. split.
  - intros r. destruct (iteration r maxSize) as [|chunk|chunk r'] eqn:Hit.
    + unfold iteration in Hit.
      destruct (Z.ltb_spec 0 (length r)); simpl in Hit.
      * destruct (length r <=? maxSize); discriminate.
      * destruct r; [reflexivity | unfold length in *; simpl in *; lia].
    + unfold iteration in Hit.
      destruct (0 <? length r); simpl in Hit; [|discriminate].
      destruct (length r <=? maxSize); [|discriminate].
      inversion Hit. reflexivity.
    + apply (iteration_shrinks r maxSize chunk r' Hm Hit).
  - destruct (chunkText_total (S (List.length text)) text maxSize Hm
                              ltac:(lia)) as (chunks & H).
    exists chunks. intros fuel Hf.
    apply (chunkLoop_more_fuel (S (List.length text))); [lia | exact H].
Qed.

(** C3 (evaluation at the failing input). With the bound of the
    application, 200, the sentence ender that starts at index 200 is
    taken, and the first chunk has 201 code units. *)
Theorem chunkText_exceeds_bound :
  chunkText 204 longSentence (VoxFreeApp.CHUNK_SIZE VoxFreeApp.CONFIG)
  = Some [repeat 97 200 ++ [FULL_STOP]; lit "b"] /\
  length (repeat 97 200 ++ [FULL_STOP]) = 201.
Proof. split; vm_compute; reflexivity. Qed.

Lemma enderAt_chars (remaining : jsString) (i : Z) :
  enderAt remaining i ->
  exists mark gap,
    nth_error remaining (Z.to_nat i) = Some mark /\
    nth_error remaining (S (Z.to_nat i)) = Some gap /\
    isWhiteSpace mark = false /\ isWhiteSpace gap = true.
Proof.
  intros (_ & e & Hin & Hocc).
  destruct (ender_shape e Hin) as (mark & gap & -> & Hm & Hg).
  apply occursAt_pair in Hocc. destruct Hocc as [H1 H2].
  exists mark, gap. auto.
Qed.

(** No ender starts right after the start of another. *)
Lemma enderAt_not_adjacent (remaining : jsString) (i : Z) :
  enderAt remaining i -> enderAt remaining (i + 1) -> False.
Proof.
  intros Hi Hj. pose proof Hi as (Hpos & _).
  destruct (enderAt_chars _ _ Hi) as (m1 & g1 & _ & Hg & _ & Hw).
  destruct (enderAt_chars _ _ Hj) as (m2 & g2 & Hm & _ & Hn & _).
  replace (Z.to_nat (i + 1)) with (S (Z.to_nat i)) in Hm by lia.
  congruence.
Qed.

Lemma sentenceCut_none (remaining : jsString) (maxSize : Z) :
  0 <= maxSize ->
  (forall j, j <= maxSize -> ~ enderAt remaining j) ->
  sentenceCut remaining maxSize = -1.
Proof.
  intros Hm Hnone.
  destruct (sentenceCut_cases remaining maxSize) as [H | (e & Hin & H0 & _)];
    [assumption | exfalso].
  destruct (lastIndexOf_found remaining e maxSize Hm) as [H | [H1 H2]];
    [lia|].
  apply (Hnone (lastIndexOf remaining e maxSize)); [lia|].
  split; [lia|]. exists e. auto.
Qed.

Lemma sentenceCut_some (remaining : jsString) (maxSize : Z) (m : Z) :
  0 <= maxSize -> enderAt remaining m -> m <= maxSize ->
  m <= sentenceCut remaining maxSize /\
  exists i, enderAt remaining i /\ i <= maxSize /\
            sentenceCut remaining maxSize = i + 2.
Proof.
  intros Hm (Hpos & e & Hin & Hocc) Hle.
  assert (Hge : m <= sentenceCut remaining maxSize).
  { pose proof (sentenceCut_upper remaining maxSize e Hin).
    assert (Z.of_nat (Z.to_nat m) <= lastIndexOf remaining e maxSize).
    { apply lastIndexOf_last; [|lia|assumption].
      destruct (ender_shape e Hin) as (? & ? & -> & _). discriminate. }
    lia. }
  split; [assumption|].
  destruct (sentenceCut_cases remaining maxSize)
    as [H | (e' & Hin' & H0 & Heq)]; [lia|].
  destruct (lastIndexOf_found remaining e' maxSize Hm) as [H | [H1 H2]];
    [lia|].
  exists (lastIndexOf remaining e' maxSize).
  split; [|split; [lia | assumption]].
  split; [lia|]. exists e'. auto.
Qed.

Lemma cutIndexOf_sentence (remaining : jsString) (maxSize : Z) :
  2 <= sentenceCut remaining maxSize ->
  cutIndexOf remaining maxSize = sentenceCut remaining maxSize.
Proof.
  intros H. unfold cutIndexOf, boundaryCut. repeat case_eqb; lia.
Qed.

Lemma cutIndexOf_fallback (remaining : jsString) (maxSize : Z) :
  sentenceCut remaining maxSize = -1 ->
  cutIndexOf remaining maxSize =
  if (lastIndexOf remaining [SPACE] maxSize =? -1)
     || (lastIndexOf remaining [SPACE] maxSize =? 0)
  then maxSize else lastIndexOf remaining [SPACE] maxSize.
Proof.
  intros H. unfold cutIndexOf, boundaryCut. rewrite H. reflexivity.
Qed.

(** The cut of a pass that goes on, with the window the code uses: the
    indices up to [maxSize], that one included. *)
Lemma cutIndexOf_rule (remaining : jsString) (maxSize : Z) :
  0 <= maxSize -> maxSize < length remaining ->
  let cut := cutIndexOf remaining maxSize in
  iteration remaining maxSize
  = PushContinue (trim (substring remaining 0 cut))
                 (trim (substringFrom remaining cut)) /\
  ((exists m, enderAt remaining m /\ m <= maxSize) ->
   exists i, enderAt remaining i /\ i <= maxSize /\ cut = i + 2) /\
  (forall m,
      enderAt remaining m -> m <= maxSize ->
      (forall j, enderAt remaining j -> j <= maxSize -> j <= m) ->
      ~ enderAt remaining (m - 2) ->
      cut = m + 2) /\
  ((forall j, j <= maxSize -> ~ enderAt remaining j) ->
   (forall i,
       0 < i <= maxSize -> spaceAt remaining i ->
       (forall j, i < j <= maxSize -> ~ spaceAt remaining j) ->
       cut = i) /\
   ((forall j, 0 < j <= maxSize -> ~ spaceAt remaining j) ->
    cut = maxSize)).
Proof.
  intros Hm Hlen cut.
  assert (Hsome : forall m, enderAt remaining m -> m <= maxSize ->
                            m <= cut /\
                            exists i, enderAt remaining i /\ i <= maxSize /\
                                      cut = i + 2).
  { intros m Hend Hle.
    destruct (sentenceCut_some remaining maxSize m Hm Hend Hle)
      as (Hge & i & Hi & Hile & Heq).
    pose proof Hi as (Hipos & _).
    unfold cut. rewrite cutIndexOf_sentence by lia.
    split; [assumption|]. exists i. auto. }
  split; [|split; [|split]].
  - unfold iteration. repeat case_eqb; try lia. reflexivity.
  - intros (m & Hend & Hle). apply (Hsome m Hend Hle).
  - intros m Hend Hle Hmax Hprev.
    destruct (Hsome m Hend Hle) as (Hge & i & Hi & Hile & Heq).
    pose proof (Hmax i Hi Hile) as Him.
    assert (Hcases : i = m - 2 \/ i = m - 1 \/ i = m) by lia.
    destruct Hcases as [-> | [-> | ->]].
    + contradiction.
    + exfalso. apply (enderAt_not_adjacent remaining (m - 1) Hi).
      replace (m - 1 + 1) with m by lia. exact Hend.
    + exact Heq.
  - intros Hnone.
    pose proof (sentenceCut_none remaining maxSize Hm Hnone) as Hcut.
    pose proof (cutIndexOf_fallback remaining maxSize Hcut) as Hfb.
    fold cut in Hfb.
    destruct (lastIndexOf_found remaining [SPACE] maxSize Hm)
      as [Hsp | [Hsp1 Hsp2]].
    + rewrite Hsp in Hfb. simpl in Hfb. split.
      * intros i Hi (_ & Hspace) _. exfalso.
        apply occursAt_single in Hspace.
        pose proof (lastIndexOf_last remaining [SPACE] maxSize (Z.to_nat i)
                      ltac:(discriminate) ltac:(lia) Hspace). lia.
      * intros _. exact Hfb.
    + apply occursAt_single in Hsp2.
      set (sp := lastIndexOf remaining [SPACE] maxSize) in *. split.
      * intros i Hi (_ & Hspace) Hlater.
        apply occursAt_single in Hspace.
        pose proof (lastIndexOf_last remaining [SPACE] maxSize (Z.to_nat i)
                      ltac:(discriminate) ltac:(lia) Hspace) as Hge.
        fold sp in Hge.
        destruct (Z.eq_dec sp i) as [E|E].
        -- rewrite Hfb. rewrite E. repeat case_eqb; lia.
        -- exfalso. apply (Hlater sp); [lia|]. split; [lia | assumption].
      * intros Hnospace.
        destruct (Z.eq_dec sp 0) as [E|E].
        -- rewrite Hfb, E. reflexivity.
        -- exfalso. apply (Hnospace sp); [lia|]. split; [lia | assumption].
Qed.

(** C4, as the code has it. Whenever the remainder is longer than
    [maxSize] and no sentence ender starts exactly at index [maxSize], the
    pass cuts at [cutIndexOf]: when a two-unit sentence ender (a full stop,
    exclamation mark or question mark followed by a space or a line feed)
    starts before index [maxSize], the cut is immediately after one of them,
    and after the last of them whenever that one does not directly follow
    another ender; only when no ender starts there does the cut fall back to
    the last U+0020 space at an index in [1 .. maxSize], and to [maxSize]
    itself when there is no such space. *)
Theorem cut_rule (remaining : jsString) (maxSize : Z) :
  0 <= maxSize -> maxSize < length remaining ->
  ~ enderAt remaining maxSize ->
  let cut := cutIndexOf remaining maxSize in
  iteration remaining maxSize
  = PushContinue (trim (substring remaining 0 cut))
                 (trim (substringFrom remaining cut)) /\
  ((exists m, enderAt remaining m /\ m < maxSize) ->
   exists i, enderAt remaining i /\ i < maxSize /\ cut = i + 2) /\
  (forall m,
      enderAt remaining m -> m < maxSize ->
      (forall j, enderAt remaining j -> j < maxSize -> j <= m) ->
      ~ enderAt remaining (m - 2) ->
      cut = m + 2) /\
  ((forall j, j < maxSize -> ~ enderAt remaining j) ->
   (forall i,
       0 < i <= maxSize -> spaceAt remaining i ->
       (forall j, i < j <= maxSize -> ~ spaceAt remaining j) ->
       cut = i) /\
   ((forall j, 0 < j <= maxSize -> ~ spaceAt remaining j) ->
    cut = maxSize)).
Proof.
  intros Hm Hlen Hedge cut.
  destruct (cutIndexOf_rule remaining maxSize Hm Hlen) as (R1 & R2 & R3 & R4).
  fold cut in R1, R2, R3, R4.
  assert (Hin : forall j, enderAt remaining j -> j <= maxSize -> j < maxSize).
  { intros j Hj Hle. destruct (Z.eq_dec j maxSize) as [->|]; [contradiction|lia]. }
  split; [exact R1|]. split; [|split].
  - intros (m & Hend & Hlt).
    destruct R2 as (i & Hi & Hile & Hcut); [exists m; split; [assumption|lia]|].
    exists i. auto.
  - intros m Hend Hlt Hmax Hprev.
    apply R3; try assumption; [lia|].
    intros j Hj Hle. apply Hmax; auto.
  - intros Hnone. apply R4.
    intros j Hle Hj. apply (Hnone j); auto.
Qed.

(** C4, as stated, fails on a remainder whose nearest white space before
    the offset is a line feed: no sentence ender starts in the window, the
    nearest preceding white space is at index 4, yet the cut is the forced
    one at [maxSize = 6], in the middle of a word. *)
Lemma fallback_ignores_line_feed :
  6 < length twoLines /\
  sentenceCut twoLines 6 = -1 /\
  nearestWhitespace twoLines 6 = 4 /\
  cutIndexOf twoLines 6 = 6 /\
  cutIndexOf twoLines 6 <> nearestWhitespace twoLines 6 /\
  chunkText 15 twoLines 6
  = Some [lit "aaaa" ++ [LINE_FEED] ++ lit "b"; lit "bbb"; lit "cccc"].
Proof. repeat split; vm_compute; (reflexivity || discriminate). Qed.

(** With one ender directly after another, the later one is passed over:
    its index is compared with the end of the earlier one, not with its
    start. *)
Remark adjacent_enders_cut_early :
  enderAt adjacentEnders 2 /\ enderAt adjacentEnders 4 /\
  cutIndexOf adjacentEnders 8 = 4 /\
  chunkText 13 adjacentEnders 8 = Some [lit "ab."; lit "! cdefgh"].
Proof.
  split; [|split; [|split; vm_compute; reflexivity]].
  - split; [lia|]. exists [FULL_STOP; SPACE].
    split; [left; reflexivity | reflexivity].
  - split; [lia|]. exists [EXCLAMATION; SPACE].
    split; [right; left; reflexivity | reflexivity].
Qed.

Lemma cut_rule_witness :
  exists i, enderAt twoSentences i /\ i <= 12 /\
            cutIndexOf twoSentences 12 = i + 2.
Proof.
  assert (Hedge : ~ enderAt twoSentences 12).
  { intros (_ & e & Hin & Hocc). simpl in Hin.
    destruct Hin as [<-|[<-|[<-|[<-|[<-|[<-|[]]]]]]];
      vm_compute in Hocc; discriminate. }
  destruct (cut_rule twoSentences 12 ltac:(lia) ltac:(vm_compute; reflexivity)
                     Hedge) as (_ & H & _).
  destruct H as (i & Hi & Hlt & Hcut); [|exists i; split; [|split]; auto; lia].
  exists 8. split; [|lia].
  split; [lia|]. exists [FULL_STOP; SPACE].
  split; [left; reflexivity | reflexivity].
Defined.

Lemma chunkText_reassembles_witness :
  exists chunks gaps,
    chunkText 40 (lit "  Hello world. This is a test! ok  ") 8 = Some chunks /\
    List.length gaps = pred (List.length chunks) /\
    Forall blank gaps /\
    weave chunks gaps = trim (lit "  Hello world. This is a test! ok  ").
Proof.
  apply chunkText_reassembles; [lia | vm_compute; lia].
Defined.

Lemma chunkText_terminates_witness :
  exists chunks,
    forall fuel, (List.length (lit "one two three") < fuel)%nat ->
                 chunkText fuel (lit "one two three") 5 = Some chunks.
Proof.
  apply (chunkText_terminates (lit "one two three") 5). lia.
Defined.

End ChunkerProperties.

(* ------------------------------------------------------------------ *)
(** ** Facts about the export pipeline *)
(* ------------------------------------------------------------------ *)

Import VoxFreeApp.

Section TraceFacts.

Lemma requests_app (a b : list Event) : requests (a ++ b) = requests a ++ requests b.
Proof.
  induction a as [|e a IH]; simpl; [reflexivity|].
  destruct e; simpl; rewrite ?IH; reflexivity.
Qed.

Lemma opened_app (a b : list Event) : opened (a ++ b) = opened a ++ opened b.
Proof.
  induction a as [|e a IH]; simpl; [reflexivity|].
  destruct e; simpl; rewrite ?IH; reflexivity.
Qed.

Lemma saved_app (a b : list Event) : saved (a ++ b) = saved a ++ saved b.
Proof.
  induction a as [|e a IH]; simpl; [reflexivity|].
  destruct e; simpl; rewrite ?IH; reflexivity.
Qed.

Lemma notified_app (a b : list Event) : notified (a ++ b) = notified a ++ notified b.
Proof.
  induction a as [|e a IH]; simpl; [reflexivity|].
  destruct e; simpl; rewrite ?IH; reflexivity.
Qed.

Lemma exhausted_app (a b : list Event) :
  exhausted (a ++ b) = (exhausted a + exhausted b)%nat.
Proof.
  induction a as [|e a IH]; simpl; [reflexivity|].
  destruct e as [m|m|m|u|ms|u|t i|m|bl x]; simpl; rewrite ?IH; try reflexivity.
  destruct m; simpl; rewrite ?IH; reflexivity.
Qed.

Lemma caught_app (a b : list Event) : caught (a ++ b) = caught a ++ caught b.
Proof.
  induction a as [|e a IH]; simpl; [reflexivity|].
  destruct e as [m|m|m|u|ms|u|t i|m|bl x]; simpl; rewrite ?IH; try reflexivity.
  destruct m; simpl; rewrite ?IH; reflexivity.
Qed.

End TraceFacts.

Section PipelineFacts.

Context {World : Type}.
Variable transport : World -> jsString -> Reply * World.
Variable cfg : Config.
Variable ui : UI.

Local Abbreviation fetchAudio := (fetchAudioWithRetry transport cfg).
Local Abbreviation k := (proxyCount cfg).
Local Abbreviation r := (RETRY_ATTEMPTS cfg).

(** The [try] block in closed form. *)
Lemma attemptFetch_run (text lang : jsString) (proxyIndex : Z) (w : World) :
  attemptFetch transport cfg text lang proxyIndex w =
  match targetUrl cfg text lang with
  | None => {| completion := Thrown URIError; events := []; after := w |}
  | Some googleUrl =>
      match proxiedUrl cfg proxyIndex googleUrl with
      | None => {| completion := Thrown URIError; events := []; after := w |}
      | Some proxyUrl =>
          match outcomeOf (fst (transport w proxyUrl)) with
          | inr blob =>
              {| completion := Returned (Some blob);
                 events := [ConsoleLog (AttemptingDownload (proxyIndex + 1) k);
                            FetchRequest proxyUrl;
                            ConsoleLog (DownloadSuccessful (proxyIndex + 1))];
                 after := snd (transport w proxyUrl) |}
          | inl error =>
              {| completion := Thrown error;
                 events := [ConsoleLog (AttemptingDownload (proxyIndex + 1) k);
                            FetchRequest proxyUrl];
                 after := snd (transport w proxyUrl) |}
          end
      end
  end.
Proof.
  unfold attemptFetch, bind, orThrow, ret, throw, emit, fetch, blobOf,
    outcomeOf.
  destruct (targetUrl cfg text lang) as [g|]; simpl; [|reflexivity].
  destruct (proxiedUrl cfg proxyIndex g) as [u|]; simpl; [|reflexivity].
  destruct (transport w u) as [reply w']; simpl.
  destruct (TIMEOUT_MS <=? elapsed reply); simpl; [reflexivity|].
  destruct (settlement reply) as [m|resp]; simpl; [reflexivity|].
  destruct (ok resp); simpl; [|reflexivity].
  destruct (body resp) as [m|b]; simpl; [reflexivity|].
  destruct (size b =? 0); simpl; reflexivity.
Qed.

Lemma directFallback_run (text lang : jsString) (w : World) :
  directFallback cfg text lang w =
  match targetUrl cfg text lang with
  | Some googleUrl =>
      {| completion := Returned None; events := fallbackEvents googleUrl;
         after := w |}
  | None =>
      {| completion := Thrown URIError;
         events := [ConsoleWarn AllProxyAttemptsFailed]; after := w |}
  end.
Proof.
  unfold directFallback, bind, orThrow, showError, updateStatus, emit, ret,
    throw, fallbackEvents.
  destruct (targetUrl cfg text lang); reflexivity.
Qed.

(** One call of [fetchAudioWithRetry] in closed form. *)
Lemma fetchAudio_unfold (fuel : nat) (text lang : jsString)
      (attempt proxyIndex : Z) (w : World) :
  fetchAudio (S fuel) text lang attempt proxyIndex w =
  let tried := attemptFetch transport cfg text lang proxyIndex w in
  match completion tried with
  | Thrown error =>
      prepend (events tried ++
               [ConsoleWarn (FetchAttemptFailed attempt (proxyIndex + 1)
                                                (errorMsg error))])
              (afterFailure transport cfg fuel text lang attempt proxyIndex
                            (after tried))
  | _ => tried
  end.
Proof.
  cbn [fetchAudioWithRetry]. unfold tryCatch, afterFailure.
  cbv zeta.
  destruct (completion (attemptFetch transport cfg text lang proxyIndex w));
    try reflexivity.
  unfold bind, emit, delay, prepend. simpl.
  destruct (proxyIndex + 1 <? k).
  - destruct (fetchAudio fuel text lang attempt (proxyIndex + 1) _);
      simpl; rewrite <- app_assoc; reflexivity.
  - destruct (attempt <? r).
    + simpl. destruct (fetchAudio fuel text lang (attempt + 1) 0 _);
        simpl; rewrite <- app_assoc; reflexivity.
    + destruct (directFallback cfg text lang _); simpl;
        rewrite <- app_assoc; reflexivity.
Qed.


Lemma events_prepend {A} (evs : list Event) (run : Run World A) :
  events (prepend evs run) = evs ++ events run.
Proof. reflexivity. Qed.

Lemma fetchShape_prepend (text lang : jsString) (evs : list Event)
      (run : Run World (option Blob)) :
  silent evs -> fetchShape cfg text lang run ->
  fetchShape cfg text lang (prepend evs run).
Proof.
  intros (S1 & S2 & S3 & S4 & S5) (H1 & H2 & H3).
  unfold fetchShape. rewrite events_prepend.
  rewrite saved_app, caught_app, S1, S2, H1, H2.
  split; [reflexivity|]. split; [reflexivity|].
  change (completion (prepend evs run)) with (completion run).
  destruct (completion run) as [[b|]|e|].
  - rewrite exhausted_app, opened_app, notified_app, S3, S4, S5.
    destruct H3 as (-> & -> & -> & Hb). auto.
  - destruct H3 as (g & pre & Hg & Hev & P1 & P2 & P3).
    exists g, (evs ++ pre). rewrite Hev, app_assoc.
    rewrite exhausted_app, opened_app, notified_app, S3, S4, S5, P1, P2, P3.
    auto.
  - rewrite opened_app, notified_app, S4, S5.
    destruct H3 as (-> & Hg & -> & ->). auto.
  - rewrite exhausted_app, opened_app, notified_app, S3, S4, S5.
    destruct H3 as (-> & -> & ->). auto.
Qed.

Lemma outcomeOf_blob (reply : Reply) (blob : Blob) :
  outcomeOf reply = inr blob -> size blob <> 0.
Proof.
  unfold outcomeOf.
  destruct (TIMEOUT_MS <=? elapsed reply); [discriminate|].
  destruct (settlement reply) as [m|resp]; [discriminate|].
  destruct (negb (ok resp)); [discriminate|].
  destruct (body resp) as [m|b]; [discriminate|].
  destruct (Z.eqb_spec (size b) 0); [discriminate|].
  intros H. inversion H. subst. assumption.
Qed.

Lemma directFallback_shape (text lang : jsString) (w : World) :
  fetchShape cfg text lang (directFallback cfg text lang w).
Proof.
  rewrite directFallback_run. unfold fetchShape.
  destruct (targetUrl cfg text lang) as [g|] eqn:Hg; simpl.
  - repeat split. exists g, []. repeat split.
  - repeat split.
Qed.

(** The shape of every run of [fetchAudioWithRetry], whatever the network
    does and whatever the text is. *)
Lemma fetchAudio_shape (fuel : nat) (text lang : jsString) :
  forall (attempt proxyIndex : Z) (w : World),
    fetchShape cfg text lang (fetchAudio fuel text lang attempt proxyIndex w).
Proof.
  induction fuel as [|fuel IH]; intros a p w.
  - simpl. unfold fetchShape, unfinished. simpl. repeat split.
  - rewrite fetchAudio_unfold, attemptFetch_run. cbv zeta.
    assert (Hafter : forall w' evs, silent evs ->
              fetchShape cfg text lang
                (prepend evs (afterFailure transport cfg fuel text lang a p w'))).
    { intros w' evs Hs. apply fetchShape_prepend; [assumption|].
      unfold afterFailure. destruct (p + 1 <? k); [apply IH|].
      destruct (a <? r); [|apply directFallback_shape].
      apply fetchShape_prepend; [repeat split | apply IH]. }
    destruct (targetUrl cfg text lang) as [g|] eqn:Hg; simpl.
    + destruct (proxiedUrl cfg p g) as [u|]; simpl.
      * destruct (outcomeOf (fst (transport w u))) as [e|b] eqn:Ho; simpl.
        -- apply Hafter. repeat split.
        -- unfold fetchShape. simpl. repeat split.
           apply (outcomeOf_blob _ _ Ho).
      * apply Hafter. repeat split.
    + apply Hafter. repeat split.
Qed.

Lemma proxiedUrl_encoded (proxyIndex : Z) (googleUrl encoded : jsString) :
  encodeURIComponent googleUrl = Some encoded ->
  proxiedUrl cfg proxyIndex googleUrl = Some (proxyAt cfg proxyIndex ++ encoded).
Proof. intros H. unfold proxiedUrl. rewrite H. reflexivity. Qed.

(** One rung of the ladder, for a request that can be built: a good reply
    ends the call with its blob; a failed one is followed by the warning and
    by what [afterFailure] decides. *)
Lemma ladder_rung (fuel : nat) (text lang : jsString) (attempt proxyIndex : Z)
      (w : World) (googleUrl encoded : jsString) :
  targetUrl cfg text lang = Some googleUrl ->
  encodeURIComponent googleUrl = Some encoded ->
  let proxyUrl := proxyAt cfg proxyIndex ++ encoded in
  fetchAudio (S fuel) text lang attempt proxyIndex w =
  match outcomeOf (fst (transport w proxyUrl)) with
  | inr blob =>
      {| completion := Returned (Some blob);
         events := [ConsoleLog (AttemptingDownload (proxyIndex + 1) k);
                    FetchRequest proxyUrl;
                    ConsoleLog (DownloadSuccessful (proxyIndex + 1))];
         after := snd (transport w proxyUrl) |}
  | inl error =>
      prepend [ConsoleLog (AttemptingDownload (proxyIndex + 1) k);
               FetchRequest proxyUrl;
               ConsoleWarn (FetchAttemptFailed attempt (proxyIndex + 1)
                                               (errorMsg error))]
              (afterFailure transport cfg fuel text lang attempt proxyIndex
                            (snd (transport w proxyUrl)))
  end.
Proof.
  intros Hg He proxyUrl.
  rewrite fetchAudio_unfold, attemptFetch_run, Hg.
  rewrite (proxiedUrl_encoded proxyIndex googleUrl encoded He).
  fold proxyUrl. cbv zeta.
  destruct (outcomeOf (fst (transport w proxyUrl))); reflexivity.
Qed.

Lemma rungsLeft_positive (attempt proxyIndex : Z) :
  1 <= attempt <= r -> 0 <= proxyIndex < k ->
  1 <= rungsLeft cfg attempt proxyIndex.
Proof. intros Ha Hp. unfold rungsLeft. nia. Qed.

(** The ladder from an in-range rung, with enough fuel: the call ends, makes
    at least one request and at most as many as rungs are left, all of them
    when it gives up; and it gives up when every reply is a failure. *)
Lemma ladder_bound (text lang : jsString) (fuel : nat) :
  Requestable cfg text lang ->
  forall (attempt proxyIndex : Z) (w : World),
    1 <= attempt <= r -> 0 <= proxyIndex < k ->
    rungsLeft cfg attempt proxyIndex <= Z.of_nat fuel ->
    let run := fetchAudio fuel text lang attempt proxyIndex w in
    completion run <> Unfinished /\
    1 <= attempts run <= rungsLeft cfg attempt proxyIndex /\
    (completion run = Returned None ->
     attempts run = rungsLeft cfg attempt proxyIndex) /\
    ((forall w' url, exists e, outcomeOf (fst (transport w' url)) = inl e) ->
     completion run = Returned None).
Proof.
  intros (g & eg & Hg & Heg).
  induction fuel as [|fuel IH]; intros a p w Ha Hp Hfuel.
  - pose proof (rungsLeft_positive a p Ha Hp). simpl in Hfuel. lia.
  - cbv zeta. rewrite (ladder_rung fuel text lang a p w g eg Hg Heg).
    cbv zeta. set (u := proxyAt cfg p ++ eg).
    pose proof (rungsLeft_positive a p Ha Hp) as Hpos.
    destruct (outcomeOf (fst (transport w u))) as [e|b] eqn:Ho.
    + unfold attempts. rewrite events_prepend, requests_app, length_app.
      simpl (List.length (requests _)).
      change (completion (prepend _ ?x)) with (completion x).
      unfold afterFailure.
      destruct (Z.ltb_spec (p + 1) k) as [Hnext|Hlast].
      * destruct (IH a (p + 1) (snd (transport w u)) Ha ltac:(lia))
          as (I1 & I2 & I3 & I4).
        { unfold rungsLeft in *. lia. }
        unfold attempts in *. unfold rungsLeft in *.
        repeat split; try assumption; try lia.
        intros Hnone. specialize (I3 Hnone). lia.
      * destruct (Z.ltb_spec a r) as [Hretry|Hdone].
        -- destruct (IH (a + 1) 0 (snd (transport w u)) ltac:(lia) ltac:(lia))
             as (I1 & I2 & I3 & I4).
           { unfold rungsLeft in *. nia. }
           change (completion (prepend _ ?x)) with (completion x).
           rewrite events_prepend, requests_app.
           simpl (requests [_; _]). rewrite app_nil_l.
           unfold attempts in *. unfold rungsLeft in *.
           repeat split; try assumption; try nia.
           intros Hnone. specialize (I3 Hnone). nia.
        -- rewrite directFallback_run, Hg. simpl.
           unfold rungsLeft in *.
           repeat split; try discriminate; try nia.
    + unfold attempts. simpl.
      repeat split; try discriminate; try lia.
      intros Hall. destruct (Hall w u) as (e & He). congruence.
Qed.

Local Abbreviation lang := (shortLang ui).

(** One turn of the loop on a chunk that is not blank. *)
Lemma forEachChunk_cons (fuel : nat) (language : jsString) (totalChunks i : Z)
      (chunk : jsString) (rest : list jsString) (blobs : list Blob)
      (w : World) :
  trim chunk <> [] ->
  forEachChunk transport cfg fuel language totalChunks i (chunk :: rest) blobs w =
  let fetched := fetchAudio fuel chunk language 1 0 w in
  let status := StatusUpdate (ProcessingChunk (i + 1) totalChunks) true in
  match completion fetched with
  | Returned (Some blob) =>
      prepend (status :: events fetched
                 ++ (if i <? totalChunks - 1 then [Delay 500] else []))
              (forEachChunk transport cfg fuel language totalChunks (i + 1)
                            rest (blobs ++ [blob]) (after fetched))
  | Returned None =>
      {| completion := Thrown (FailedChunk (i + 1));
         events := status :: events fetched; after := after fetched |}
  | Thrown e =>
      {| completion := Thrown e;
         events := status :: events fetched; after := after fetched |}
  | Unfinished =>
      {| completion := Unfinished;
         events := status :: events fetched; after := after fetched |}
  end.
Proof.
  intros Hne. cbn [forEachChunk].
  destruct (trim chunk) as [|c t]; [congruence|].
  unfold bind, updateStatus, emit, delay, throw, ret, prepend. cbv zeta. simpl.
  destruct (completion (fetchAudio fuel chunk language 1 0 w)) as [[b|]|e|];
    simpl; try reflexivity; try (rewrite app_nil_r; reflexivity).
  destruct (i <? totalChunks - 1); simpl.
  - destruct (forEachChunk _ _ _ _ _ _ _ _ _); simpl;
      rewrite <- ?app_assoc; reflexivity.
  - destruct (forEachChunk _ _ _ _ _ _ _ _ _); simpl;
      rewrite <- ?app_assoc; reflexivity.
Qed.

Lemma silent_app (a b : list Event) : silent a -> silent b -> silent (a ++ b).
Proof.
  intros (A1 & A2 & A3 & A4 & A5) (B1 & B2 & B3 & B4 & B5). unfold silent.
  rewrite saved_app, caught_app, exhausted_app, opened_app, notified_app.
  rewrite A1, A2, A3, A4, A5, B1, B2, B3, B4, B5. repeat split.
Qed.

(** The events of a call that returned a blob are silent. *)
Lemma fetched_silent (fuel : nat) (text language : jsString) (w : World)
      (blob : Blob) :
  completion (fetchAudio fuel text language 1 0 w) = Returned (Some blob) ->
  silent (events (fetchAudio fuel text language 1 0 w)).
Proof.
  intros H. destruct (fetchAudio_shape fuel text language 1 0 w) as (S1 & S2 & S3).
  rewrite H in S3. destruct S3 as (S3 & S4 & S5 & _). repeat split; assumption.
Qed.

(** The shape of every run of the loop over chunks none of which is blank. *)
Lemma forEachChunk_shape (fuel : nat) (language : jsString) (totalChunks : Z) :
  forall (chunks : list jsString) (i : Z) (blobs : list Blob) (w : World),
    Forall (fun chunk => trim chunk <> []) chunks ->
    loopShape transport cfg fuel language i w chunks blobs
              (forEachChunk transport cfg fuel language totalChunks i chunks
                            blobs w).
Proof.
  induction chunks as [|chunk rest IH]; intros i blobs w Hall.
  - unfold loopShape. simpl. repeat split.
    exists [], []. rewrite app_nil_r. repeat split. constructor.
  - inversion Hall as [|? ? Hchunk Hrest]; subst.
    rewrite forEachChunk_cons by assumption. cbv zeta.
    pose proof (fetchAudio_shape fuel chunk language 1 0 w) as (S1 & S2 & S3).
    set (fetched := fetchAudio fuel chunk language 1 0 w) in *.
    set (status := StatusUpdate (ProcessingChunk (i + 1) totalChunks) true).
    destruct (completion fetched) as [[b|]|e|] eqn:Hc.
    + set (pause := if i <? totalChunks - 1 then [Delay 500] else []).
      assert (Hpause : silent pause /\ requests pause = []).
      { unfold pause. destruct (i <? totalChunks - 1); repeat split. }
      destruct Hpause as [Hpause Hpr].
      assert (Hevs : silent (status :: events fetched ++ pause)).
      { apply (silent_app [status]); [repeat split|].
        apply silent_app; [|assumption].
        apply (fetched_silent fuel chunk language w b Hc). }
      assert (Hreq : requests (status :: events fetched ++ pause)
                     = requests (events fetched)).
      { simpl. rewrite requests_app, Hpr, app_nil_r. reflexivity. }
      specialize (IH (i + 1) (blobs ++ [b]) (after fetched) Hrest).
      set (next := forEachChunk transport cfg fuel language totalChunks
                                (i + 1) rest (blobs ++ [b]) (after fetched))
        in *.
      destruct Hevs as (E1 & E2 & E3 & E4 & E5).
      destruct IH as (L1 & L2 & L3).
      unfold loopShape. rewrite events_prepend.
      rewrite saved_app, caught_app, E1, E2, L1, L2.
      split; [reflexivity|]. split; [reflexivity|].
      change (completion (prepend (status :: events fetched ++ pause) next))
        with (completion next).
      change (after (prepend (status :: events fetched ++ pause) next))
        with (after next).
      destruct (completion next) as [all|e|] eqn:Hn.
      * destruct L3 as (X1 & X2 & X3 & got & made & Hgot & Hseq & Hmade).
        rewrite exhausted_app, opened_app, notified_app, E3, E4, E5, X1, X2, X3.
        repeat split.
        exists (b :: got), (requests (events fetched) :: made).
        split; [rewrite Hgot, <- app_assoc; reflexivity|]. split.
        -- apply Sequential_cons; assumption.
        -- rewrite requests_app, Hreq, Hmade. reflexivity.
      * destruct L3 as [(done & failing & rest' & Hstop)
                       | (-> & X2 & X3 & c & Hin & Hc')].
        -- left. exists (chunk :: done), failing, rest'.
           destruct Hstop as (Hsplit & Hthrown & got & made & w1 & g & pre
                              & Hseq & Hnone & Hmade & Hg & Hev & P1 & P2 & P3).
           split; [rewrite Hsplit; reflexivity|]. split.
           { change (completion (prepend (status :: events fetched ++ pause) next))
               with (completion next).
             rewrite Hn. rewrite Hn in Hthrown. inversion Hthrown as [Hnum].
             f_equal. f_equal. simpl List.length. lia. }
           exists (b :: got), (requests (events fetched) :: made), w1, g,
             ((status :: events fetched ++ pause) ++ pre).
           split; [apply Sequential_cons; assumption|].
           split; [assumption|]. split.
           { rewrite events_prepend, requests_app, Hreq, Hmade.
             simpl List.concat. rewrite app_assoc. reflexivity. }
           split; [assumption|]. split.
           { rewrite events_prepend, Hev, app_assoc. reflexivity. }
           rewrite exhausted_app, opened_app, notified_app, E3, E4, E5, P1, P2, P3.
           repeat split.
        -- right. rewrite opened_app, notified_app, E4, E5, X2, X3.
           repeat split. exists c. split; [right; assumption | assumption].
      * destruct L3 as (X1 & X2 & X3).
        rewrite exhausted_app, opened_app, notified_app, E3, E4, E5, X1, X2, X3.
        repeat split.
    + destruct S3 as (g & pre & Hg & Hev & P1 & P2 & P3).
      unfold loopShape. simpl events. simpl completion.
      simpl saved. simpl caught. split; [assumption|]. split; [assumption|].
      left. exists [], chunk, rest. split; [reflexivity|].
      split; [simpl; f_equal; f_equal; lia|].
      exists [], [], w, g, (status :: pre).
      split; [constructor|]. split; [exact Hc|]. split; [reflexivity|].
      split; [assumption|]. split; [simpl; rewrite Hev; reflexivity|].
      simpl. auto.
    + destruct S3 as (-> & Hg & P2 & P3).
      unfold loopShape. simpl events. simpl completion.
      simpl saved. simpl caught. split; [assumption|]. split; [assumption|].
      right. simpl. repeat split; try assumption.
      exists chunk. split; [left; reflexivity | assumption].
    + unfold loopShape. simpl events. simpl completion.
      simpl saved. simpl caught. simpl exhausted. simpl opened. simpl notified.
      destruct S3 as (X1 & X2 & X3). auto.
Qed.

(** [handleLongExport] in closed form. *)
Lemma handleLongExport_run (fuel : nat) (text format : jsString) (w : World) :
  handleLongExport transport cfg ui fuel text format w =
  let status := StatusUpdate ProcessingLongText true in
  match chunkText fuel text (CHUNK_SIZE cfg) with
  | None => {| completion := Unfinished; events := [status]; after := w |}
  | Some chunks =>
      let loop := forEachChunk transport cfg fuel lang
                               (Z.of_nat (List.length chunks)) 0 chunks [] w in
      match completion loop with
      | Returned blobs =>
          {| completion := Returned tt;
             events := status :: events loop
                         ++ [FileSave (newBlob blobs) format;
                             StatusUpdate DownloadComplete false];
             after := after loop |}
      | Thrown e =>
          {| completion := Returned tt;
             events := status :: events loop ++ longFailureEvents e;
             after := after loop |}
      | Unfinished =>
          {| completion := Unfinished;
             events := status :: events loop; after := after loop |}
      end
  end.
Proof.
  unfold handleLongExport, bind, tryCatch, updateStatus, downloadBlob,
    showError, emit, unfinished, longFailureEvents, shortLang.
  cbv zeta. simpl.
  destruct (chunkText fuel text (CHUNK_SIZE cfg)) as [chunks|]; simpl;
    [|reflexivity].
  destruct (completion (forEachChunk _ _ _ _ _ _ _ _ _)); simpl; reflexivity.
Qed.

(** [handleExport] in closed form. *)
Lemma handleExport_run (fuel : nat) (format : jsString) (w : World) :
  handleExport transport cfg ui fuel format w =
  let text := trim (textInput_value ui) in
  let refused :=
    [ConsoleError EnterValidText; StatusUpdate ErrorStatus false;
     Notification EnterValidText] in
  if length text =? 0
  then {| completion := Returned tt; events := refused; after := w |}
  else if MAX_TEXT_LENGTH cfg <? length text
  then {| completion := Returned tt;
          events := [ConsoleError (TextTooLong (MAX_TEXT_LENGTH cfg));
                     StatusUpdate ErrorStatus false;
                     Notification (TextTooLong (MAX_TEXT_LENGTH cfg))]
                      ++ refused;
          after := w |}
  else if CHUNK_SIZE cfg <? length text
  then handleLongExport transport cfg ui fuel text format w
  else
    let status := StatusUpdate PreparingDownload true in
    let fetched := fetchAudio fuel text lang 1 0 w in
    match completion fetched with
    | Returned (Some blob) =>
        {| completion := Returned tt;
           events := status :: events fetched
                       ++ [FileSave blob format;
                           StatusUpdate DownloadComplete false];
           after := after fetched |}
    | Returned None =>
        {| completion := Returned tt;
           events := status :: events fetched ++ failureEvents FailedToGenerate;
           after := after fetched |}
    | Thrown e =>
        {| completion := Returned tt;
           events := status :: events fetched ++ failureEvents e;
           after := after fetched |}
    | Unfinished =>
        {| completion := Unfinished;
           events := status :: events fetched; after := after fetched |}
    end.
Proof.
  unfold handleExport, validateInput. cbv zeta.
  unfold bind at 1.
  destruct (length (trim (textInput_value ui)) =? 0); [reflexivity|].
  destruct (MAX_TEXT_LENGTH cfg <? length (trim (textInput_value ui)));
    [reflexivity|].
  simpl.
  destruct (CHUNK_SIZE cfg <? length (trim (textInput_value ui))).
  - destruct (handleLongExport _ _ _ _ _ _ _); reflexivity.
  - unfold bind, tryCatch, updateStatus, downloadBlob, showError, emit, throw,
      failureEvents, shortLang. simpl.
    destruct (completion (fetchAudio _ _ _ _ _ _)) as [[b|]|e|]; simpl;
      rewrite ?app_nil_r; reflexivity.
Qed.

Lemma Sequential_lengths (fuel : nat) (language : jsString) (w w' : World)
      (chunks : list jsString) (blobs : list Blob)
      (made : list (list jsString)) :
  Sequential transport cfg fuel language w chunks blobs made w' ->
  List.length blobs = List.length chunks /\
  List.length made = List.length chunks.
Proof. induction 1; simpl; [auto | lia]. Qed.

Lemma saved_In (evs : list Event) (blob : Blob) (ext : jsString) :
  In (FileSave blob ext) evs <-> In (blob, ext) (saved evs).
Proof.
  induction evs as [|e evs IH]; simpl; [tauto|].
  destruct e; simpl; rewrite <- IH; split;
    try (intros [H|H]; [discriminate | assumption]); try tauto;
    try (intros [H|H]; [left; congruence | right; assumption]).
Qed.

(** The chunks of [chunkText] are never blank when the bound is positive. *)
Lemma chunks_not_blank (fuel : nat) (text : jsString) (maxSize : Z)
      (chunks : list jsString) :
  1 <= maxSize -> chunkText fuel text maxSize = Some chunks ->
  Forall (fun chunk => trim chunk <> []) chunks.
Proof.
  intros Hm H. destruct (chunkText_weaves fuel text maxSize chunks Hm H)
    as (_ & Hall).
  eapply Forall_impl; [|exact Hall]. simpl. intros c (Ht & Hne).
  rewrite (Trimmed_trim c Ht). exact Hne.
Qed.

End PipelineFacts.

(* ------------------------------------------------------------------ *)
(** ** Properties of the export pipeline *)
(* ------------------------------------------------------------------ *)

Section PipelineProperties.

Context {World : Type}.
Variable transport : World -> jsString -> Reply * World.
Variable cfg : Config.
Variable ui : UI.

Local Abbreviation fetchAudio := (fetchAudioWithRetry transport cfg).
Local Abbreviation k := (proxyCount cfg).
Local Abbreviation r := (RETRY_ATTEMPTS cfg).
Local Abbreviation lang := (shortLang ui).

(** X21. With at least one proxy and a retry budget of at least one, for a
    text whose request can be built and a network that fails every request,
    [fetchAudioWithRetry (text, lang)] makes exactly [k * r] requests (six
    with the three proxies and the budget of two of [CONFIG]), only then
    runs the direct fallback, which opens the target URL once, and returns
    [null]: the call ends normally. *)
Theorem every_attempt_fails (text language : jsString) (fuel : nat) (w : World) :
  1 <= k -> 1 <= r -> Requestable cfg text language ->
  k * r <= Z.of_nat fuel ->
  (forall w' url, exists e, outcomeOf (fst (transport w' url)) = inl e) ->
  let run := fetchAudio fuel text language 1 0 w in
  completion run = Returned None /\
  attempts run = k * r /\
  exists googleUrl pre,
    targetUrl cfg text language = Some googleUrl /\
    events run = pre ++ fallbackEvents googleUrl /\
    requests pre = requests (events run) /\
    exhausted pre = 0%nat /\ opened pre = [] /\ notified pre = [] /\
    exhausted (events run) = 1%nat /\ opened (events run) = [googleUrl].
Proof.
  intros Hk Hr Hreq Hfuel Hfail run.
  destruct (ladder_bound transport cfg text language fuel Hreq 1 0 w
                         ltac:(lia) ltac:(lia))
    as (_ & _ & Hcount & Hnone).
  { unfold rungsLeft. lia. }
  specialize (Hnone Hfail). specialize (Hcount Hnone). fold run in Hnone, Hcount.
  split; [assumption|]. split; [rewrite Hcount; unfold rungsLeft; lia|].
  destruct (fetchAudio_shape transport cfg fuel text language 1 0 w)
    as (_ & _ & Hshape).
  fold run in Hshape. rewrite Hnone in Hshape.
  destruct Hshape as (g & pre & Hg & Hev & P1 & P2 & P3).
  exists g, pre. rewrite Hev.
  rewrite requests_app, exhausted_app, opened_app, P1, P2.
  simpl. rewrite app_nil_r. auto 10.
Qed.

(** C8. A reply that comes after the ten-second timer, a network error, a
    status outside 200..299 and an empty body each make the [try] block
    throw; and after any thrown error the call does the same thing: it logs
    the warning and goes on as [afterFailure] says, which looks at the
    attempt number and the proxy index only. *)
Theorem failures_feed_the_ladder (reply : Reply) :
  (TIMEOUT_MS < elapsed reply -> outcomeOf reply = inl AbortError) /\
  (forall message,
      elapsed reply < TIMEOUT_MS -> settlement reply = NetworkError message ->
      outcomeOf reply = inl (TypeError message)) /\
  (forall response,
      elapsed reply < TIMEOUT_MS -> settlement reply = Responds response ->
      ok response = false ->
      outcomeOf reply
      = inl (HttpError (status response) (statusText response))) /\
  (forall response blob,
      elapsed reply < TIMEOUT_MS -> settlement reply = Responds response ->
      ok response = true -> body response = BodyBlob blob -> size blob = 0 ->
      outcomeOf reply = inl EmptyAudio) /\
  (forall fuel text language attempt proxyIndex w w' googleUrl encoded error,
      targetUrl cfg text language = Some googleUrl ->
      encodeURIComponent googleUrl = Some encoded ->
      transport w (proxyAt cfg proxyIndex ++ encoded) = (reply, w') ->
      outcomeOf reply = inl error ->
      fetchAudio (S fuel) text language attempt proxyIndex w =
      prepend [ConsoleLog (AttemptingDownload (proxyIndex + 1) k);
               FetchRequest (proxyAt cfg proxyIndex ++ encoded);
               ConsoleWarn (FetchAttemptFailed attempt (proxyIndex + 1)
                                               (errorMsg error))]
              (afterFailure transport cfg fuel text language attempt
                            proxyIndex w')).
Proof.
  split; [|split; [|split; [|split]]].
  - unfold outcomeOf. intros H.
    destruct (Z.leb_spec TIMEOUT_MS (elapsed reply)); [reflexivity|lia].
  - unfold outcomeOf. intros m H Hs.
    destruct (Z.leb_spec TIMEOUT_MS (elapsed reply)); [lia|].
    rewrite Hs. reflexivity.
  - unfold outcomeOf. intros resp H Hs Hok.
    destruct (Z.leb_spec TIMEOUT_MS (elapsed reply)); [lia|].
    rewrite Hs, Hok. reflexivity.
  - unfold outcomeOf. intros resp b H Hs Hok Hb Hsize.
    destruct (Z.leb_spec TIMEOUT_MS (elapsed reply)); [lia|].
    rewrite Hs, Hok, Hb, Hsize. reflexivity.
  - intros fuel text language a p w w' g eg e Hg Heg Ht Ho.
    rewrite (ladder_rung transport cfg fuel text language a p w g eg Hg Heg).
    cbv zeta. rewrite Ht. simpl fst. simpl snd.
    rewrite Ho. reflexivity.
Qed.



(** X22. In an export of a long text whose chunks can all be requested, when
    the ladder of a chunk is exhausted the call ends normally; the chunks
    before that one were fetched, the requests made are theirs and its own
    and none is made for the chunks after it; the target URL of that chunk
    is opened, once, by the direct fallback; the user is notified; the
    [catch] block of the export follows at once; and no file is saved. *)
Theorem exhaustion_aborts_export (fuel : nat) (text format : jsString)
        (w : World) (chunks : list jsString) :
  1 <= CHUNK_SIZE cfg ->
  chunkText fuel text (CHUNK_SIZE cfg) = Some chunks ->
  Forall (fun chunk => Requestable cfg chunk lang) chunks ->
  let run := handleLongExport transport cfg ui fuel text format w in
  exhausted (events run) <> 0%nat ->
  completion run = Returned tt /\
  exists done chunk rest googleUrl pre blobs made w1,
    chunks = done ++ chunk :: rest /\
    Sequential transport cfg fuel lang w done blobs made w1 /\
    completion (fetchAudio fuel chunk lang 1 0 w1) = Returned None /\
    requests (events run)
    = List.concat made ++ requests (events (fetchAudio fuel chunk lang 1 0 w1)) /\
    targetUrl cfg chunk lang = Some googleUrl /\
    events run
    = pre ++ fallbackEvents googleUrl
          ++ longFailureEvents (FailedChunk (Z.of_nat (List.length done) + 1)) /\
    exhausted pre = 0%nat /\ opened pre = [] /\ notified pre = [] /\
    opened (events run) = [googleUrl] /\
    notified (events run) = [UnableToDownload; FailedLongText] /\
    saved (events run) = [].
Proof.
  intros Hsize Hchunks Hreq run Hex.
  unfold run in *. rewrite handleLongExport_run in *. cbv zeta in *.
  rewrite Hchunks in *.
  pose proof (forEachChunk_shape transport cfg fuel lang
                (Z.of_nat (List.length chunks)) chunks 0 [] w
                (chunks_not_blank fuel text (CHUNK_SIZE cfg) chunks Hsize Hchunks))
    as (L1 & L2 & L3).
  set (loop := forEachChunk transport cfg fuel lang
                            (Z.of_nat (List.length chunks)) 0 chunks [] w) in *.
  destruct (completion loop) as [all|e|] eqn:Hloop.
  - exfalso. apply Hex. destruct L3 as (X1 & _). simpl.
    rewrite exhausted_app, X1. reflexivity.
  - destruct L3 as [(done & chunk & rest & Hstop) | (-> & X2 & X3 & c & Hin & Hc)].
    + destruct Hstop as (Hsplit & Hthrown & blobs & made & w1 & g & pre
                         & Hseq & Hnone & Hmade & Hg & Hev & P1 & P2 & P3).
      rewrite Hloop in Hthrown. inversion Hthrown as [He]. clear Hthrown.
      split; [reflexivity|].
      exists done, chunk, rest, g, (StatusUpdate ProcessingLongText true :: pre),
        blobs, made, w1.
      simpl events. simpl requests. simpl saved. simpl opened. simpl notified.
      rewrite requests_app, opened_app, notified_app, saved_app, L1, Hmade, Hev.
      rewrite opened_app, notified_app, P2, P3.
      replace (0 + Z.of_nat (List.length done) + 1)
        with (Z.of_nat (List.length done) + 1) by lia.
      simpl. rewrite <- !app_assoc. rewrite !app_nil_r. simpl.
      repeat split; try assumption.
    + exfalso. rewrite Forall_forall in Hreq.
      destruct (Hreq c Hin) as (g & eg & Hg & _). congruence.
  - exfalso. apply Hex. destruct L3 as (X1 & _). simpl. exact X1.
Qed.

(** A long export either saves nothing, or ends by saving the blobs of all
    its chunks, fetched one after the other. *)
Lemma handleLongExport_saves (fuel : nat) (text format : jsString) (w : World) :
  1 <= CHUNK_SIZE cfg ->
  let run := handleLongExport transport cfg ui fuel text format w in
  saved (events run) = [] \/
  exists chunks blobs made pre,
    chunkText fuel text (CHUNK_SIZE cfg) = Some chunks /\
    Sequential transport cfg fuel lang w chunks blobs made (after run) /\
    events run = pre ++ [FileSave (newBlob blobs) format;
                         StatusUpdate DownloadComplete false] /\
    saved pre = [] /\ requests pre = List.concat made /\
    exhausted (events run) = 0%nat /\ caught (events run) = [] /\
    completion run = Returned tt.
Proof.
  intros Hsize run. unfold run. rewrite handleLongExport_run. cbv zeta.
  destruct (chunkText fuel text (CHUNK_SIZE cfg)) as [chunks|] eqn:Hchunks;
    [|left; reflexivity].
  pose proof (forEachChunk_shape transport cfg fuel lang
                (Z.of_nat (List.length chunks)) chunks 0 [] w
                (chunks_not_blank fuel text (CHUNK_SIZE cfg) chunks Hsize Hchunks))
    as (L1 & L2 & L3).
  set (loop := forEachChunk transport cfg fuel lang
                            (Z.of_nat (List.length chunks)) 0 chunks [] w) in *.
  destruct (completion loop) as [all|e|] eqn:Hloop.
  - right. destruct L3 as (X1 & X2 & X3 & fetched & made & Hall & Hseq & Hmade).
    simpl in Hall. subst all.
    exists chunks, fetched, made, (StatusUpdate ProcessingLongText true :: events loop).
    simpl. rewrite exhausted_app, caught_app, X1, L2. auto 10.
  - left. simpl. rewrite saved_app, L1. reflexivity.
  - left. simpl. exact L1.
Qed.

(** An export either saves nothing, or ends by saving the blobs of all its
    chunks, fetched one after the other. *)
Lemma handleExport_saves (fuel : nat) (format : jsString) (w : World) :
  1 <= CHUNK_SIZE cfg ->
  let run := handleExport transport cfg ui fuel format w in
  saved (events run) = [] \/
  exists chunks blobs made pre,
    exportChunks cfg fuel (trim (textInput_value ui)) = Some chunks /\
    Sequential transport cfg fuel lang w chunks blobs made (after run) /\
    events run = pre ++ [FileSave (newBlob blobs) format;
                         StatusUpdate DownloadComplete false] /\
    saved pre = [] /\ requests pre = List.concat made /\
    exhausted (events run) = 0%nat /\ caught (events run) = [] /\
    completion run = Returned tt.
Proof.
  intros Hsize run. unfold run. rewrite handleExport_run. cbv zeta.
  unfold exportChunks.
  destruct (length (trim (textInput_value ui)) =? 0); [left; reflexivity|].
  destruct (MAX_TEXT_LENGTH cfg <? length (trim (textInput_value ui)));
    [left; reflexivity|].
  destruct (CHUNK_SIZE cfg <? length (trim (textInput_value ui))).
  - apply handleLongExport_saves. assumption.
  - pose proof (fetchAudio_shape transport cfg fuel
                  (trim (textInput_value ui)) lang 1 0 w) as (S1 & S2 & S3).
    set (fetched := fetchAudio fuel (trim (textInput_value ui)) lang 1 0 w) in *.
    destruct (completion fetched) as [[b|]|e|] eqn:Hc.
    + right. destruct S3 as (X1 & X2 & X3 & _).
      exists [trim (textInput_value ui)], [b], [requests (events fetched)],
        (StatusUpdate PreparingDownload true :: events fetched).
      split; [reflexivity|]. split.
      { simpl after. apply Sequential_cons; [exact Hc | constructor]. }
      unfold newBlob. simpl. rewrite !app_nil_r.
      rewrite exhausted_app, caught_app, X1, S2. auto 10.
    + left. simpl. rewrite saved_app, S1. reflexivity.
    + left. simpl. rewrite saved_app, S1. reflexivity.
    + left. simpl. exact S1.
Qed.

(** C7. The blob that [handleLongExport] saves is the concatenation, in the
    order of the chunks, of one blob per chunk of [chunkText], each being
    what [fetchAudioWithRetry] returned for its chunk from the world the
    previous chunk left; all the requests of a chunk come before those of
    the next; and this holds for every network, whichever proxy serves a
    chunk after however many failures. *)
Theorem assembled_in_chunk_order (fuel : nat) (text format : jsString)
        (w : World) (blob : Blob) (ext : jsString) :
  1 <= CHUNK_SIZE cfg ->
  let run := handleLongExport transport cfg ui fuel text format w in
  In (blob, ext) (saved (events run)) ->
  ext = format /\
  exists chunks blobs made,
    chunkText fuel text (CHUNK_SIZE cfg) = Some chunks /\
    Sequential transport cfg fuel lang w chunks blobs made (after run) /\
    List.length blobs = List.length chunks /\
    blob = List.concat blobs /\
    requests (events run) = List.concat made /\
    saved (events run) = [(blob, format)].
Proof.
  intros Hsize run Hin.
  destruct (handleLongExport_saves fuel text format w Hsize)
    as [Hnone | (chunks & blobs & made & pre & Hchunks & Hseq & Hev & Hpre
                 & Hreq & _)]; fold run in Hnone || fold run in Hseq, Hev.
  - rewrite Hnone in Hin. destruct Hin.
  - rewrite Hev, saved_app, Hpre in Hin. simpl in Hin.
    destruct Hin as [Heq | []]. inversion Heq. subst.
    split; [reflexivity|]. exists chunks, blobs, made.
    destruct (Sequential_lengths transport cfg fuel lang w (after run)
                                 chunks blobs made Hseq) as (Hlen & _).
    rewrite Hev, requests_app, saved_app, Hpre, Hreq. simpl.
    rewrite app_nil_r. auto 10.
Qed.

(** C10. An export saves at most one file; it saves none when a ladder was
    given up or when an error reached its [catch] block; and the file it
    saves comes last, after every request, and holds the blobs of all the
    chunks of the export, each of them fetched. *)
Theorem save_all_or_nothing (fuel : nat) (format : jsString) (w : World) :
  1 <= CHUNK_SIZE cfg ->
  let run := handleExport transport cfg ui fuel format w in
  (List.length (saved (events run)) <= 1)%nat /\
  (exhausted (events run) <> 0%nat \/ caught (events run) <> [] ->
   saved (events run) = []) /\
  (forall blob ext,
      In (blob, ext) (saved (events run)) ->
      ext = format /\
      exists chunks blobs made pre,
        exportChunks cfg fuel (trim (textInput_value ui)) = Some chunks /\
        Sequential transport cfg fuel lang w chunks blobs made (after run) /\
        List.length blobs = List.length chunks /\
        blob = newBlob blobs /\
        events run = pre ++ [FileSave blob format;
                             StatusUpdate DownloadComplete false] /\
        saved pre = [] /\ requests pre = requests (events run)).
Proof.
  intros Hsize run.
  destruct (handleExport_saves fuel format w Hsize)
    as [Hnone | (chunks & blobs & made & pre & Hchunks & Hseq & Hev & Hpre
                 & Hreq & Hex & Hcaught & _)];
    fold run in Hnone || fold run in Hseq, Hev, Hex, Hcaught.
  - rewrite Hnone. simpl. split; [lia|]. split; [reflexivity|].
    intros blob ext [].
  - assert (Hsaved : saved (events run) = [(newBlob blobs, format)]).
    { rewrite Hev, saved_app, Hpre. reflexivity. }
    rewrite Hsaved. simpl. split; [lia|]. split.
    + intros [H | H]; congruence.
    + intros blob ext [Heq | []]. inversion Heq. subst.
      split; [reflexivity|]. exists chunks, blobs, made, pre.
      destruct (Sequential_lengths transport cfg fuel lang w (after run)
                                   chunks blobs made Hseq) as (Hlen & _).
      rewrite Hev at 2. rewrite requests_app. simpl. rewrite app_nil_r.
      auto 10.
Qed.

End PipelineProperties.

(* ------------------------------------------------------------------ *)
(** ** The properties at concrete inputs *)
(* ------------------------------------------------------------------ *)

Section Witnesses.

Lemma requestable_sound (cfg : Config) (text language : jsString) :
  requestable cfg text language = true -> Requestable cfg text language.
Proof.
  unfold requestable, Requestable.
  destruct (targetUrl cfg text language) as [g|]; [|discriminate].
  destruct (encodeURIComponent g) as [e|] eqn:He; [|discriminate].
  intros _. exists g, e. auto.
Qed.

Lemma every_attempt_fails_witness :
  let run := fetchAudioWithRetry always503 CONFIG 6 (lit "hello") (lit "en")
                                 1 0 0%nat in
  completion run = Returned None /\ attempts run = 6.
Proof.
  destruct (every_attempt_fails always503 CONFIG (lit "hello") (lit "en")
                                6 0%nat) as (H1 & H2 & _).
  - vm_compute. discriminate.
  - vm_compute. discriminate.
  - apply requestable_sound. vm_compute. reflexivity.
  - vm_compute. discriminate.
  - intros w' url. eexists. reflexivity.
  - split; [exact H1 | exact H2].
Defined.

(** A chunk that ends inside a surrogate pair is outside the theorems on the
    ladder: [encodeURIComponent] throws in the [try] block before any
    request, and again in the [catch] block before the tab is opened. *)
Remark unencodable_chunk_is_never_requested :
  let run := fetchAudioWithRetry always503 CONFIG 6 [55357] (lit "en")
                                 1 0 0%nat in
  requestable CONFIG [55357] (lit "en") = false /\
  completion run = Thrown URIError /\
  requests (events run) = [] /\ opened (events run) = [].
Proof. vm_compute. repeat split. Qed.

(** C2 (evaluation at the failing input). The second chunk that [chunkText]
    makes of the well-formed text [splitPair] ends with the first half of a
    surrogate pair. With every proxy answering 503, the call on this chunk
    walks the ladder without one request instead of six, gives it up
    without opening a tab or notifying the user, and throws [URIError]
    instead of returning [null]. *)
Theorem split_pair_defeats_the_ladder :
  let run := fetchAudioWithRetry always503 CONFIG 6 loneLead (lit "en")
                                 1 0 0%nat in
  chunkText 420 splitPair (CHUNK_SIZE CONFIG)
  = Some [repeat 120 200; loneLead; 56832 :: repeat 98 10] /\
  completion run = Thrown URIError /\
  attempts run = 0 /\ exhausted (events run) = 1%nat /\
  opened (events run) = [] /\ notified (events run) = [].
Proof. vm_compute. repeat split. Qed.

(** C5 (evaluation at the failing input). The export of [splitPair] over a
    network that answers every request: the first chunk is fetched with one
    request; the ladder of the second chunk, which ends inside the
    surrogate pair, is given up without a request; no tab is opened and the
    notification of the fallback is not shown; the [catch] block of the
    export shows its own, nothing is saved and the call returns. *)
Theorem split_pair_aborts_without_fallback :
  let run := handleLongExport (flaky []) CONFIG splitPage 420 splitPair
                              (lit "mp3") 0%nat in
  completion run = Returned tt /\
  exhausted (events run) = 1%nat /\
  opened (events run) = [] /\
  notified (events run) = [FailedLongText] /\
  List.length (requests (events run)) = 1%nat /\
  saved (events run) = [].
Proof. vm_compute. repeat split. Qed.

Lemma failures_feed_the_ladder_witness :
  outcomeOf reply503 = inl (HttpError 503 (lit "Service Unavailable")).
Proof.
  destruct (failures_feed_the_ladder always503 CONFIG reply503)
    as (_ & _ & H & _).
  apply (H {| status := 503; statusText := lit "Service Unavailable";
              body := BodyBlob [] |}); reflexivity.
Defined.


Lemma story_chunks :
  chunkText 460 story (CHUNK_SIZE CONFIG)
  = Some [paragraph 4; paragraph 4; paragraph 2].
Proof. vm_compute. reflexivity. Qed.

Lemma exhaustion_aborts_export_witness :
  let run := handleLongExport (flaky [1; 2; 3; 4; 5; 6]%nat) CONFIG page 460
                              story (lit "mp3") 0%nat in
  completion run = Returned tt /\
  List.length (opened (events run)) = 1%nat /\
  List.length (requests (events run)) = 7%nat.
Proof.
  destruct (exhaustion_aborts_export (flaky [1; 2; 3; 4; 5; 6]%nat) CONFIG page
              460 story (lit "mp3") 0%nat
              [paragraph 4; paragraph 4; paragraph 2])
    as (H1 & done & chunk & rest & g & pre & blobs & made & w1 & _ & _ & _ & _
        & _ & _ & _ & _ & _ & H2 & _).
  - vm_compute. discriminate.
  - exact story_chunks.
  - repeat constructor; apply requestable_sound; vm_compute; reflexivity.
  - vm_compute. discriminate.
  - split; [exact H1|]. split; [cbv zeta; rewrite H2; reflexivity|].
    vm_compute. reflexivity.
Defined.

Lemma assembled_in_chunk_order_witness :
  let run := handleLongExport (flaky [1; 2]%nat) CONFIG page 460 story
                              (lit "mp3") 0%nat in
  saved (events run) = [([1; 4; 5], lit "mp3")].
Proof.
  destruct (assembled_in_chunk_order (flaky [1; 2]%nat) CONFIG page 460 story
              (lit "mp3") 0%nat [1; 4; 5] (lit "mp3"))
    as (_ & chunks & blobs & made & _ & _ & _ & _ & _ & H).
  - vm_compute. discriminate.
  - vm_compute. left. reflexivity.
  - exact H.
Defined.

Lemma save_all_or_nothing_witness :
  let run := handleExport (flaky [1; 2; 3; 4; 5; 6]%nat) CONFIG page 460
                          (lit "mp3") 0%nat in
  saved (events run) = [].
Proof.
  destruct (save_all_or_nothing (flaky [1; 2; 3; 4; 5; 6]%nat) CONFIG page 460
                                (lit "mp3") 0%nat) as (_ & H & _).
  - vm_compute. discriminate.
  - apply H. left. vm_compute. discriminate.
Defined.

End Witnesses.

(* ------------------------------------------------------------------ *)
(** ** Further properties of [chunkText] *)
(* ------------------------------------------------------------------ *)

Section ChunkerEdges.

Lemma trimStart_blank (w : jsString) : blank w -> trimStart w = [].
Proof.
  induction 1 as [|c r Hc _ IH]; simpl; [reflexivity|]. rewrite Hc. exact IH.
Qed.

Lemma trim_blank (w : jsString) : blank w -> trim w = [].
Proof. intros H. unfold trim. rewrite (trimStart_blank w H). reflexivity. Qed.

Lemma trim_nil_blank (s : jsString) : trim s = [] -> blank s.
Proof.
  unfold trim. intros H.
  destruct (trimStart_split s) as (w & Hw & Es).
  destruct (trimEnd_split (trimStart s)) as (w' & Hw' & Et).
  rewrite H in Et. simpl in Et. rewrite Es, Et.
  apply Forall_app. split; assumption.
Qed.

(** X1. Short input. A text of white space only gives no chunk, whatever the
    bound; a text whose trimmed form is not empty and fits the bound gives
    that trimmed form as its only chunk; and with a bound of at least one,
    only a text of white space gives no chunk. *)
Theorem chunkText_short_input (fuel : nat) (text : jsString) (maxSize : Z) :
  (blank text -> chunkText (S fuel) text maxSize = Some []) /\
  (trim text <> [] -> length (trim text) <= maxSize ->
   chunkText (S fuel) text maxSize = Some [trim text]) /\
  (1 <= maxSize -> chunkText (S fuel) text maxSize = Some [] -> blank text).
Proof.
  split; [|split].
  - intros H. unfold chunkText. rewrite (trim_blank text H). reflexivity.
  - intros Hne Hfit. unfold chunkText. simpl. unfold iteration.
    destruct (Z.ltb_spec 0 (length (trim text))) as [_|Hz]; simpl.
    + destruct (Z.leb_spec (length (trim text)) maxSize); [reflexivity|lia].
    + destruct (trim text); [congruence|].
      unfold length in Hz. simpl in Hz. lia.
  - intros Hm H.
    destruct (chunkText_weaves (S fuel) text maxSize [] Hm H)
      as ((gaps & _ & _ & Hw) & _).
    simpl in Hw. apply trim_nil_blank. symmetry. exact Hw.
Qed.

Lemma chunkText_short_input_witness :
  chunkText 1 (lit "  hello ") 200 = Some [lit "hello"].
Proof.
  destruct (chunkText_short_input 0 (lit "  hello ") 200) as (_ & H & _).
  apply H; vm_compute; discriminate.
Defined.

(** X2. With a bound of at least one, every chunk is a string that [trim]
    leaves unchanged and is not empty: the test [if (!chunk.trim()) continue]
    of [handleLongExport] never skips a chunk of [chunkText]. *)
Theorem chunks_are_trimmed (fuel : nat) (text : jsString) (maxSize : Z)
        (chunks : list jsString) :
  1 <= maxSize -> chunkText fuel text maxSize = Some chunks ->
  Forall (fun chunk => trim chunk = chunk /\ chunk <> []) chunks.
Proof.
  intros Hm H.
  destruct (chunkText_weaves fuel text maxSize chunks Hm H) as (_ & Hall).
  eapply Forall_impl; [|exact Hall]. simpl. intros c (Ht & Hne).
  split; [apply Trimmed_trim; assumption | assumption].
Qed.

Lemma chunks_are_trimmed_witness :
  Forall (fun chunk => trim chunk = chunk /\ chunk <> [])
         [lit "one"; lit "two"; lit "three"].
Proof.
  apply (chunks_are_trimmed 14 (lit "one two three") 5); [lia|].
  vm_compute. reflexivity.
Defined.

Lemma firstn_snoc (l : jsString) (n : nat) (x : codeUnit) :
  nth_error l n = Some x -> firstn (S n) l = firstn n l ++ [x].
Proof.
  revert l. induction n as [|n IH]; intros [|y l] H; try discriminate.
  - simpl in H. inversion H. reflexivity.
  - simpl in H. rewrite (firstn_cons (S n)), (firstn_cons n), (IH l H).
    reflexivity.
Qed.

Lemma trimStart_app (x y : jsString) :
  trimStart x <> [] -> trimStart (x ++ y) = trimStart x ++ y.
Proof.
  induction x as [|c x IH]; simpl; [congruence|].
  destruct (isWhiteSpace c); [exact IH | reflexivity].
Qed.

(** A trailing white space does not count. *)
Lemma trim_snoc_length (x : jsString) (g : codeUnit) :
  isWhiteSpace g = true ->
  (List.length (trim (x ++ [g])) <= List.length x)%nat.
Proof.
  intros Hg. unfold trim.
  destruct (trimStart x) as [|c t] eqn:Hx.
  - assert (Hb : blank (x ++ [g])).
    { apply Forall_app. split.
      - destruct (trimStart_split x) as (w & Hw & Ex).
        rewrite Hx, app_nil_r in Ex. subst. assumption.
      - constructor; [assumption | constructor]. }
    rewrite (trimStart_blank _ Hb). simpl. lia.
  - rewrite trimStart_app by (rewrite Hx; discriminate).
    rewrite trimEnd_app. simpl (trimEnd [g]). rewrite Hg.
    pose proof (trimEnd_length (trimStart x)).
    pose proof (trimStart_length x). lia.
Qed.

(** The chunk of a pass that goes on has at most [maxSize + 1] code
    units. *)
Lemma iteration_chunk_bound (remaining : jsString) (maxSize : Z)
      (chunk remaining' : jsString) :
  0 <= maxSize ->
  iteration remaining maxSize = PushContinue chunk remaining' ->
  length chunk <= maxSize + 1.
Proof.
  intros Hm H. apply iteration_continue in H.
  destruct H as (Hne & Hlen & -> & _).
  destruct (sentenceCut_cases remaining maxSize)
    as [Hcut | (e & Hin & Hidx & Hcut)].
  - rewrite (cutIndexOf_fallback remaining maxSize Hcut).
    pose proof (lastIndexOf_lower remaining [SPACE] maxSize) as Hlow.
    assert (Hup : lastIndexOf remaining [SPACE] maxSize <= maxSize).
    { destruct (lastIndexOf_found remaining [SPACE] maxSize Hm) as [E|[E _]];
        lia. }
    set (sp := lastIndexOf remaining [SPACE] maxSize) in *.
    assert (Hc : 0 <= (if (sp =? -1) || (sp =? 0) then maxSize else sp)
                 <= maxSize) by (repeat case_eqb; lia).
    set (cut := if (sp =? -1) || (sp =? 0) then maxSize else sp) in *.
    rewrite substring_prefix by lia.
    pose proof (trim_length (firstn (Z.to_nat (Z.min cut (length remaining)))
                                    remaining)) as Ht.
    rewrite length_firstn in Ht. unfold length in *. lia.
  - rewrite cutIndexOf_sentence by lia. rewrite Hcut.
    destruct (lastIndexOf_found remaining e maxSize Hm) as [E|[E Hocc]]; [lia|].
    set (idx := lastIndexOf remaining e maxSize) in *.
    destruct (ender_shape e Hin) as (mark & gap & -> & _ & Hgap).
    apply occursAt_pair in Hocc. destruct Hocc as [_ Hsnd].
    assert (Hin2 : (S (Z.to_nat idx) < List.length remaining)%nat).
    { apply nth_error_Some. congruence. }
    rewrite substring_prefix by lia.
    replace (Z.to_nat (Z.min (idx + 2) (length remaining)))
      with (S (S (Z.to_nat idx))) by (unfold length; lia).
    rewrite (firstn_snoc remaining (S (Z.to_nat idx)) gap Hsnd).
    pose proof (trim_snoc_length (firstn (S (Z.to_nat idx)) remaining) gap Hgap)
      as Ht.
    rewrite length_firstn in Ht. unfold length. lia.
Qed.

Lemma chunkLoop_bound (fuel : nat) (maxSize : Z) (remaining : jsString)
      (result : list jsString) :
  0 <= maxSize ->
  chunkLoop fuel maxSize [] remaining = Some result ->
  Forall (fun chunk => length chunk <= maxSize + 1) result.
Proof.
  intros Hm. revert remaining result.
  induction fuel as [|fuel IH]; intros r result; [discriminate|]. simpl.
  destruct (iteration r maxSize) as [|chunk|chunk r'] eqn:Hit.
  - intros H. inversion H. constructor.
  - intros H. inversion H. subst result. unfold iteration in Hit.
    destruct (0 <? length r); simpl in Hit; [|discriminate].
    destruct (Z.leb_spec (length r) maxSize); [|discriminate].
    inversion Hit. subst chunk. constructor; [lia | constructor].
  - rewrite chunkLoop_accumulates.
    destruct (chunkLoop fuel maxSize [] r') as [rest|] eqn:Hrest;
      [|discriminate].
    simpl. intros H. inversion H. subst result.
    constructor; [|apply (IH r' rest Hrest)].
    apply (iteration_chunk_bound r maxSize chunk r' Hm Hit).
Qed.

(** X3. No chunk has more than [maxSize + 1] code units: the bound of
    [chunkText] can be passed, by one code unit and no more. *)
Theorem chunk_length_bound (fuel : nat) (text : jsString) (maxSize : Z)
        (chunks : list jsString) :
  0 <= maxSize -> chunkText fuel text maxSize = Some chunks ->
  Forall (fun chunk => length chunk <= maxSize + 1) chunks.
Proof. intros Hm H. apply (chunkLoop_bound fuel maxSize (trim text)); assumption. Qed.

Lemma chunk_length_bound_witness :
  Forall (fun chunk => length chunk <= 200 + 1)
         [repeat 97 200 ++ [FULL_STOP]; lit "b"].
Proof.
  apply (chunk_length_bound 204 longSentence 200); [lia|].
  vm_compute. reflexivity.
Defined.

Lemma lastIndexOf_at_start (s search : jsString) (position : Z) :
  position <= 0 ->
  lastIndexOf s search position = if occursAt s search 0 then 0 else -1.
Proof.
  intros Hp. unfold lastIndexOf. pose proof (length_nonneg s).
  replace (Z.to_nat (Z.min (Z.max position 0) (length s))) with 0%nat by lia.
  reflexivity.
Qed.

(** With a bound that is not positive, a pass on a trimmed remainder that
    does not start with a sentence ender pushes the empty string and keeps
    the remainder. *)
Lemma iteration_stuck (remaining : jsString) (maxSize : Z) :
  maxSize <= 0 -> remaining <> [] -> Trimmed remaining ->
  ~ enderAt remaining 0 ->
  iteration remaining maxSize = PushContinue [] remaining.
Proof.
  intros Hm Hne Ht Hend.
  assert (Hlen : 0 < length remaining).
  { destruct remaining; [congruence | unfold length; simpl; lia]. }
  assert (Hcut : sentenceCut remaining maxSize = -1).
  { destruct (sentenceCut_cases remaining maxSize)
      as [H | (e & Hin & Hidx & _)]; [assumption | exfalso].
    rewrite (lastIndexOf_at_start remaining e maxSize Hm) in Hidx.
    destruct (occursAt remaining e 0) eqn:Hocc; [|lia].
    apply Hend. split; [lia|]. exists e. auto. }
  assert (Hc : cutIndexOf remaining maxSize = maxSize).
  { rewrite (cutIndexOf_fallback remaining maxSize Hcut).
    rewrite (lastIndexOf_at_start remaining [SPACE] maxSize Hm).
    destruct (occursAt remaining [SPACE] 0); reflexivity. }
  unfold iteration. rewrite Hc.
  destruct (Z.ltb_spec 0 (length remaining)); [|lia]. simpl.
  destruct (Z.leb_spec (length remaining) maxSize); [lia|].
  assert (Hpre : substring remaining 0 maxSize = []).
  { unfold substring, clamp.
    replace (Z.to_nat (Z.max (Z.min (Z.max 0 0) (length remaining))
                             (Z.min (Z.max maxSize 0) (length remaining))
                       - Z.min (Z.min (Z.max 0 0) (length remaining))
                               (Z.min (Z.max maxSize 0) (length remaining))))
      with 0%nat by lia.
    reflexivity. }
  assert (Hsuf : substringFrom remaining maxSize = remaining).
  { unfold substringFrom, substring, clamp.
    replace (Z.to_nat (Z.min (Z.min (Z.max maxSize 0) (length remaining))
                             (Z.min (Z.max (length remaining) 0)
                                    (length remaining))))
      with 0%nat by lia.
    replace (Z.to_nat (Z.max (Z.min (Z.max maxSize 0) (length remaining))
                             (Z.min (Z.max (length remaining) 0)
                                    (length remaining))
                       - Z.min (Z.min (Z.max maxSize 0) (length remaining))
                               (Z.min (Z.max (length remaining) 0)
                                      (length remaining))))
      with (List.length remaining) by (unfold length; lia).
    simpl. apply firstn_all. }
  rewrite Hpre, Hsuf, (Trimmed_trim remaining Ht). reflexivity.
Qed.

(** X4. With a bound that is not positive, [chunkText] does not return on a
    text whose trimmed form is not empty and does not start with a sentence
    ender: every pass pushes an empty chunk and leaves the remainder as it
    was, so no number of passes ends the loop. *)
Theorem chunkText_hangs (text : jsString) (maxSize : Z) :
  maxSize <= 0 -> trim text <> [] -> ~ enderAt (trim text) 0 ->
  forall fuel, chunkText fuel text maxSize = None.
Proof.
  intros Hm Hne Hend fuel. unfold chunkText.
  pose proof (iteration_stuck (trim text) maxSize Hm Hne (trim_Trimmed text) Hend)
    as Hit.
  generalize (@nil jsString).
  induction fuel as [|fuel IH]; intros acc; [reflexivity|].
  simpl. rewrite Hit. apply IH.
Qed.

Lemma chunkText_hangs_witness :
  chunkText 1000 (lit "abc") 0 = None.
Proof.
  apply (chunkText_hangs (lit "abc") 0); [lia | vm_compute; discriminate |].
  intros (_ & e & Hin & Hocc). simpl in Hin.
  destruct Hin as [<-|[<-|[<-|[<-|[<-|[<-|[]]]]]]];
    vm_compute in Hocc; discriminate.
Defined.

End ChunkerEdges.

(* ------------------------------------------------------------------ *)
(** ** Properties of the request URLs *)
(* ------------------------------------------------------------------ *)

Section UrlFacts.

Lemma isUnreserved_range (c : codeUnit) :
  isUnreserved c = true -> 33 <= c <= 126.
Proof.
  intros H.
  destruct (Z.lt_ge_cases c 33) as [Hlo|Hlo].
  - exfalso. revert H. unfold isUnreserved. settle_tests. discriminate.
  - destruct (Z.lt_ge_cases 126 c) as [Hhi|Hhi]; [|lia].
    exfalso. revert H. unfold isUnreserved. settle_tests. discriminate.
Qed.

Lemma isUriSafe_not_surrogate (c : codeUnit) :
  isUriSafe c = true -> isSurrogate c = false.
Proof.
  unfold isUriSafe, PERCENT. intros H. apply orb_true_iff in H.
  assert (Hr : 33 <= c <= 126).
  { destruct H as [H|H]; [apply isUnreserved_range; assumption|].
    apply Z.eqb_eq in H. lia. }
  unfold isSurrogate, isLeadSurrogate, isTrailSurrogate. settle_tests.
  reflexivity.
Qed.

Lemma hexDigit_safe (x : Z) : 0 <= x < 16 -> isUriSafe (hexDigit x) = true.
Proof.
  intros H.
  assert (E : x = 0 \/ x = 1 \/ x = 2 \/ x = 3 \/ x = 4 \/ x = 5 \/ x = 6 \/
              x = 7 \/ x = 8 \/ x = 9 \/ x = 10 \/ x = 11 \/ x = 12 \/
              x = 13 \/ x = 14 \/ x = 15) by lia.
  repeat (destruct E as [->|E]; [reflexivity|]). subst. reflexivity.
Qed.

Lemma percent_safe (octet : Z) :
  0 <= octet < 256 -> Forall (fun c => isUriSafe c = true) (percent octet).
Proof.
  intros H. unfold percent. repeat constructor.
  - apply hexDigit_safe. Z.div_mod_to_equations. lia.
  - apply hexDigit_safe. Z.div_mod_to_equations. lia.
Qed.

Lemma utf8_octets (cp : Z) :
  0 <= cp < 1114112 -> Forall (fun octet => 0 <= octet < 256) (utf8 cp).
Proof.
  intros H. unfold utf8.
  destruct (Z.ltb_spec cp 128); [repeat constructor; lia|].
  destruct (Z.ltb_spec cp 2048);
    [repeat constructor; Z.div_mod_to_equations; lia|].
  destruct (Z.ltb_spec cp 65536);
    repeat constructor; Z.div_mod_to_equations; lia.
Qed.

Lemma escape_safe (cp : Z) :
  0 <= cp < 1114112 -> Forall (fun c => isUriSafe c = true) (escape cp).
Proof.
  intros H. unfold escape. pose proof (utf8_octets cp H) as Ho.
  induction Ho as [|o l Ho _ IH]; cbn [flat_map]; [constructor|].
  apply Forall_app. split; [apply percent_safe; assumption | exact IH].
Qed.

Lemma encode_safe_bounded (n : nat) :
  forall (s q : jsString),
    (List.length s <= n)%nat ->
    Forall (fun c => is16bit c = true) s ->
    encodeURIComponent s = Some q ->
    Forall (fun c => isUriSafe c = true) q.
Proof.
  induction n as [|n IH]; intros s q Hlen H16 Henc.
  - destruct s; [|simpl in Hlen; lia]. simpl in Henc. inversion Henc.
    constructor.
  - destruct s as [|c r]; [simpl in Henc; inversion Henc; constructor|].
    inversion H16 as [|? ? Hc Hr]; subst.
    unfold is16bit in Hc. apply andb_true_iff in Hc.
    destruct Hc as [Hc0 Hc1]. apply Z.leb_le in Hc0. apply Z.ltb_lt in Hc1.
    simpl in Hlen. cbn [encodeURIComponent] in Henc.
    destruct (isUnreserved c) eqn:Hu.
    + destruct (encodeURIComponent r) as [q'|] eqn:Er; [|discriminate].
      simpl in Henc. inversion Henc. subst q. constructor.
      * unfold isUriSafe. rewrite Hu. reflexivity.
      * apply (IH r q'); [lia | assumption | assumption].
    + destruct (isLeadSurrogate c) eqn:Hl.
      * destruct r as [|d r']; [discriminate|].
        destruct (isTrailSurrogate d) eqn:Ht; [|discriminate].
        destruct (encodeURIComponent r') as [q'|] eqn:Er; [|discriminate].
        simpl in Henc. inversion Henc. subst q.
        unfold isLeadSurrogate in Hl. unfold isTrailSurrogate in Ht.
        apply andb_true_iff in Hl. apply andb_true_iff in Ht.
        destruct Hl as [L0 L1]. destruct Ht as [T0 T1].
        apply Z.leb_le in L0, L1, T0, T1.
        apply Forall_app. split; [apply escape_safe; lia|].
        inversion Hr; subst. simpl in Hlen.
        apply (IH r' q'); [lia | assumption | assumption].
      * destruct (isTrailSurrogate c); [discriminate|].
        destruct (encodeURIComponent r) as [q'|] eqn:Er; [|discriminate].
        simpl in Henc. inversion Henc. subst q.
        apply Forall_app. split; [apply escape_safe; lia|].
        apply (IH r q'); [lia | assumption | assumption].
Qed.

(** What [encodeURIComponent] returns for a string of sixteen-bit code
    units holds unreserved characters and percent signs only. *)
Lemma encode_safe (s q : jsString) :
  Forall (fun c => is16bit c = true) s ->
  encodeURIComponent s = Some q ->
  Forall (fun c => isUriSafe c = true) q.
Proof. apply (encode_safe_bounded (List.length s)). lia. Qed.

(** [encodeURIComponent] accepts every string without surrogates. *)
Lemma encode_total (s : jsString) :
  Forall (fun c => isSurrogate c = false) s ->
  exists q, encodeURIComponent s = Some q.
Proof.
  induction 1 as [|c r Hc _ (q & IH)]; [exists []; reflexivity|].
  unfold isSurrogate in Hc. apply orb_false_iff in Hc. destruct Hc as [Hl Ht].
  cbn [encodeURIComponent]. rewrite Hl, Ht, IH.
  destruct (isUnreserved c); simpl; eexists; reflexivity.
Qed.

Lemma lit_query_not_surrogate :
  Forall (fun c => isSurrogate c = false) (lit "?ie=UTF-8&tl=") /\
  Forall (fun c => isSurrogate c = false) (lit "&client=tw-ob&q=").
Proof. split; repeat constructor. Qed.

End UrlFacts.

Section UrlProperties.

Variable cfg : Config.

(** A target URL built from an encoded text and an encoded language is
    accepted by [encodeURIComponent] again. *)
Lemma target_url_encodable (text language q tl : jsString) :
  Forall (fun c => isSurrogate c = false) (TTS_BASE_URL cfg) ->
  Forall (fun c => is16bit c = true) text ->
  Forall (fun c => is16bit c = true) language ->
  encodeURIComponent text = Some q ->
  encodeURIComponent language = Some tl ->
  exists encoded,
    encodeURIComponent (TTS_BASE_URL cfg ++ lit "?ie=UTF-8&tl=" ++ tl
                          ++ lit "&client=tw-ob&q=" ++ q) = Some encoded.
Proof.
  intros Hbase Ht Hl Eq El.
  destruct lit_query_not_surrogate as (Q1 & Q2).
  apply encode_total.
  repeat (apply Forall_app; split); try assumption.
  - eapply Forall_impl; [|exact (encode_safe language tl Hl El)].
    intros c. apply isUriSafe_not_surrogate.
  - eapply Forall_impl; [|exact (encode_safe text q Ht Eq)].
    intros c. apply isUriSafe_not_surrogate.
Qed.

(** X5. With a base URL free of surrogates, the two URLs of a request can be
    built exactly when [encodeURIComponent] accepts the text and the language
    (both of sixteen-bit code units): the target URL is then already encoded
    text, which [encodeURIComponent] accepts again. *)
Theorem requestable_iff_encodable (text language : jsString) :
  Forall (fun c => isSurrogate c = false) (TTS_BASE_URL cfg) ->
  Forall (fun c => is16bit c = true) text ->
  Forall (fun c => is16bit c = true) language ->
  (Requestable cfg text language <->
   encodeURIComponent text <> None /\ encodeURIComponent language <> None).
Proof.
  intros Hbase Ht Hl. unfold Requestable, targetUrl. split.
  - intros (g & eg & Hg & _).
    destruct (encodeURIComponent language); [|discriminate].
    destruct (encodeURIComponent text); [|discriminate].
    split; discriminate.
  - intros (Htext & Hlang).
    destruct (encodeURIComponent language) as [tl|] eqn:El; [|congruence].
    destruct (encodeURIComponent text) as [q|] eqn:Eq; [|congruence].
    destruct (target_url_encodable text language q tl Hbase Ht Hl Eq El)
      as (eg & Heg).
    eexists. exists eg. split; [reflexivity | exact Heg].
Qed.

(** X6. A text of sixteen-bit code units with no surrogate among them can
    always be requested, in a language of the same kind. *)
Theorem plain_text_is_requestable (text language : jsString) :
  Forall (fun c => isSurrogate c = false) (TTS_BASE_URL cfg) ->
  Forall (fun c => is16bit c = true) text ->
  Forall (fun c => is16bit c = true) language ->
  Forall (fun c => isSurrogate c = false) text ->
  Forall (fun c => isSurrogate c = false) language ->
  Requestable cfg text language.
Proof.
  intros Hbase Ht Hl Hst Hsl.
  destruct (encode_total text Hst) as (q & Eq).
  destruct (encode_total language Hsl) as (tl & El).
  destruct (target_url_encodable text language q tl Hbase Ht Hl Eq El)
    as (eg & Heg).
  unfold Requestable, targetUrl. rewrite El, Eq.
  eexists. exists eg. split; [reflexivity | exact Heg].
Qed.

(** X7. The target URL is the base URL, the fixed parameters, and the encoded
    language and text; for sixteen-bit code units the two encoded parts hold
    unreserved characters and percent signs only, so the text adds no [&],
    [=], [#] or [?] to the URL. *)
Theorem target_url_shape (text language url : jsString) :
  Forall (fun c => is16bit c = true) text ->
  Forall (fun c => is16bit c = true) language ->
  targetUrl cfg text language = Some url ->
  exists tl q,
    url = TTS_BASE_URL cfg ++ lit "?ie=UTF-8&tl=" ++ tl
            ++ lit "&client=tw-ob&q=" ++ q /\
    encodeURIComponent language = Some tl /\
    encodeURIComponent text = Some q /\
    Forall (fun c => isUriSafe c = true) tl /\
    Forall (fun c => isUriSafe c = true) q.
Proof.
  intros Ht Hl. unfold targetUrl.
  destruct (encodeURIComponent language) as [tl|] eqn:El; [|discriminate].
  destruct (encodeURIComponent text) as [q|] eqn:Eq; [|discriminate].
  intros H. inversion H. exists tl, q.
  repeat split; try reflexivity.
  - apply (encode_safe language tl Hl El).
  - apply (encode_safe text q Ht Eq).
Qed.

End UrlProperties.

Section UrlWitnesses.

Lemma forallb_Forall (f : codeUnit -> bool) (s : jsString) :
  forallb f s = true -> Forall (fun c => f c = true) s.
Proof. intros H. apply Forall_forall. apply forallb_forall. exact H. Qed.

Lemma forallb_Forall_false (f : codeUnit -> bool) (s : jsString) :
  forallb (fun c => negb (f c)) s = true -> Forall (fun c => f c = false) s.
Proof.
  intros H. apply Forall_forall. intros c Hc.
  rewrite forallb_forall in H. specialize (H c Hc).
  apply negb_true_iff. exact H.
Qed.

Lemma requestable_iff_encodable_witness :
  Requestable CONFIG [104; 105; 32; 55357; 56832] (lit "en") <->
  encodeURIComponent [104; 105; 32; 55357; 56832] <> None /\
  encodeURIComponent (lit "en") <> None.
Proof.
  apply requestable_iff_encodable.
  - apply forallb_Forall_false. vm_compute. reflexivity.
  - apply forallb_Forall. vm_compute. reflexivity.
  - apply forallb_Forall. vm_compute. reflexivity.
Defined.

Lemma plain_text_is_requestable_witness :
  Requestable CONFIG (lit "Hello, world!") (lit "en").
Proof.
  apply plain_text_is_requestable.
  - apply forallb_Forall_false. vm_compute. reflexivity.
  - apply forallb_Forall. vm_compute. reflexivity.
  - apply forallb_Forall. vm_compute. reflexivity.
  - apply forallb_Forall_false. vm_compute. reflexivity.
  - apply forallb_Forall_false. vm_compute. reflexivity.
Defined.

Lemma target_url_shape_witness :
  exists tl q,
    lit "https://translate.google.com/translate_tts?ie=UTF-8&tl=en&client=tw-ob&q=a%26b"
    = TTS_BASE_URL CONFIG ++ lit "?ie=UTF-8&tl=" ++ tl
        ++ lit "&client=tw-ob&q=" ++ q /\
    encodeURIComponent (lit "en") = Some tl /\
    encodeURIComponent (lit "a&b") = Some q /\
    Forall (fun c => isUriSafe c = true) tl /\
    Forall (fun c => isUriSafe c = true) q.
Proof.
  apply (target_url_shape CONFIG (lit "a&b") (lit "en")).
  - apply forallb_Forall. vm_compute. reflexivity.
  - apply forallb_Forall. vm_compute. reflexivity.
  - vm_compute. reflexivity.
Defined.

End UrlWitnesses.

(* ------------------------------------------------------------------ *)
(** ** Further properties of the export pipeline *)
(* ------------------------------------------------------------------ *)

Section PipelineEdges.

Context {World : Type}.
Variable transport : World -> jsString -> Reply * World.
Variable cfg : Config.
Variable ui : UI.

Local Abbreviation fetchAudio := (fetchAudioWithRetry transport cfg).
Local Abbreviation k := (proxyCount cfg).
Local Abbreviation r := (RETRY_ATTEMPTS cfg).
Local Abbreviation lang := (shortLang ui).

Lemma attempts_prepend {A} (evs : list Event) (run : Run World A) :
  attempts (prepend evs run)
  = Z.of_nat (List.length (requests evs)) + attempts run.
Proof.
  unfold attempts. rewrite events_prepend, requests_app, length_app. lia.
Qed.

Lemma directFallback_quiet (text language : jsString) (w : World) :
  requests (events (directFallback cfg text language w)) = [] /\
  completion (directFallback cfg text language w) <> Unfinished.
Proof.
  rewrite directFallback_run.
  destruct (targetUrl cfg text language); simpl; split;
    (reflexivity || discriminate).
Qed.

(** The requests of the try block: one, or none when a URL cannot be
    built. *)
Lemma attemptFetch_requests (text language : jsString) (proxyIndex : Z)
      (w : World) :
  let tried := attemptFetch transport cfg text language proxyIndex w in
  (List.length (requests (events tried)) <= 1)%nat /\
  (targetUrl cfg text language = None ->
   completion tried = Thrown URIError /\ events tried = [] /\ after tried = w).
Proof.
  cbv zeta. rewrite attemptFetch_run.
  destruct (targetUrl cfg text language) as [g|]; simpl.
  - destruct (proxiedUrl cfg proxyIndex g) as [u|]; simpl.
    + destruct (outcomeOf (fst (transport w u))); simpl;
        repeat split; try lia; try discriminate.
    + repeat split; try lia; discriminate.
  - repeat split; try lia; discriminate.
Qed.

(** From any rung in range, for every text, every network and every
    depth of recursion: no more requests than rungs are left. *)
Lemma ladder_general (text language : jsString) (fuel : nat) :
  forall (attempt proxyIndex : Z) (w : World),
    attempt <= r -> 0 <= proxyIndex < k ->
    attempts (fetchAudio fuel text language attempt proxyIndex w)
    <= rungsLeft cfg attempt proxyIndex.
Proof.
  induction fuel as [|fuel IH]; intros a p w Ha Hp.
  - unfold attempts, rungsLeft. simpl. nia.
  - rewrite fetchAudio_unfold. cbv zeta.
    destruct (attemptFetch_requests text language p w) as (T1 & _).
    set (tried := attemptFetch transport cfg text language p w) in *.
    assert (Hpos : 1 <= rungsLeft cfg a p) by (unfold rungsLeft; nia).
    destruct (completion tried) as [b|e|];
      try (unfold attempts; lia).
    rewrite attempts_prepend, requests_app, length_app. simpl (requests [_]).
    assert (Hnext : attempts (afterFailure transport cfg fuel text language
                                           a p (after tried))
                    <= rungsLeft cfg a p - 1).
    { unfold afterFailure.
      destruct (Z.ltb_spec (p + 1) k) as [Hn|Hn].
      - pose proof (IH a (p + 1) (after tried) Ha ltac:(lia)) as I1.
        unfold rungsLeft in *. lia.
      - destruct (Z.ltb_spec a r) as [Hr|Hr].
        + pose proof (IH (a + 1) 0 (after tried) ltac:(lia) ltac:(lia)) as I1.
          rewrite attempts_prepend. simpl (requests [_; _]).
          unfold rungsLeft in *. simpl. nia.
        + destruct (directFallback_quiet text language (after tried))
            as (D1 & _).
          unfold attempts. rewrite D1. simpl.
          unfold rungsLeft in *. nia. }
    simpl (List.length []). lia.
Qed.

(** X8. For every text, every network and every depth of recursion, one
    call of [fetchAudioWithRetry] makes at most [k * r] requests. *)
Theorem requests_per_chunk_bounded (text language : jsString) (fuel : nat)
        (w : World) :
  1 <= k -> 1 <= r ->
  attempts (fetchAudio fuel text language 1 0 w) <= k * r.
Proof.
  intros Hk Hr.
  pose proof (ladder_general text language fuel 1 0 w ltac:(lia) ltac:(lia))
    as H.
  unfold rungsLeft in H. lia.
Qed.

(** X9. The three ways a call of [fetchAudioWithRetry] ends. With a blob: the
    blob is not empty, no tab was opened and nothing was notified. With
    [null]: the target URL was opened, once, and the user was told. With an
    exception: it is the [URIError] of a text or language that
    [encodeURIComponent] rejects, no tab was opened; no failure of the network
    ever leaves the call as an exception. *)
Theorem fetch_endings (fuel : nat) (text language : jsString)
        (attempt proxyIndex : Z) (w : World) :
  let run := fetchAudio fuel text language attempt proxyIndex w in
  (forall blob,
      completion run = Returned (Some blob) ->
      size blob <> 0 /\ opened (events run) = [] /\
      notified (events run) = []) /\
  (completion run = Returned None ->
   exists googleUrl,
     targetUrl cfg text language = Some googleUrl /\
     opened (events run) = [googleUrl] /\
     notified (events run) = [UnableToDownload]) /\
  (forall e,
      completion run = Thrown e ->
      e = URIError /\ targetUrl cfg text language = None /\
      opened (events run) = [] /\ notified (events run) = []).
Proof.
  cbv zeta.
  destruct (fetchAudio_shape transport cfg fuel text language attempt
                             proxyIndex w) as (_ & _ & S3).
  split; [|split].
  - intros blob H. rewrite H in S3. destruct S3 as (_ & S4 & S5 & S6). auto.
  - intros H. rewrite H in S3.
    destruct S3 as (g & pre & Hg & Hev & _ & P2 & P3).
    exists g. rewrite Hev, opened_app, notified_app, P2, P3. auto.
  - intros e H. rewrite H in S3. exact S3.
Qed.

(** A text that cannot be encoded never reaches the network. *)
Lemma unencodable_ladder (text language : jsString) (fuel : nat) :
  targetUrl cfg text language = None ->
  forall (attempt proxyIndex : Z) (w : World),
    let run := fetchAudio fuel text language attempt proxyIndex w in
    requests (events run) = [] /\ after run = w /\
    (attempt <= r -> 0 <= proxyIndex < k ->
     rungsLeft cfg attempt proxyIndex <= Z.of_nat fuel ->
     completion run = Thrown URIError).
Proof.
  intros Hnone. induction fuel as [|fuel IH]; intros a p w.
  - cbv zeta. simpl. split; [reflexivity|]. split; [reflexivity|].
    intros Ha Hp H. unfold rungsLeft in H. simpl in H. nia.
  - cbv zeta. rewrite fetchAudio_unfold. cbv zeta.
    destruct (attemptFetch_requests text language p w) as (_ & T3).
    destruct (T3 Hnone) as (Tc & Te & Tw).
    rewrite Tc, Te, Tw. rewrite events_prepend, requests_app.
    change (completion (prepend _ ?x)) with (completion x).
    change (after (prepend _ ?x)) with (after x).
    simpl (requests _ ++ _). unfold afterFailure.
    destruct (Z.ltb_spec (p + 1) k) as [Hn|Hn].
    + destruct (IH a (p + 1) w) as (I1 & I2 & I3).
      split; [assumption|]. split; [assumption|].
      intros Ha Hp H. apply I3; try lia. unfold rungsLeft in *. lia.
    + destruct (Z.ltb_spec a r) as [Hr|Hr].
      * destruct (IH (a + 1) 0 w) as (I1 & I2 & I3).
        rewrite events_prepend, requests_app.
        change (completion (prepend _ ?x)) with (completion x).
        change (after (prepend _ ?x)) with (after x).
        simpl (requests _ ++ _).
        split; [assumption|]. split; [assumption|].
        intros Ha Hp H. apply I3; try lia. unfold rungsLeft in *. nia.
      * rewrite directFallback_run, Hnone. simpl. auto.
Qed.

(** X10. For a text or language that [encodeURIComponent] rejects, the call
    walks the whole ladder without a single request, leaves the network as it
    was, opens no tab, shows no notification and throws [URIError]. *)
Theorem unencodable_text_is_never_requested (text language : jsString)
        (fuel : nat) (w : World) :
  targetUrl cfg text language = None ->
  1 <= k -> 1 <= r -> k * r <= Z.of_nat fuel ->
  let run := fetchAudio fuel text language 1 0 w in
  completion run = Thrown URIError /\
  requests (events run) = [] /\ after run = w /\
  opened (events run) = [] /\ notified (events run) = [].
Proof.
  intros Hnone Hk Hr Hfuel. cbv zeta.
  destruct (unencodable_ladder text language fuel Hnone 1 0 w)
    as (U1 & U2 & U3).
  assert (Hc : completion (fetchAudio fuel text language 1 0 w)
               = Thrown URIError).
  { apply U3; try lia. unfold rungsLeft. lia. }
  destruct (fetchAudio_shape transport cfg fuel text language 1 0 w)
    as (_ & _ & S3).
  rewrite Hc in S3. destruct S3 as (_ & _ & S4 & S5). auto.
Qed.

(** X11. Input that [validateInput] refuses: the export returns at once, makes
    no request, opens and saves nothing and leaves the network as it was; an
    empty text is answered by one notification, a text over the limit by two,
    the one of [validateInput] and the one of [handleExport]. *)
Theorem refused_input_stays_local (fuel : nat) (format : jsString) (w : World) :
  let text := trim (textInput_value ui) in
  let run := handleExport transport cfg ui fuel format w in
  length text = 0 \/ MAX_TEXT_LENGTH cfg < length text ->
  completion run = Returned tt /\ after run = w /\
  requests (events run) = [] /\ opened (events run) = [] /\
  saved (events run) = [] /\
  notified (events run)
  = (if length text =? 0 then [EnterValidText]
     else [TextTooLong (MAX_TEXT_LENGTH cfg); EnterValidText]).
Proof.
  cbv zeta. intros H. rewrite handleExport_run. cbv zeta.
  destruct (Z.eqb_spec (length (trim (textInput_value ui))) 0) as [E|E].
  - simpl. auto 10.
  - destruct (Z.ltb_spec (MAX_TEXT_LENGTH cfg)
                         (length (trim (textInput_value ui)))); [|lia].
    simpl. auto 10.
Qed.

Lemma lastStatus_app (a b : list Event) :
  lastStatus (a ++ b)
  = match lastStatus b with
    | Some s => Some s
    | None => lastStatus a
    end.
Proof.
  induction a as [|e a IH]; simpl.
  - destruct (lastStatus b); reflexivity.
  - rewrite IH. destruct (lastStatus b); reflexivity.
Qed.

(** X12. When an export returns, the last status it set is inactive, so the
    speak button it disabled is enabled again: ['Download Complete'] when a
    file was saved, ['Error'] otherwise. *)
Theorem status_ends_inactive (fuel : nat) (format : jsString) (w : World) :
  1 <= CHUNK_SIZE cfg ->
  let run := handleExport transport cfg ui fuel format w in
  completion run = Returned tt ->
  lastStatus (events run)
  = Some (match saved (events run) with
          | [] => ErrorStatus
          | _ => DownloadComplete
          end, false).
Proof.
  intros Hsize. cbv zeta. rewrite handleExport_run. cbv zeta.
  destruct (length (trim (textInput_value ui)) =? 0); [reflexivity|].
  destruct (MAX_TEXT_LENGTH cfg <? length (trim (textInput_value ui)));
    [reflexivity|].
  destruct (CHUNK_SIZE cfg <? length (trim (textInput_value ui))).
  - rewrite handleLongExport_run. cbv zeta.
    destruct (chunkText fuel (trim (textInput_value ui)) (CHUNK_SIZE cfg))
      as [chunks|] eqn:Hchunks; [|discriminate].
    pose proof (forEachChunk_shape transport cfg fuel lang
                  (Z.of_nat (List.length chunks)) chunks 0 [] w
                  (chunks_not_blank fuel _ (CHUNK_SIZE cfg) chunks Hsize Hchunks))
      as (L1 & _).
    set (loop := forEachChunk transport cfg fuel lang
                              (Z.of_nat (List.length chunks)) 0 chunks [] w)
      in *.
    destruct (completion loop); [| |discriminate]; intros _; simpl events.
    + change (StatusUpdate ProcessingLongText true :: events loop ++ ?t)
        with ((StatusUpdate ProcessingLongText true :: events loop) ++ t).
      rewrite lastStatus_app, saved_app. simpl. rewrite L1. reflexivity.
    + change (StatusUpdate ProcessingLongText true :: events loop ++ ?t)
        with ((StatusUpdate ProcessingLongText true :: events loop) ++ t).
      rewrite lastStatus_app, saved_app. simpl. rewrite L1. reflexivity.
  - pose proof (fetchAudio_shape transport cfg fuel
                  (trim (textInput_value ui)) lang 1 0 w) as (S1 & _).
    set (fetched := fetchAudio fuel (trim (textInput_value ui)) lang 1 0 w)
      in *.
    destruct (completion fetched) as [[b|]|e|]; [| | |discriminate];
      intros _; simpl events;
      change (StatusUpdate PreparingDownload true :: events fetched ++ ?t)
        with ((StatusUpdate PreparingDownload true :: events fetched) ++ t);
      rewrite lastStatus_app, saved_app; simpl; rewrite S1; reflexivity.
Qed.

(** X13. An export never throws to its caller, whatever the text, the
    language, the network and the depth of recursion: every error of the
    chunk loop and of [fetchAudioWithRetry], the [URIError] of a chunk that
    cannot be encoded included, is caught inside it. And it does not fail
    in silence: when it returns without having saved a file, it has shown
    a notification. *)
Theorem export_never_throws (fuel : nat) (format : jsString) (w : World) :
  let run := handleExport transport cfg ui fuel format w in
  (forall e, completion run <> Thrown e) /\
  (completion run = Returned tt -> saved (events run) = [] ->
   notified (events run) <> []).
Proof.
  cbv zeta. rewrite handleExport_run. cbv zeta.
  destruct (length (trim (textInput_value ui)) =? 0);
    [split; [discriminate | intros _ _; discriminate]|].
  destruct (MAX_TEXT_LENGTH cfg <? length (trim (textInput_value ui)));
    [split; [discriminate | intros _ _; discriminate]|].
  destruct (CHUNK_SIZE cfg <? length (trim (textInput_value ui))).
  - rewrite handleLongExport_run. cbv zeta.
    destruct (chunkText fuel (trim (textInput_value ui)) (CHUNK_SIZE cfg))
      as [chunks|]; [|split; discriminate].
    set (loop := forEachChunk transport cfg fuel lang
                              (Z.of_nat (List.length chunks)) 0 chunks [] w).
    destruct (completion loop) as [blobs|e|]; (split; [discriminate|]);
      simpl events; [| |discriminate].
    + intros _ H. exfalso.
      change (StatusUpdate ProcessingLongText true :: events loop ++ ?t)
        with ((StatusUpdate ProcessingLongText true :: events loop) ++ t) in H.
      rewrite saved_app in H. apply app_eq_nil in H. destruct H as (_ & H).
      discriminate H.
    + intros _ _ H.
      change (StatusUpdate ProcessingLongText true :: events loop ++ ?t)
        with ((StatusUpdate ProcessingLongText true :: events loop) ++ t) in H.
      rewrite notified_app in H. apply app_eq_nil in H. destruct H as (_ & H).
      discriminate H.
  - set (fetched := fetchAudio fuel (trim (textInput_value ui)) lang 1 0 w).
    destruct (completion fetched) as [[b|]|e|]; (split; [discriminate|]);
      simpl events; [| | |discriminate].
    + intros _ H. exfalso.
      change (StatusUpdate PreparingDownload true :: events fetched ++ ?t)
        with ((StatusUpdate PreparingDownload true :: events fetched) ++ t)
        in H.
      rewrite saved_app in H. apply app_eq_nil in H. destruct H as (_ & H).
      discriminate H.
    + intros _ _ H.
      change (StatusUpdate PreparingDownload true :: events fetched ++ ?t)
        with ((StatusUpdate PreparingDownload true :: events fetched) ++ t)
        in H.
      rewrite notified_app in H. apply app_eq_nil in H. destruct H as (_ & H).
      discriminate H.
    + intros _ _ H.
      change (StatusUpdate PreparingDownload true :: events fetched ++ ?t)
        with ((StatusUpdate PreparingDownload true :: events fetched) ++ t)
        in H.
      rewrite notified_app in H. apply app_eq_nil in H. destruct H as (_ & H).
      discriminate H.
Qed.

Lemma beforeHyphen_split (s : jsString) :
  ~ In 45 (beforeHyphen s) /\
  exists rest, s = beforeHyphen s ++ rest /\
               (rest = [] \/ exists tail, rest = 45 :: tail).
Proof.
  induction s as [|c t (IH1 & rest & IH2 & IH3)]; simpl.
  - split; [tauto|]. exists []. auto.
  - destruct (Z.eqb_spec c 45) as [->|Hc].
    + split; [simpl; tauto|]. exists (45 :: t). split; [reflexivity|].
      right. exists t. reflexivity.
    + split; [simpl; intros [H|H]; [congruence | contradiction]|].
      exists rest. split; [simpl; congruence | assumption].
Qed.

(** X14. The language sent with a request is the [data-lang] of the selected
    option up to its first hyphen, and [en] when no option is selected or its
    attribute is missing or empty; it never holds a hyphen. *)
Theorem short_language :
  ~ In 45 lang /\
  (exists rest,
      getSelectedLanguage ui = lang ++ rest /\
      (rest = [] \/ exists tail, rest = 45 :: tail)) /\
  (selected_data_lang ui = None \/ selected_data_lang ui = Some [] ->
   lang = lit "en") /\
  (forall c t, selected_data_lang ui = Some (c :: t) ->
               lang = beforeHyphen (c :: t)).
Proof.
  unfold shortLang.
  destruct (beforeHyphen_split (getSelectedLanguage ui)) as (H1 & H2).
  split; [assumption|]. split; [assumption|]. split.
  - unfold getSelectedLanguage. intros [-> | ->]; reflexivity.
  - intros c t H. unfold getSelectedLanguage. rewrite H. reflexivity.
Qed.

(** The requests of the chunk loop, grouped by the chunk they were made
    for. *)
Lemma forEachChunk_groups (fuel : nat) (language : jsString)
      (totalChunks : Z) :
  1 <= k -> 1 <= r ->
  forall (chunks : list jsString) (i : Z) (blobs : list Blob) (w : World),
    Forall (fun chunk => trim chunk <> []) chunks ->
    exists made,
      requests (events (forEachChunk transport cfg fuel language totalChunks
                                     i chunks blobs w))
      = List.concat made /\
      (List.length made <= List.length chunks)%nat /\
      Forall2 (fun chunk urls =>
                 Z.of_nat (List.length urls) <= k * r /\
                 exists w',
                   urls = requests (events (fetchAudio fuel chunk language
                                                       1 0 w')))
              (firstn (List.length made) chunks) made.
Proof.
  intros Hk Hr. induction chunks as [|chunk rest IH]; intros i blobs w Hall.
  - exists []. simpl. split; [reflexivity|]. split; [lia | constructor].
  - inversion Hall as [|? ? Hchunk Hrest]; subst.
    rewrite forEachChunk_cons by assumption. cbv zeta.
    pose proof (ladder_general chunk language fuel 1 0 w ltac:(lia) ltac:(lia))
      as Hb.
    unfold rungsLeft, attempts in Hb.
    assert (Hone : Z.of_nat (List.length
                               (requests (events (fetchAudio fuel chunk
                                                             language 1 0 w))))
                   <= k * r /\
                   exists w',
                     requests (events (fetchAudio fuel chunk language 1 0 w))
                     = requests (events (fetchAudio fuel chunk language
                                                    1 0 w'))).
    { split; [lia | exists w; reflexivity]. }
    set (fetched := fetchAudio fuel chunk language 1 0 w) in *.
    destruct (completion fetched) as [[b|]|e|].
    + destruct (IH (i + 1) (blobs ++ [b]) (after fetched) Hrest)
        as (made & M1 & M2 & M3).
      exists (requests (events fetched) :: made).
      rewrite events_prepend, requests_app. simpl (requests (_ :: _)).
      rewrite requests_app.
      assert (Hp : requests (if i <? totalChunks - 1 then [Delay 500] else [])
                   = []) by (destruct (i <? totalChunks - 1); reflexivity).
      rewrite Hp, app_nil_r, M1.
      split; [reflexivity|]. split; [simpl; lia|].
      simpl. constructor; assumption.
    + exists [requests (events fetched)]. simpl. rewrite app_nil_r.
      split; [reflexivity|]. split; [lia|]. constructor; [assumption|].
      constructor.
    + exists [requests (events fetched)]. simpl. rewrite app_nil_r.
      split; [reflexivity|]. split; [lia|]. constructor; [assumption|].
      constructor.
    + exists [requests (events fetched)]. simpl. rewrite app_nil_r.
      split; [reflexivity|]. split; [lia|]. constructor; [assumption|].
      constructor.
Qed.

(** X15. The requests of an export, chunk by chunk, for every network: they
    are, in the order of the chunks, the requests of one call of
    [fetchAudioWithRetry] for each chunk that was reached, at most [k * r]
    for each of them; and there is none when [validateInput] refuses the
    text. *)
Theorem export_request_bound (fuel : nat) (format : jsString) (w : World)
        (chunks : list jsString) :
  1 <= CHUNK_SIZE cfg -> 1 <= k -> 1 <= r ->
  exportChunks cfg fuel (trim (textInput_value ui)) = Some chunks ->
  let text := trim (textInput_value ui) in
  let run := handleExport transport cfg ui fuel format w in
  exists made,
    requests (events run) = List.concat made /\
    (List.length made <= List.length chunks)%nat /\
    Forall2 (fun chunk urls =>
               Z.of_nat (List.length urls) <= k * r /\
               exists w',
                 urls = requests (events (fetchAudio fuel chunk lang 1 0 w')))
            (firstn (List.length made) chunks) made /\
    (length text = 0 \/ MAX_TEXT_LENGTH cfg < length text -> made = []).
Proof.
  intros Hsize Hk Hr. unfold exportChunks. cbv zeta.
  rewrite handleExport_run. cbv zeta.
  destruct (Z.eqb_spec (length (trim (textInput_value ui))) 0) as [E0|E0].
  { intros _. exists []. simpl. repeat split; try lia. constructor. }
  destruct (Z.ltb_spec (MAX_TEXT_LENGTH cfg)
                       (length (trim (textInput_value ui)))) as [Em|Em].
  { intros _. exists []. simpl. repeat split; try lia. constructor. }
  destruct (CHUNK_SIZE cfg <? length (trim (textInput_value ui))).
  - intros Hchunks. rewrite handleLongExport_run. cbv zeta. rewrite Hchunks.
    destruct (forEachChunk_groups fuel lang (Z.of_nat (List.length chunks))
                Hk Hr chunks 0 [] w
                (chunks_not_blank fuel _ (CHUNK_SIZE cfg) chunks Hsize Hchunks))
      as (made & M1 & M2 & M3).
    set (loop := forEachChunk transport cfg fuel lang
                              (Z.of_nat (List.length chunks)) 0 chunks [] w)
      in *.
    exists made. split; [|split; [assumption|split; [assumption|lia]]].
    destruct (completion loop); simpl events; simpl requests;
      rewrite ?requests_app; simpl; rewrite ?app_nil_r; exact M1.
  - intros H. inversion H. subst chunks.
    pose proof (ladder_general (trim (textInput_value ui)) lang fuel 1 0 w
                               ltac:(lia) ltac:(lia)) as Hb.
    unfold rungsLeft, attempts in Hb.
    exists [requests (events (fetchAudio fuel (trim (textInput_value ui)) lang
                                         1 0 w))].
    split; [|split; [simpl; lia|split; [|lia]]].
    + set (fetched := fetchAudio fuel (trim (textInput_value ui)) lang 1 0 w).
      destruct (completion fetched) as [[b|]|e|]; simpl events;
        simpl requests; rewrite ?requests_app; simpl; rewrite ?app_nil_r;
        reflexivity.
    + simpl. constructor; [|constructor]. split; [lia|].
      exists w. reflexivity.
Qed.

End PipelineEdges.

Section LadderUrls.

Context {World : Type}.
Variable transport : World -> jsString -> Reply * World.
Variable cfg : Config.

Local Abbreviation fetchAudio := (fetchAudioWithRetry transport cfg).
Local Abbreviation k := (proxyCount cfg).
Local Abbreviation r := (RETRY_ATTEMPTS cfg).

Lemma skipn_nth_cons {A} (d : A) (l : list A) :
  forall n, (n < List.length l)%nat ->
            skipn n l = nth n l d :: skipn (S n) l.
Proof.
  induction l as [|x l IH]; intros n Hn; simpl in Hn; [lia|].
  destruct n as [|n]; [reflexivity|].
  change (skipn (S n) (x :: l)) with (skipn n l).
  change (skipn (S (S n)) (x :: l)) with (skipn (S n) l).
  change (nth (S n) (x :: l) d) with (nth n l d).
  apply IH. lia.
Qed.

(** The requests of a run from rung [(attempt, proxyIndex)] are the first
    of the proxied URLs that are left, in their order; all of them when the
    call gives up. *)
Lemma ladder_urls_from (text language googleUrl encoded : jsString)
      (fuel : nat) :
  targetUrl cfg text language = Some googleUrl ->
  encodeURIComponent googleUrl = Some encoded ->
  let proxied := fun proxy : jsString => proxy ++ encoded in
  forall (attempt proxyIndex : Z) (w : World),
    attempt <= r -> 0 <= proxyIndex < k ->
    let run := fetchAudio fuel text language attempt proxyIndex w in
    exists rest,
      map proxied (skipn (Z.to_nat proxyIndex) (PROXY_URLS cfg))
      ++ List.concat (repeat (map proxied (PROXY_URLS cfg))
                             (Z.to_nat (r - attempt)))
      = requests (events run) ++ rest /\
      (completion run = Returned None -> rest = []).
Proof.
  intros Hg He proxied.
  induction fuel as [|fuel IH]; intros a p w Ha Hp.
  - cbv zeta. simpl. eexists. split; [reflexivity | discriminate].
  - cbv zeta. rewrite (ladder_rung transport cfg fuel text language a p w
                                   googleUrl encoded Hg He). cbv zeta.
    assert (Hlt : (Z.to_nat p < List.length (PROXY_URLS cfg))%nat)
      by (unfold proxyCount in Hp; lia).
    assert (Hat : proxyAt cfg p
                  = nth (Z.to_nat p) (PROXY_URLS cfg) (lit "undefined")).
    { unfold proxyAt. destruct (Z.ltb_spec p 0); [lia | reflexivity]. }
    rewrite (skipn_nth_cons (lit "undefined") _ _ Hlt), <- Hat.
    cbn [map]. change (proxied (proxyAt cfg p)) with (proxyAt cfg p ++ encoded).
    set (u := proxyAt cfg p ++ encoded).
    destruct (outcomeOf (fst (transport w u))) as [e|b].
    + rewrite events_prepend, requests_app.
      change (completion (prepend _ ?x)) with (completion x).
      simpl (requests [_; _; _]). unfold afterFailure.
      destruct (Z.ltb_spec (p + 1) k) as [Hn|Hn].
      * destruct (IH a (p + 1) (snd (transport w u)) Ha ltac:(lia))
          as (rest & I1 & I2).
        replace (Z.to_nat (p + 1)) with (S (Z.to_nat p)) in I1 by lia.
        exists rest. split; [|assumption].
        cbn [app]. f_equal. exact I1.
      * assert (Hlast : skipn (S (Z.to_nat p)) (PROXY_URLS cfg) = []).
        { apply skipn_all2. unfold proxyCount in Hn. lia. }
        rewrite Hlast. cbn [map app].
        destruct (Z.ltb_spec a r) as [Hr|Hr].
        -- destruct (IH (a + 1) 0 (snd (transport w u)) ltac:(lia) ltac:(lia))
             as (rest & I1 & I2).
           change (Z.to_nat 0) with 0%nat in I1. cbn [skipn] in I1.
           replace (Z.to_nat (r - a)) with (S (Z.to_nat (r - (a + 1))))
             by lia.
           rewrite events_prepend, requests_app.
           change (completion (prepend _ ?x)) with (completion x).
           simpl (requests [_; _]). cbn [repeat List.concat app].
           exists rest. split; [|assumption]. f_equal. exact I1.
        -- replace (Z.to_nat (r - a)) with 0%nat by lia.
           rewrite directFallback_run, Hg. simpl.
           exists []. split; [reflexivity | reflexivity].
    + simpl. eexists. split; [reflexivity | discriminate].
Qed.

(** X16. The requests of one chunk go to the proxies in the order of
    [PROXY_URLS], pass after pass: whatever the network answers, they are the
    first URLs of the ladder, with no proxy skipped and none asked twice in a
    pass; and they are the whole ladder when the call returns [null]. *)
Theorem requests_follow_the_proxy_list
        (text language googleUrl encoded : jsString) (fuel : nat) (w : World) :
  1 <= k -> 1 <= r ->
  targetUrl cfg text language = Some googleUrl ->
  encodeURIComponent googleUrl = Some encoded ->
  let run := fetchAudio fuel text language 1 0 w in
  exists rest,
    ladderUrls cfg encoded = requests (events run) ++ rest /\
    (completion run = Returned None -> rest = []).
Proof.
  intros Hk Hr Hg He. cbv zeta.
  destruct (ladder_urls_from text language googleUrl encoded fuel Hg He
                             1 0 w ltac:(lia) ltac:(lia))
    as (rest & H1 & H2).
  exists rest. split; [|assumption].
  rewrite <- H1. unfold ladderUrls.
  replace (Z.to_nat r) with (S (Z.to_nat (r - 1))) by lia.
  reflexivity.
Qed.

End LadderUrls.

Section PipelineEdgeWitnesses.

Lemma requests_per_chunk_bounded_witness :
  attempts (fetchAudioWithRetry (flaky [0; 1]%nat) CONFIG 6 (lit "hello")
                                (lit "en") 1 0 0%nat) <= 6.
Proof.
  apply (requests_per_chunk_bounded (flaky [0; 1]%nat) CONFIG (lit "hello")
                                    (lit "en") 6 0%nat).
  - vm_compute. discriminate.
  - vm_compute. discriminate.
Defined.

Lemma fetch_endings_witness :
  let run := fetchAudioWithRetry (flaky [0]%nat) CONFIG 2 (lit "hello")
                                 (lit "en") 1 0 0%nat in
  size [2] <> 0 /\ opened (events run) = [] /\ notified (events run) = [].
Proof.
  destruct (fetch_endings (flaky [0]%nat) CONFIG 2 (lit "hello") (lit "en")
                          1 0 0%nat) as (H & _ & _).
  apply (H [2]). vm_compute. reflexivity.
Defined.

Lemma unencodable_text_is_never_requested_witness :
  let run := fetchAudioWithRetry always503 CONFIG 6 [55357] (lit "en")
                                 1 0 0%nat in
  completion run = Thrown URIError /\
  requests (events run) = [] /\ after run = 0%nat /\
  opened (events run) = [] /\ notified (events run) = [].
Proof.
  apply (unencodable_text_is_never_requested always503 CONFIG [55357]
                                             (lit "en") 6 0%nat).
  - vm_compute. reflexivity.
  - vm_compute. discriminate.
  - vm_compute. discriminate.
  - vm_compute. discriminate.
Defined.

Lemma refused_input_stays_local_witness :
  let ui := {| textInput_value := lit "   "; selected_data_lang := None |} in
  let run := handleExport always503 CONFIG ui 0 (lit "mp3") 0%nat in
  completion run = Returned tt /\ requests (events run) = [] /\
  notified (events run) = [EnterValidText].
Proof.
  destruct (refused_input_stays_local
              always503 CONFIG
              {| textInput_value := lit "   "; selected_data_lang := None |}
              0 (lit "mp3") 0%nat) as (H1 & _ & H2 & _ & _ & H3).
  - left. vm_compute. reflexivity.
  - split; [exact H1|]. split; [exact H2 | exact H3].
Defined.

Lemma status_ends_inactive_witness :
  let run := handleExport (flaky [1; 2]%nat) CONFIG page 460 (lit "mp3")
                          0%nat in
  lastStatus (events run) = Some (DownloadComplete, false).
Proof.
  cbv zeta.
  rewrite (status_ends_inactive (flaky [1; 2]%nat) CONFIG page 460 (lit "mp3")
                                0%nat).
  - vm_compute. reflexivity.
  - vm_compute. discriminate.
  - vm_compute. reflexivity.
Defined.

Lemma export_never_throws_witness :
  notified (events (handleExport always503 CONFIG page 460 (lit "mp3") 0%nat))
  <> [].
Proof.
  destruct (export_never_throws always503 CONFIG page 460 (lit "mp3") 0%nat)
    as (_ & H).
  apply H; vm_compute; reflexivity.
Defined.

Lemma short_language_witness :
  shortLang page = beforeHyphen (lit "en-US") /\ ~ In 45 (shortLang page).
Proof.
  destruct (short_language page) as (H1 & _ & _ & H2).
  split; [|exact H1]. apply (H2 101 (lit "n-US")). reflexivity.
Defined.

Lemma export_request_bound_witness :
  exists made,
    requests (events (handleExport always503 CONFIG page 460 (lit "mp3")
                                   0%nat))
    = List.concat made /\
    (List.length made <= 3)%nat.
Proof.
  destruct (export_request_bound always503 CONFIG page 460 (lit "mp3") 0%nat
                                 [paragraph 4; paragraph 4; paragraph 2])
    as (made & H1 & H2 & _).
  - vm_compute. discriminate.
  - vm_compute. discriminate.
  - vm_compute. discriminate.
  - vm_compute. reflexivity.
  - exists made. split; [exact H1 | exact H2].
Defined.

Lemma requests_follow_the_proxy_list_witness :
  let run := fetchAudioWithRetry always503 CONFIG 6 (lit "hello") (lit "en")
                                 1 0 0%nat in
  exists encoded, ladderUrls CONFIG encoded = requests (events run).
Proof.
  destruct (requestable_sound CONFIG (lit "hello") (lit "en"))
    as (g & e & Hg & He); [vm_compute; reflexivity|].
  destruct (requests_follow_the_proxy_list always503 CONFIG (lit "hello")
              (lit "en") g e 6 0%nat) as (rest & H1 & H2);
    [vm_compute; discriminate | vm_compute; discriminate | exact Hg
     | exact He |].
  exists e. cbv zeta. rewrite H1, H2, app_nil_r; [reflexivity|].
  vm_compute. reflexivity.
Defined.

End PipelineEdgeWitnesses.

(* ------------------------------------------------------------------ *)
(** ** The character counter and the voice list *)
(* ------------------------------------------------------------------ *)

Section PageProperties.

Context {World : Type}.
Variable cfg : Config.
Variable ui : UI.

(** X17. The counter and the validation agree on one side only: when the
    counter is not red, a text that is not white space passes [validateInput]
    without a message; and whenever [validateInput] refuses a text as too
    long, the counter is red. The counter measures the text as typed,
    [validateInput] the trimmed text. *)
Theorem counter_is_stricter_than_validation (w : World) :
  (count_red (updateCharCount cfg ui) = false ->
   trim (textInput_value ui) <> [] ->
   validateInput cfg ui w
   = {| completion := Returned true; events := []; after := w |}) /\
  (notified (events (validateInput cfg ui w)) <> [] ->
   count_red (updateCharCount cfg ui) = true).
Proof.
  pose proof (trim_length (textInput_value ui)) as Hlen.
  unfold updateCharCount, validateInput. cbv zeta. simpl count_red. split.
  - intros Hred Hne.
    destruct (Z.eqb_spec (length (trim (textInput_value ui))) 0) as [E|E].
    + destruct (trim (textInput_value ui)); [congruence|].
      unfold length in E. simpl in E. lia.
    + destruct (Z.ltb_spec (MAX_TEXT_LENGTH cfg)
                           (length (trim (textInput_value ui)))); [|reflexivity].
      apply Z.ltb_ge in Hred. unfold length in *. lia.
  - destruct (length (trim (textInput_value ui)) =? 0);
      [simpl; congruence|].
    destruct (Z.ltb_spec (MAX_TEXT_LENGTH cfg)
                         (length (trim (textInput_value ui))));
      [|simpl; congruence].
    intros _. apply Z.ltb_lt. unfold length in *. lia.
Qed.

End PageProperties.

Section VoiceProperties.

Variable toLowerCase : jsString -> jsString.
Variable sanitizeText : jsString -> jsString.

Lemma indexFrom_found (voices : list Voice) (voice : Voice) :
  In voice voices ->
  forall i, exists n found,
      indexFrom voices voice i = i + Z.of_nat n /\
      nth_error voices n = Some found /\
      voice_ref found = voice_ref voice.
Proof.
  induction voices as [|v rest IH]; intros Hin i; [contradiction|].
  simpl. destruct (Nat.eqb_spec (voice_ref v) (voice_ref voice)) as [E|E].
  - exists 0%nat, v. simpl. split; [lia | auto].
  - destruct Hin as [->|Hin]; [congruence|].
    destruct (IH Hin (i + 1)) as (n & found & H1 & H2 & H3).
    exists (S n), found. simpl. split; [lia | auto].
Qed.

(** X18. The value of an option is the index, in the list of all voices, of
    the voice it was made from, also when the search box filters the list:
    the voice at that index has the name and the language of the option's
    attributes and matches the search term. It holds for a list whose
    entries are the same object only when they are the same voice. *)
Theorem option_value_indexes_its_voice (voices : list Voice)
        (voiceSearch : option jsString) (option : OptionElement) (i : Z) :
  (forall v v', In v voices -> In v' voices ->
                voice_ref v = voice_ref v' -> v = v') ->
  In option (populateVoices toLowerCase sanitizeText voices voiceSearch) ->
  option_value option = Some i ->
  exists voice,
    0 <= i /\ nth_error voices (Z.to_nat i) = Some voice /\
    option_data_name option = Some (voice_name voice) /\
    option_data_lang option = Some (voice_lang voice) /\
    matches toLowerCase (searchTerm toLowerCase voiceSearch) voice = true.
Proof.
  intros Hid Hin Hval. unfold populateVoices in Hin. cbv zeta in Hin.
  apply in_app_or in Hin. destruct Hin as [Hin|Hin].
  - apply in_map_iff in Hin. destruct Hin as (voice & <- & Hf).
    apply filter_In in Hf. destruct Hf as (Hv & Hm).
    simpl in Hval. inversion Hval as [Hi]. unfold indexOf.
    destruct (indexFrom_found voices voice Hv 0) as (n & found & H1 & H2 & H3).
    assert (found = voice) as ->.
    { apply Hid; [eapply nth_error_In; eassumption | assumption | assumption]. }
    exists voice. rewrite H1. simpl Z.add. rewrite Nat2Z.id.
    split; [lia|]. simpl. auto.
  - destruct (filter _ voices); [|contradiction].
    destruct Hin as [<-|[]]. discriminate.
Qed.

Lemma indexFrom_skips (pre rest : list Voice) (voice : Voice) :
  (forall v, In v pre -> voice_ref v <> voice_ref voice) ->
  forall i, indexFrom (pre ++ rest) voice i
            = indexFrom rest voice (i + Z.of_nat (List.length pre)).
Proof.
  induction pre as [|v pre IH]; intros Hpre i; simpl.
  - f_equal. lia.
  - destruct (Nat.eqb_spec (voice_ref v) (voice_ref voice)) as [E|E].
    + exfalso. apply (Hpre v); [left; reflexivity | assumption].
    + rewrite IH by (intros v' Hv'; apply Hpre; right; assumption).
      f_equal. lia.
Qed.

Lemma indexOf_suffix (suffix : list Voice) :
  forall pre,
    NoDup (map voice_ref (pre ++ suffix)) ->
    map (indexOf (pre ++ suffix)) suffix
    = map Z.of_nat (seq (List.length pre) (List.length suffix)).
Proof.
  induction suffix as [|v suffix IH]; intros pre Hnd; [reflexivity|].
  cbn [map seq List.length]. f_equal.
  - unfold indexOf. rewrite indexFrom_skips.
    + simpl. rewrite Nat.eqb_refl. reflexivity.
    + intros v' Hv' Heq. rewrite map_app in Hnd. simpl in Hnd.
      apply NoDup_remove_2 in Hnd. apply Hnd. apply in_or_app. left.
      rewrite <- Heq. apply in_map. assumption.
  - specialize (IH (pre ++ [v])). rewrite <- app_assoc in IH. simpl in IH.
    rewrite IH by assumption. rewrite length_app. simpl.
    rewrite Nat.add_1_r. reflexivity.
Qed.

(** X19. With an empty search term every voice is listed, in the order of the
    engine, and the values of the options count up from 0; with no voice at
    all the list holds the one placeholder, which has no value. It holds for a
    list of distinct objects. *)
Theorem empty_search_lists_every_voice (voices : list Voice)
        (voiceSearch : option jsString) :
  NoDup (map voice_ref voices) ->
  searchTerm toLowerCase voiceSearch = [] ->
  let options := populateVoices toLowerCase sanitizeText voices voiceSearch in
  map option_value options
  = match voices with
    | [] => [None]
    | _ => map (fun n => Some (Z.of_nat n)) (seq 0 (List.length voices))
    end /\
  map option_data_name options
  = match voices with
    | [] => [None]
    | _ => map (fun voice => Some (voice_name voice)) voices
    end.
Proof.
  intros Hnd Hterm. cbv zeta. unfold populateVoices. cbv zeta. rewrite Hterm.
  assert (Hall : filter (matches toLowerCase []) voices = voices).
  { clear Hnd. induction voices as [|v rest IH]; [reflexivity|].
    simpl. rewrite IH. reflexivity. }
  rewrite Hall. destruct voices as [|v rest]; [split; reflexivity|].
  rewrite app_nil_r, !map_map. split; [|reflexivity].
  change (map (fun x => option_value (optionOf sanitizeText (v :: rest) x))
              (v :: rest))
    with (map (fun x => Some (indexOf (v :: rest) x)) (v :: rest)).
  rewrite <- (map_map (indexOf (v :: rest)) Some).
  pose proof (indexOf_suffix (v :: rest) [] Hnd) as Hs.
  change ([] ++ v :: rest) with (v :: rest) in Hs.
  rewrite Hs, map_map. reflexivity.
Qed.

End VoiceProperties.

Section PageWitnesses.

Lemma counter_is_stricter_than_validation_witness :
  validateInput CONFIG page 0%nat
  = {| completion := Returned true; events := []; after := 0%nat |}.
Proof.
  destruct (counter_is_stricter_than_validation CONFIG page 0%nat) as (H & _).
  apply H.
  - vm_compute. reflexivity.
  - vm_compute. discriminate.
Defined.

Lemma option_value_indexes_its_voice_witness :
  exists voice,
    nth_error threeVoices 1 = Some voice /\
    Some (lit "Amelie") = Some (voice_name voice).
Proof.
  destruct (option_value_indexes_its_voice
              asciiLower (fun s => s) threeVoices (Some (lit " FR "))
              {| option_textContent := lit "Amelie (fr-CA)";
                 option_value := Some 1; option_selected_set := false;
                 option_data_lang := Some (lit "fr-CA");
                 option_data_name := Some (lit "Amelie") |} 1)
    as (voice & _ & H1 & H2 & _).
  - intros v v' Hv Hv' Href. simpl in Hv, Hv'.
    destruct Hv as [<-|[<-|[<-|[]]]], Hv' as [<-|[<-|[<-|[]]]];
      (reflexivity || discriminate Href).
  - vm_compute. left. reflexivity.
  - reflexivity.
  - exists voice. split; [exact H1 | exact H2].
Defined.

Lemma empty_search_lists_every_voice_witness :
  map option_value (populateVoices asciiLower (fun s => s) threeVoices None)
  = [Some 0; Some 1; Some 2].
Proof.
  destruct (empty_search_lists_every_voice asciiLower (fun s => s) threeVoices
                                           None) as (H & _).
  - simpl. repeat constructor; simpl; intuition discriminate.
  - reflexivity.
  - exact H.
Defined.

End PageWitnesses.

Section Progress.

Context {World : Type}.
Variable transport : World -> jsString -> Reply * World.
Variable cfg : Config.
Variable ui : UI.

Local Abbreviation fetchAudio := (fetchAudioWithRetry transport cfg).
Local Abbreviation lang := (shortLang ui).

Lemma progress_app (a b : list Event) :
  progress (a ++ b) = progress a ++ progress b.
Proof. apply flat_map_app. Qed.

(** A chunk fetch sets no progress status. *)
Lemma fetch_no_progress (text language : jsString) (fuel : nat) :
  forall (attempt proxyIndex : Z) (w : World),
    progress (events (fetchAudio fuel text language attempt proxyIndex w)) = [].
Proof.
  induction fuel as [|fuel IH]; intros a p w; [reflexivity|].
  rewrite fetchAudio_unfold. cbv zeta.
  assert (Htried : progress (events (attemptFetch transport cfg text language
                                                  p w)) = []).
  { rewrite attemptFetch_run.
    destruct (targetUrl cfg text language) as [g|]; [|reflexivity].
    destruct (proxiedUrl cfg p g) as [u|]; [|reflexivity].
    destruct (outcomeOf (fst (transport w u))); reflexivity. }
  destruct (completion (attemptFetch transport cfg text language p w));
    try assumption.
  rewrite events_prepend, !progress_app, Htried. simpl.
  unfold afterFailure.
  destruct (p + 1 <? proxyCount cfg); [apply IH|].
  destruct (a <? RETRY_ATTEMPTS cfg).
  - rewrite events_prepend, progress_app, IH. reflexivity.
  - rewrite directFallback_run.
    destruct (targetUrl cfg text language); reflexivity.
Qed.

Lemma forEachChunk_progress (fuel : nat) (language : jsString)
      (totalChunks : Z) :
  forall (chunks : list jsString) (i : Z) (blobs : list Blob) (w : World),
    Forall (fun chunk => trim chunk <> []) chunks ->
    let run := forEachChunk transport cfg fuel language totalChunks i chunks
                            blobs w in
    exists m,
      (m <= List.length chunks)%nat /\
      progress (events run)
      = map (fun j => (i + 1 + Z.of_nat j, totalChunks)) (seq 0 m) /\
      (forall all, completion run = Returned all -> m = List.length chunks).
Proof.
  induction chunks as [|chunk rest IH]; intros i blobs w Hall.
  - exists 0%nat. cbv zeta. simpl. auto.
  - inversion Hall as [|? ? Hchunk Hrest]; subst.
    cbv zeta. rewrite forEachChunk_cons by assumption. cbv zeta.
    pose proof (fetch_no_progress chunk language fuel 1 0 w) as Hf.
    set (fetched := fetchAudio fuel chunk language 1 0 w) in *.
    destruct (completion fetched) as [[b|]|e|].
    + destruct (IH (i + 1) (blobs ++ [b]) (after fetched) Hrest)
        as (m & I1 & I2 & I3).
      exists (S m). rewrite events_prepend.
      change (completion (prepend _ ?x)) with (completion x).
      split; [simpl; lia|]. split.
      * rewrite progress_app. cbn [progress flat_map]. fold (progress).
        change (flat_map _ ?l) with (progress l).
        rewrite progress_app, Hf.
        assert (Hp : progress (if i <? totalChunks - 1 then [Delay 500]
                               else []) = [])
          by (destruct (i <? totalChunks - 1); reflexivity).
        rewrite Hp, I2. cbn [app seq map].
        replace (i + 1 + Z.of_nat 0) with (i + 1) by lia. f_equal.
        rewrite <- seq_shift, map_map. apply map_ext. intros j.
        replace (i + 1 + Z.of_nat (S j)) with (i + 1 + 1 + Z.of_nat j) by lia.
        reflexivity.
      * intros all Hc. simpl. f_equal. apply (I3 all Hc).
    + exists 1%nat. simpl events. split; [simpl; lia|]. split.
      * cbn [progress flat_map]. change (flat_map _ ?l) with (progress l).
        rewrite Hf. cbn [app seq map].
        replace (i + 1 + Z.of_nat 0) with (i + 1) by lia. reflexivity.
      * discriminate.
    + exists 1%nat. simpl events. split; [simpl; lia|]. split.
      * cbn [progress flat_map]. change (flat_map _ ?l) with (progress l).
        rewrite Hf. cbn [app seq map].
        replace (i + 1 + Z.of_nat 0) with (i + 1) by lia. reflexivity.
      * discriminate.
    + exists 1%nat. simpl events. split; [simpl; lia|]. split.
      * cbn [progress flat_map]. change (flat_map _ ?l) with (progress l).
        rewrite Hf. cbn [app seq map].
        replace (i + 1 + Z.of_nat 0) with (i + 1) by lia. reflexivity.
      * discriminate.
Qed.

(** X20. The progress of a long export counts up from 1 without a gap: its
    ['Processing chunk i/n'] statuses are those of chunks 1, 2, ... up to the
    chunk the export stopped at, each shown once and each with the number of
    chunks of the whole text; when a file is saved the progress reached the
    last chunk. *)
Theorem progress_counts_up (fuel : nat) (text format : jsString) (w : World)
        (chunks : list jsString) :
  1 <= CHUNK_SIZE cfg ->
  chunkText fuel text (CHUNK_SIZE cfg) = Some chunks ->
  let run := handleLongExport transport cfg ui fuel text format w in
  exists m,
    (m <= List.length chunks)%nat /\
    progress (events run)
    = map (fun j => (Z.of_nat j + 1, Z.of_nat (List.length chunks))) (seq 0 m) /\
    (saved (events run) <> [] -> m = List.length chunks).
Proof.
  intros Hsize Hchunks. cbv zeta. rewrite handleLongExport_run. cbv zeta.
  rewrite Hchunks.
  pose proof (chunks_not_blank fuel text (CHUNK_SIZE cfg) chunks Hsize Hchunks)
    as Hall.
  destruct (forEachChunk_progress fuel lang (Z.of_nat (List.length chunks))
                                  chunks 0 [] w Hall) as (m & P1 & P2 & P3).
  pose proof (forEachChunk_shape transport cfg fuel lang
                (Z.of_nat (List.length chunks)) chunks 0 [] w Hall) as (L1 & _).
  set (loop := forEachChunk transport cfg fuel lang
                            (Z.of_nat (List.length chunks)) 0 chunks [] w) in *.
  assert (Hmap : progress (events loop)
                 = map (fun j => (Z.of_nat j + 1,
                                  Z.of_nat (List.length chunks))) (seq 0 m)).
  { rewrite P2. apply map_ext. intros j.
    replace (0 + 1 + Z.of_nat j) with (Z.of_nat j + 1) by lia. reflexivity. }
  exists m. split; [assumption|].
  destruct (completion loop) as [all|e|]; simpl events.
  - split.
    + cbn [progress flat_map]. change (flat_map _ ?l) with (progress l).
      rewrite progress_app, Hmap. simpl. rewrite app_nil_r. reflexivity.
    + intros _. apply (P3 all). reflexivity.
  - split.
    + cbn [progress flat_map]. change (flat_map _ ?l) with (progress l).
      rewrite progress_app, Hmap. simpl. rewrite app_nil_r. reflexivity.
    + simpl saved. rewrite saved_app, L1. simpl. congruence.
  - split.
    + cbn [progress flat_map]. change (flat_map _ ?l) with (progress l).
      rewrite Hmap. reflexivity.
    + simpl saved. rewrite L1. congruence.
Qed.

End Progress.

Section ProgressWitnesses.

Lemma progress_counts_up_witness :
  exists m,
    progress (events (handleLongExport (flaky [1; 2]%nat) CONFIG page 460
                                       story (lit "mp3") 0%nat))
    = map (fun j => (Z.of_nat j + 1, 3)) (seq 0 m).
Proof.
  destruct (progress_counts_up (flaky [1; 2]%nat) CONFIG page 460 story
                               (lit "mp3") 0%nat
                               [paragraph 4; paragraph 4; paragraph 2])
    as (m & _ & H & _).
  - vm_compute. discriminate.
  - exact story_chunks.
  - exists m. exact H.
Defined.

End ProgressWitnesses.
